(** * CRPropa3 per-step simulation kernel

    A shallow embedding of three modules of CRPropa3,

      - [PhotoDisintegration]     (src/module/PhotoDisintegration.cpp),
      - [ElectronPairProduction]  (src/module/ElectronPairProduction.cpp),
      - [PropagationBP]           (src/module/PropagationBP.cpp),

    together with the statements about them that the development settles.

    Number model.  A C++ [double] is a real number: rounding, overflow,
    infinities and NaN are not represented.  Where the C++ code would
    divide by zero or evaluate [pow(0, y)] with negative [y], the theorems
    carry an explicit positivity hypothesis instead.  A C++ [int] is an
    integer of [Z]; all integers that occur (particle ids, channel codes,
    table indices) are far below 2^31.  Random draws are read from an
    explicit tape, so that every function is deterministic in its
    arguments. *)

From Stdlib Require Import Reals Lra Lia ZArith String List Bool Psatz Sorted.
Import ListNotations.

Local Open Scope R_scope.

(** ** Floating-point helpers of <cmath> and <limits> *)

Module Dbl.

(** [std::numeric_limits<double>::max()] = (2^53 - 1) * 2^971. *)
Definition DBL_MAX : R := IZR (2 ^ 1024 - 2 ^ 971).

Definition M_PI : R := PI.

(** [std::log10]. *)
Definition log10 (x : R) : R := ln x / ln 10.

(** [std::pow(x, y)] for a positive base. *)
Definition pow (x y : R) : R := Rpower x y.

(** [std::floor], as an integer. *)
Definition floor (x : R) : Z := (up x - 1)%Z.

(** [std::round]: nearest integer, halves away from zero. *)
Definition round (x : R) : Z :=
  if Rle_dec 0 x then floor (x + / 2) else (- floor (- x + / 2))%Z.

(** [pow_integer<2>] and [pow_integer<3>] of Common.h. *)
Definition pow_integer2 (x : R) : R := x * x.
Definition pow_integer3 (x : R) : R := x * x * x.

(** Modelled from the spec: [clip] of Common.h (not under src/),
    "step = clip(requested step, min, max)":
    [std::max(lower, std::min(x, upper))]. *)
Definition clip (x lower upper : R) : R := Rmax lower (Rmin x upper).

End Dbl.

(** ** Units.h (SI values) *)

Module Units.
(** Modelled from the spec: Units.h is not under src/ ("units" are out of
    the spec's scope); the constants the three modules use, in SI units. *)
Definition eV : R := 1.602176487e-19.
Definition c_light : R := 2.99792458e8.
Definition c_squared : R := c_light * c_light.
Definition mass_proton : R := 1.67262158e-27.
Definition Mpc : R := 3.0856775807e22.
End Units.

(** ** Vector3d *)

(** Modelled from the spec: Vector3.h is not under src/.  "position
    vector, direction unit vector": three Cartesian components with the
    usual sum, difference, scaling, dot and cross product and norm. *)
Record Vector3d : Type := mkVector3d { vx : R; vy : R; vz : R }.

Module Vector3.

Definition zero : Vector3d := mkVector3d 0 0 0.

Definition add (a b : Vector3d) : Vector3d :=
  mkVector3d (vx a + vx b) (vy a + vy b) (vz a + vz b).

Definition sub (a b : Vector3d) : Vector3d :=
  mkVector3d (vx a - vx b) (vy a - vy b) (vz a - vz b).

Definition scale (a : Vector3d) (f : R) : Vector3d :=
  mkVector3d (vx a * f) (vy a * f) (vz a * f).

Definition divide (a : Vector3d) (f : R) : Vector3d :=
  mkVector3d (vx a / f) (vy a / f) (vz a / f).

Definition dot (a b : Vector3d) : R :=
  vx a * vx b + vy a * vy b + vz a * vz b.

Definition cross (a b : Vector3d) : Vector3d :=
  mkVector3d (vy a * vz b - vz a * vy b)
             (vz a * vx b - vx a * vz b)
             (vx a * vy b - vy a * vx b).

Definition getR (a : Vector3d) : R :=
  sqrt (vx a * vx a + vy a * vy a + vz a * vz a).

Definition getUnitVector (a : Vector3d) : Vector3d := divide a (getR a).

(** Modelled from the spec: Vector3.h is not under src/.  The polar
    angle of the position, in [[0, pi]]. *)
Definition getTheta (a : Vector3d) : R :=
  if Req_dec_T (getR a) 0 then 0 else acos (vz a / getR a).

End Vector3.

(** ** Particle ids *)

Module ParticleID.

(** Modelled from the spec: ParticleID.h is not under src/.  "species id
    (encodes mass number + charge for nuclei, or a simple code for
    leptons/photons)": the nuclear code 10LZZZAAAI of the particle
    numbering scheme, 11 for the electron, 22 for the photon and 2112 for
    the free neutron.  [nucleusId] raises (here [None]) on an invalid
    nuclide. *)
Definition nucleusId (a z : Z) : option Z :=
  if (z <? 0)%Z then None
  else if (a <? 1)%Z then None
  else if (a <? z)%Z then None
  else Some (1000000000 + z * 10000 + a * 10)%Z.

(** Modelled from the spec: the charge number ZZZ encoded in the id. *)
Definition chargeNumber (id : Z) : Z := Z.rem (Z.quot id 10000) 1000.

(** Modelled from the spec: the mass number AAA encoded in the id of a
    nucleus (10LZZZAAAI), 1 for the free neutron; a species with "a
    simple code", a lepton or a photon, carries no nucleons. *)
Definition massNumber (id : Z) : Z :=
  if (id =? 2112)%Z then 1%Z
  else if (Z.quot (Z.abs id) 100000000 =? 10)%Z then Z.rem (Z.quot id 10) 1000
  else 0%Z.

(** Modelled from the spec: "the species the module targets": ids of the
    form 10LZZZAAAI with A >= Z, and the free neutron. *)
Definition isNucleus (id : Z) : bool :=
  (id =? 2112)%Z
  || ((Z.quot (Z.abs id) 100000000 =? 10)%Z
      && (Z.rem (Z.quot (Z.abs id) 10000) 1000
            <=? Z.rem (Z.quot (Z.abs id) 10) 1000)%Z).

(** Modelled from the spec: [digit] of Common.h, "a composite integer
    whose decimal digits count emitted light fragments". *)
Definition digit (value d : Z) : Z := Z.quot (Z.rem value (d * 10)) d.

End ParticleID.

(** ** ParticleState, Candidate and the random facility *)

(** Modelled from the spec: ParticleState.h is not under src/.
    "ParticleState: species id [...], energy, derived Lorentz factor,
    position vector, direction unit vector". *)
Record ParticleState : Type := mkParticleState {
  ps_id : Z;
  ps_energy : R;
  ps_position : Vector3d;
  ps_direction : Vector3d
}.

(** Modelled from the spec: Candidate.h is not under src/.  "Candidate:
    current, previous, and created ParticleState snapshots; ordered
    sequence of owned secondary Candidates; redshift; current/next step
    lengths; [...] interaction-tag-of-origin string", and the weight. *)
#[warnings="-register-all"]
Inductive Candidate : Type := mkCandidate {
  current : ParticleState;
  previous : ParticleState;
  created : ParticleState;
  secondaries : list Candidate;
  redshift : R;
  currentStep : R;
  nextStep : R;
  weight : R;
  tagOrigin : string
}.

(** The tape of uniform draws still to be handed out by [Random::rand]. *)
Definition Random : Type := nat -> R.

Module ParticleStateOps.
Section WithMasses.

(** The table of particle masses (ParticleMass.h) and the charge of a
    species in coulomb, both indexed by particle id. *)
Variable nuclearMass : Z -> R.
Variable particleCharge : Z -> R.

(** Modelled from the spec: the accessors of ParticleState (not under
    src/) read and write the fields named in the data model; [getId],
    [getEnergy], [getPosition] and [getDirection] are the projections
    [ps_id], [ps_energy], [ps_position] and [ps_direction]. *)
Definition getCharge (p : ParticleState) : R := particleCharge (ps_id p).

Definition setId (i : Z) (p : ParticleState) : ParticleState :=
  mkParticleState i (ps_energy p) (ps_position p) (ps_direction p).
Definition setEnergy (e : R) (p : ParticleState) : ParticleState :=
  mkParticleState (ps_id p) e (ps_position p) (ps_direction p).
Definition setPosition (x : Vector3d) (p : ParticleState) : ParticleState :=
  mkParticleState (ps_id p) (ps_energy p) x (ps_direction p).
Definition setDirection (u : Vector3d) (p : ParticleState) : ParticleState :=
  mkParticleState (ps_id p) (ps_energy p) (ps_position p) u.

(** Modelled from the spec: ParticleState.cpp is not under src/.  The
    Lorentz factor is "derived": gamma = E / (m c^2). *)
Definition getLorentzFactor (p : ParticleState) : R :=
  ps_energy p / (nuclearMass (ps_id p) * Units.c_squared).
Definition setLorentzFactor (lf : R) (p : ParticleState) : ParticleState :=
  setEnergy (lf * nuclearMass (ps_id p) * Units.c_squared) p.

End WithMasses.
End ParticleStateOps.

Module CandidateOps.

Definition set_current (p : ParticleState) (c : Candidate) : Candidate :=
  mkCandidate p (previous c) (created c) (secondaries c) (redshift c)
              (currentStep c) (nextStep c) (weight c) (tagOrigin c).
Definition set_previous (p : ParticleState) (c : Candidate) : Candidate :=
  mkCandidate (current c) p (created c) (secondaries c) (redshift c)
              (currentStep c) (nextStep c) (weight c) (tagOrigin c).
Definition set_created (p : ParticleState) (c : Candidate) : Candidate :=
  mkCandidate (current c) (previous c) p (secondaries c) (redshift c)
              (currentStep c) (nextStep c) (weight c) (tagOrigin c).
Definition set_secondaries (l : list Candidate) (c : Candidate) : Candidate :=
  mkCandidate (current c) (previous c) (created c) l (redshift c)
              (currentStep c) (nextStep c) (weight c) (tagOrigin c).
Definition setCurrentStep (s : R) (c : Candidate) : Candidate :=
  mkCandidate (current c) (previous c) (created c) (secondaries c)
              (redshift c) s (nextStep c) (weight c) (tagOrigin c).
Definition setNextStep (s : R) (c : Candidate) : Candidate :=
  mkCandidate (current c) (previous c) (created c) (secondaries c)
              (redshift c) (currentStep c) s (weight c) (tagOrigin c).

Definition getRedshift (c : Candidate) : R := redshift c.
Definition getCurrentStep (c : Candidate) : R := currentStep c.
Definition getNextStep (c : Candidate) : R := nextStep c.

(** Modelled from the spec: Candidate.cpp is not under src/.  The step
    limiting contract "nextStep <= limitFraction x lossLength":
    [nextStep = std::min(nextStep, step)]. *)
Definition limitNextStep (s : R) (c : Candidate) : Candidate :=
  setNextStep (Rmin (nextStep c) s) c.

(** Modelled from the spec: Candidate.cpp is not under src/.  "Every
    secondary carries: id, energy, a position [...], weight 1, and an
    interaction-tag string naming the producing process"; it is appended
    to the ordered sequence of owned secondaries. *)
Definition addSecondary (id : Z) (energy : R) (pos : Vector3d) (w : R)
           (tag : string) (c : Candidate) : Candidate :=
  let st := mkParticleState id energy pos (ps_direction (current c)) in
  let sec := mkCandidate st (previous c) st [] (redshift c) 0 0
                         (weight c * w) tag in
  set_secondaries (secondaries c ++ [sec]) c.

End CandidateOps.

Module RandomOps.

(** Modelled from the spec: Random.cpp is not under src/.
    [Random::rand], "uniform draws": the next draw, and the tape behind
    it. *)
Definition rand (g : Random) : R * Random := (g O, fun n => g (S n)).

(** Modelled from the spec: Random.cpp is not under src/.  "a position
    linearly interpolated (with a uniform random fraction) between the
    candidate's previous and current positions". *)
Definition randomInterpolatedPosition (a b : Vector3d) (g : Random)
  : Vector3d * Random :=
  let '(u, g1) := rand g in
  (Vector3.add a (Vector3.scale (Vector3.sub b a) u), g1).

(** First index whose entry is not below [x] ([std::lower_bound] on a
    sorted vector). *)
Fixpoint lower_bound (x : R) (cdf : list R) : nat :=
  match cdf with
  | [] => O
  | a :: t => if Rlt_dec a x then S (lower_bound x t) else O
  end.

(** Modelled from the spec: Random.cpp is not under src/.  "categorical
    sampling" from an unnormalised cumulative distribution. *)
Definition randBin (cdf : list R) (g : Random) : nat * Random :=
  let '(u, g1) := rand g in
  (lower_bound (u * last cdf 0) cdf, g1).

End RandomOps.

(** ** Photon field (external collaborator, queried through its interface) *)

(** Modelled from the spec: PhotonBackground.h is not under src/.  The
    members of a photon field that the modules query: its name, its
    redshift scaling, its radial scaling and its radial extent. *)
Record PhotonField : Type := mkPhotonField {
  getFieldName : string;
  getRedshiftScaling : R -> R;
  getRadialScaling : R -> R;
  hasScaleRadius : bool;
  getScaleRadius : R;
  getOuterRadius : R
}.

(** ** Table interpolation *)

Module Interp.

Definition front (l : list R) : R := hd 0 l.
Definition back (l : list R) : R := last l 0.
Definition at_ (l : list R) (i : nat) : R := nth i l 0.

(** Number of leading entries that are not above [x]; on a sorted vector
    this is the index found by [std::upper_bound]. *)
Fixpoint upper_bound (x : R) (X : list R) : nat :=
  match X with
  | [] => O
  | a :: t => if Rlt_dec x a then O else S (upper_bound x t)
  end.

(** Modelled from the spec: [interpolate] of Common.cpp is not under
    src/.  "Rate lookup: linear interpolation within the tabulated
    Lorentz-factor domain", on the samples [(X_i, Y_i)]. *)
Definition interpolate (x : R) (X Y : list R) : R :=
  let it := upper_bound x X in
  if Nat.eqb it 0 then front Y
  else if Nat.eqb it (length X) then back Y
  else
    let i := (it - 1)%nat in
    at_ Y i + (x - at_ X i) * (at_ Y (S i) - at_ Y i)
              / (at_ X (S i) - at_ X i).

(** Modelled from the spec: [interpolateEquidistant] of Common.cpp is not
    under src/.  Linear interpolation on samples that are equidistant on
    [[lo, hi]]. *)
Definition interpolateEquidistant (x lo hi : R) (Y : list R) : R :=
  if Rle_dec x lo then front Y
  else if Rge_dec x hi then back Y
  else
    let dx := (hi - lo) / (INR (length Y) - 1) in
    let p := (x - lo) / dx in
    let i := Z.to_nat (Dbl.floor p) in
    at_ Y i + (p - INR i) * (at_ Y (S i) - at_ Y i).

End Interp.

(** ** PhotoDisintegration *)

Module PhotoDisintegration.

Import ParticleID CandidateOps RandomOps.

Definition lgmin : R := 4.
Definition lgmax : R := 14.
Definition nlg : nat := 251.

Record Branch : Type := mkBranch {
  channel : Z;
  branchingRatio : list R
}.

Record PhotonEmission : Type := mkPhotonEmission {
  energy : R;
  emissionProbability : list R
}.

(** The data members of the module. *)
Record t : Type := mkPD {
  photonField : PhotonField;
  pdRate : list (list R);
  pdBranch : list (list Branch);
  pdPhoton : list (Z * list PhotonEmission);
  havePhotons : bool;
  limit : R;
  interactionTag : string
}.

(** [pdPhoton[key]]: the emissions stored under [key], none if absent. *)
Fixpoint lookupPhoton (m : list (Z * list PhotonEmission)) (key : Z)
  : list PhotonEmission :=
  match m with
  | [] => []
  | (k, v) :: rest => if (k =? key)%Z then v else lookupPhoton rest key
  end.

(** A call either returns or leaves by a [std::runtime_error]; both carry
    the candidate and the random tape as they are at that point. *)
Inductive Result : Type :=
| Ok (c : Candidate) (g : Random)
| Raise (c : Candidate) (g : Random).

Definition andThen (r : Result) (f : Candidate -> Random -> Result) : Result :=
  match r with
  | Ok c g => f c g
  | Raise c g => Raise c g
  end.

(** [for (size_t i = 0; i < n; i++) candidate->addSecondary(nucleusId(a, z), e, pos, 1., tag);] *)
Definition addFragments (n a z : Z) (e : R) (pos : Vector3d) (tag : string)
           (r : Result) : Result :=
  Nat.iter (Z.to_nat n)
    (fun r => andThen r (fun c g =>
       match nucleusId a z with
       | Some i => Ok (addSecondary i e pos 1 tag c) g
       | None => Raise c g
       end))
    r.

(** The cumulative-threshold loop of [process]: the value of [i] when
    [while ((i < branches.size()) and (cmp > 0))] is left. *)
Fixpoint selectLoop (ratios : list R) (cmp : R) (i : nat) : nat :=
  match ratios with
  | [] => i
  | r :: rest =>
      if Rgt_dec cmp 0 then selectLoop rest (cmp - r) (S i) else i
  end.

(** The index [i-1] handed to [branches[i-1]]. *)
Definition selectIndex (ratios : list R) (cmp : R) : Z :=
  (Z.of_nat (selectLoop ratios cmp 0) - 1)%Z.

Section WithMasses.

Variable nuclearMass : Z -> R.

Let getLorentzFactor := ParticleStateOps.getLorentzFactor nuclearMass.

(** The photon loop of [performInteraction]. *)
Fixpoint emitPhotons (ems : list PhotonEmission) (l : Z) (lf : R)
         (pos : Vector3d) (tag : string) (c : Candidate) (g : Random)
  : Candidate * Random :=
  match ems with
  | [] => (c, g)
  | em :: rest =>
      let '(u, g1) := rand g in
      if Rgt_dec u (Interp.at_ (emissionProbability em) (Z.to_nat l))
      then emitPhotons rest l lf pos tag c g1
      else
        let '(u2, g2) := rand g1 in
        let cosTheta := 2 * u2 - 1 in
        let E := energy em * lf * (1 - cosTheta) in
        emitPhotons rest l lf pos tag (addSecondary 22 E pos 1 tag c) g2
  end.

Definition performInteraction (pd : t) (candidate : Candidate)
           (channel : Z) (g : Random) : Result :=
  let nNeutron := digit channel 100000 in
  let nProton := digit channel 10000 in
  let nH2 := digit channel 1000 in
  let nH3 := digit channel 100 in
  let nHe3 := digit channel 10 in
  let nHe4 := digit channel 1 in
  let dA := (- nNeutron - nProton - 2 * nH2 - 3 * nH3 - 3 * nHe3
             - 4 * nHe4)%Z in
  let dZ := (- nProton - nH2 - nH3 - 2 * nHe3 - 2 * nHe4)%Z in
  let id := ps_id (current candidate) in
  let A := massNumber id in
  let Z := chargeNumber id in
  let EpA := ps_energy (current candidate) / IZR A in
  let '(pos, g0) :=
    randomInterpolatedPosition (ps_position (previous candidate))
                               (ps_position (current candidate)) g in
  let tag := interactionTag pd in
  let r := Ok candidate g0 in
  let r := addFragments nNeutron 1 0 EpA pos tag r in
  let r := addFragments nProton 1 1 EpA pos tag r in
  let r := addFragments nH2 2 1 (EpA * 2) pos tag r in
  let r := addFragments nH3 3 1 (EpA * 3) pos tag r in
  let r := addFragments nHe3 3 2 (EpA * 3) pos tag r in
  let r := addFragments nHe4 4 2 (EpA * 4) pos tag r in
  andThen r (fun c g1 =>
    let c := set_created (current c) c in
    match nucleusId (A + dA) (Z + dZ) with
    | None => Raise c g1
    | Some newId =>
        let c := set_current (ParticleStateOps.setId newId (current c)) c in
        let c := set_current
                   (ParticleStateOps.setEnergy (EpA * IZR (A + dA))
                                               (current c)) c in
        if negb (havePhotons pd) then Ok c g1
        else
          let z := getRedshift c in
          let lg := Dbl.log10 (getLorentzFactor (current c) * (1 + z)) in
          let lf := getLorentzFactor (current c) in
          let l := Dbl.round ((lg - lgmin) / (lgmax - lgmin)
                              * (INR nlg - 1)) in
          let key := (Z * 1000000 + (A - Z) * 10000 + (Z + dZ) * 100
                      + (A + dA) - (Z + dZ))%Z in
          let '(c', g') :=
            emitPhotons (lookupPhoton (pdPhoton pd) key) l lf pos tag c g1 in
          Ok c' g'
    end).

(** What a call of [process] can end in.  [OutOfFuel] belongs to the
    model only: the do-while loop is unrolled [fuel] times.  [Undefined]
    stands for the read of [branches[i-1]] outside the vector. *)
Inductive Outcome : Type :=
| Returns (c : Candidate) (g : Random)
| Throws (c : Candidate) (g : Random)
| Undefined
| OutOfFuel.

(** The rate of one loop pass, for a nucleus with table index [idx] at
    log10 Lorentz factor [lg]. *)
Definition passRate (pd : t) (candidate : Candidate) (idx : nat) (lg : R) : R :=
  let z := getRedshift candidate in
  let rate := Interp.interpolateEquidistant lg lgmin lgmax
                (nth idx (pdRate pd) []) in
  let rate := rate * (Dbl.pow_integer2 (1 + z)
                      * getRedshiftScaling (photonField pd) z) in
  let field_radial_scaling :=
    getRadialScaling (photonField pd)
      (Vector3.getR (ps_position (current candidate))) in
  rate * field_radial_scaling.

(** The body of the do-while loop of [process], with [step] the
    remaining step. *)
Fixpoint processLoop (pd : t) (fuel : nat) (step : R)
         (candidate : Candidate) (g : Random) : Outcome :=
  match fuel with
  | O => OutOfFuel
  | S fuel' =>
      let id := ps_id (current candidate) in
      if negb (isNucleus id) then Returns candidate g
      else
        let A := massNumber id in
        let Z := chargeNumber id in
        let N := (A - Z)%Z in
        let idx := Z.to_nat (Z * 31 + N) in
        if ((Z >? 26) || (N >? 30))%Z then Returns candidate g
        else if Nat.eqb (length (nth idx (pdRate pd) [])) 0
        then Returns candidate g
        else
          let z := getRedshift candidate in
          let lg := Dbl.log10 (getLorentzFactor (current candidate)
                               * (1 + z)) in
          if Rle_dec lg lgmin then Returns candidate g
          else if Rge_dec lg lgmax then Returns candidate g
          else
            let rate := passRate pd candidate idx lg in
            let '(u, g1) := rand g in
            let randDist := - ln u / rate in
            if Rlt_dec step randDist
            then Returns (limitNextStep (limit pd / rate) candidate) g1
            else
              let branches := nth idx (pdBranch pd) [] in
              let '(cmp, g2) := rand g1 in
              let l := Dbl.round ((lg - lgmin) / (lgmax - lgmin)
                                  * (INR nlg - 1)) in
              let k := selectIndex
                         (map (fun b => Interp.at_ (branchingRatio b)
                                                   (Z.to_nat l)) branches)
                         cmp in
              if (k <? 0)%Z then Undefined
              else
                match nth_error branches (Z.to_nat k) with
                | None => Undefined
                | Some b =>
                    match performInteraction pd candidate (channel b) g2 with
                    | Raise c' g' => Throws c' g'
                    | Ok c' g' =>
                        let step' := step - randDist in
                        if Rgt_dec step' 0
                        then processLoop pd fuel' step' c' g'
                        else Returns c' g'
                    end
                end
  end.

Definition process (pd : t) (fuel : nat) (candidate : Candidate)
           (g : Random) : Outcome :=
  processLoop pd fuel (getCurrentStep candidate) candidate g.

(** [lossLength]: the mean distance over which the nucleus loses its
    nucleons. *)
Definition lossLength (pd : t) (id : Z) (gamma z : R) : R :=
  if negb (isNucleus id) then Dbl.DBL_MAX
  else
    let A := massNumber id in
    let Z := chargeNumber id in
    let N := (A - Z)%Z in
    let idx := Z.to_nat (Z * 31 + N) in
    if ((Z >? 26) || (N >? 30))%Z then Dbl.DBL_MAX
    else
      let rate := nth idx (pdRate pd) [] in
      if Nat.eqb (length rate) 0 then Dbl.DBL_MAX
      else
        let lg := Dbl.log10 (gamma * (1 + z)) in
        if Rle_dec lg lgmin then Dbl.DBL_MAX
        else if Rge_dec lg lgmax then Dbl.DBL_MAX
        else
          let lossRate := Interp.interpolateEquidistant lg lgmin lgmax rate in
          let lossRate := lossRate * (Dbl.pow_integer3 (1 + z)
                            * getRedshiftScaling (photonField pd) z) in
          let avg_dA :=
            fold_left
              (fun acc b =>
                 let ch := channel b in
                 let dA := (0 + 1 * digit ch 100000 + 1 * digit ch 10000
                            + 2 * digit ch 1000 + 3 * digit ch 100
                            + 3 * digit ch 10 + 4 * digit ch 1)%Z in
                 let br := Interp.interpolateEquidistant lg lgmin lgmax
                             (branchingRatio b) in
                 acc + br * IZR dA)
              (nth idx (pdBranch pd) []) 0 in
          let lossRate := lossRate * (avg_dA / IZR A) in
          1 / lossRate.

End WithMasses.

(** *** Loading the tables *)

Definition set_pdRate (tab : list (list R)) (pd : t) : t :=
  mkPD (photonField pd) tab (pdBranch pd) (pdPhoton pd) (havePhotons pd)
       (limit pd) (interactionTag pd).
Definition set_pdBranch (tab : list (list Branch)) (pd : t) : t :=
  mkPD (photonField pd) (pdRate pd) tab (pdPhoton pd) (havePhotons pd)
       (limit pd) (interactionTag pd).
Definition set_pdPhoton (m : list (Z * list PhotonEmission)) (pd : t) : t :=
  mkPD (photonField pd) (pdRate pd) (pdBranch pd) m (havePhotons pd)
       (limit pd) (interactionTag pd).

(** How a loader leaves: with the module updated, by the
    [std::runtime_error] for a file that cannot be opened (the module is
    then as it was), or by a write outside the table, whose behaviour is
    undefined. *)
Inductive Load : Type :=
| Loaded (pd : t)
| CannotOpen (msg : string) (pd : t)
| OutOfBounds.

(** [tab[idx].push_back(...)] for each element of [xs], with the [int]
    index converted to [size_t]; [None] when the index lies outside
    [tab]. *)
Fixpoint pushAtNat {A : Type} (i : nat) (xs : list A) (tab : list (list A))
  : option (list (list A)) :=
  match tab with
  | [] => None
  | row :: rest =>
      match i with
      | O => Some ((row ++ xs) :: rest)
      | S i' => option_map (cons row) (pushAtNat i' xs rest)
      end
  end.

Definition pushAt {A : Type} (idx : Z) (xs : list A) (tab : list (list A))
  : option (list (list A)) :=
  if (idx <? 0)%Z then None else pushAtNat (Z.to_nat idx) xs tab.

(** The [nlg] values that [lineStream >> r] delivers one after the other;
    [r i] is the value of [r] after extraction [i]. *)
Definition samples (r : nat -> R) : list R := map r (seq 0 nlg).

(** A line of the rate file: a comment (first character '#') or a data
    line "Z N r_0 ... r_250".  On any other line the extractions fail
    and leave [Z] and [N] uninitialised; such files are outside the
    model. *)
Inductive RateLine : Type :=
| RateComment
| RateRow (rZ rN : Z) (r : nat -> R).

Fixpoint readRates (lines : list RateLine) (tab : list (list R))
  : option (list (list R)) :=
  match lines with
  | [] => Some tab
  | RateComment :: rest => readRates rest tab
  | RateRow rZ rN r :: rest =>
      match pushAt (rZ * 31 + rN) (map (fun x => x / Units.Mpc) (samples r))
                   tab with
      | Some tab' => readRates rest tab'
      | None => None
      end
  end.

(** [initRate]; [file] is the content of [filename], [None] when the
    stream is not good. *)
Definition initRate (filename : string) (file : option (list RateLine))
           (pd : t) : Load :=
  match file with
  | None =>
      CannotOpen (String.append "PhotoDisintegration: could not open file "
                                filename) pd
  | Some lines =>
      match readRates lines (repeat [] (27 * 31)) with
      | Some tab => Loaded (set_pdRate tab pd)
      | None => OutOfBounds
      end
  end.

(** A line of the branching file: a comment or a data line
    "Z N channel r_0 ... r_250". *)
Inductive BranchLine : Type :=
| BranchComment
| BranchRow (rZ rN : Z) (ch : Z) (r : nat -> R).

Fixpoint readBranches (lines : list BranchLine) (tab : list (list Branch))
  : option (list (list Branch)) :=
  match lines with
  | [] => Some tab
  | BranchComment :: rest => readBranches rest tab
  | BranchRow rZ rN ch r :: rest =>
      let branch := mkBranch ch (samples r) in
      match pushAt (rZ * 31 + rN) [branch] tab with
      | Some tab' => readBranches rest tab'
      | None => None
      end
  end.

Definition initBranching (filename : string) (file : option (list BranchLine))
           (pd : t) : Load :=
  match file with
  | None =>
      CannotOpen (String.append "PhotoDisintegration: could not open file "
                                filename) pd
  | Some lines =>
      match readBranches lines (repeat [] (27 * 31)) with
      | Some tab => Loaded (set_pdBranch tab pd)
      | None => OutOfBounds
      end
  end.

(** A line of the photon emission file: a comment or a data line
    "Z N Zd Nd energy r_0 ... r_250". *)
Inductive PhotonLine : Type :=
| PhotonComment
| PhotonRow (rZ rN rZd rNd : Z) (e : R) (r : nat -> R).

(** [if (pdPhoton.find(key) == pdPhoton.end()) pdPhoton[key] = emissions;
    pdPhoton[key].push_back(em);] *)
Fixpoint pushPhoton (key : Z) (em : PhotonEmission)
         (m : list (Z * list PhotonEmission))
  : list (Z * list PhotonEmission) :=
  match m with
  | [] => [(key, [em])]
  | (k, v) :: rest =>
      if (k =? key)%Z then (k, v ++ [em]) :: rest
      else (k, v) :: pushPhoton key em rest
  end.

Fixpoint readPhotons (lines : list PhotonLine)
         (m : list (Z * list PhotonEmission))
  : list (Z * list PhotonEmission) :=
  match lines with
  | [] => m
  | PhotonComment :: rest => readPhotons rest m
  | PhotonRow rZ rN rZd rNd e r :: rest =>
      let em := mkPhotonEmission (e * Units.eV) (samples r) in
      let key := (rZ * 1000000 + rN * 10000 + rZd * 100 + rNd)%Z in
      readPhotons rest (pushPhoton key em m)
  end.

Definition initPhotonEmission (filename : string)
           (file : option (list PhotonLine)) (pd : t) : Load :=
  match file with
  | None =>
      CannotOpen (String.append "PhotoDisintegration: could not open file "
                                filename) pd
  | Some lines => Loaded (set_pdPhoton (readPhotons lines []) pd)
  end.

Definition setHavePhotons (b : bool) (pd : t) : t :=
  mkPD (photonField pd) (pdRate pd) (pdBranch pd) (pdPhoton pd) b
       (limit pd) (interactionTag pd).

Definition setLimit (x : R) (pd : t) : t :=
  mkPD (photonField pd) (pdRate pd) (pdBranch pd) (pdPhoton pd)
       (havePhotons pd) x (interactionTag pd).

Definition setInteractionTag (tag : string) (pd : t) : t :=
  mkPD (photonField pd) (pdRate pd) (pdBranch pd) (pdPhoton pd)
       (havePhotons pd) (limit pd) tag.

Definition set_photonField (pf : PhotonField) (pd : t) : t :=
  mkPD pf (pdRate pd) (pdBranch pd) (pdPhoton pd) (havePhotons pd)
       (limit pd) (interactionTag pd).

Definition andThenLoad (r : Load) (f : t -> Load) : Load :=
  match r with
  | Loaded pd => f pd
  | CannotOpen msg pd => CannotOpen msg pd
  | OutOfBounds => OutOfBounds
  end.

Section WithData.

(** [getDataPath] (not under src/) and the content of the data files by
    path, [None] for a file that cannot be opened. *)
Variable getDataPath : string -> string.
Variable rateFiles : string -> option (list RateLine).
Variable branchingFiles : string -> option (list BranchLine).
Variable photonFiles : string -> option (list PhotonLine).

Definition ratePath (fname : string) : string :=
  getDataPath (String.append "Photodisintegration/rate_"
                 (String.append fname ".txt")).

Definition branchingPath (fname : string) : string :=
  getDataPath (String.append "Photodisintegration/branching_"
                 (String.append fname ".txt")).

Definition photonPath (fname : string) : string :=
  getDataPath (String.append "Photodisintegration/photon_emission_"
                 (String.append (substring 0 3 fname) ".txt")).

(** [setPhotonField]; the description string of the base class is not
    modelled. *)
Definition setPhotonField (pf : PhotonField) (pd : t) : Load :=
  let pd := set_photonField pf pd in
  let fname := getFieldName pf in
  andThenLoad (initRate (ratePath fname) (rateFiles (ratePath fname)) pd)
    (fun pd =>
  andThenLoad (initBranching (branchingPath fname)
                             (branchingFiles (branchingPath fname)) pd)
    (fun pd =>
  initPhotonEmission (photonPath fname) (photonFiles (photonPath fname)) pd)).

(** The constructor.  [tag0] is the default tag that the header gives
    the member [interactionTag] ("PD" in the repository's test
    "interactionTag"); the tables start empty. *)
Definition construct (tag0 : string) (f : PhotonField) (havePhotons0 : bool)
           (limit0 : R) : Load :=
  let pd := mkPD f [] [] [] false 0 tag0 in
  andThenLoad (setPhotonField f pd) (fun pd =>
  Loaded (setLimit limit0 (setHavePhotons havePhotons0 pd))).

End WithData.

End PhotoDisintegration.

(** ** ElectronPairProduction *)

Module ElectronPairProduction.

Import ParticleID CandidateOps RandomOps.

(** The data members of the module. *)
Record t : Type := mkEPP {
  photonField : PhotonField;
  haveElectrons : bool;
  limit : R;
  tabLorentzFactor : list R;
  tabLossRate : list R;
  tabSpectrum : list (list R);
  interactionTag : string
}.

(** The [double] variables that a function body declares: a stack of
    block scopes, innermost first.  A declaration adds a binding to the
    innermost scope and hides an outer variable of the same name; an
    assignment changes the innermost binding of the name; a read finds
    the innermost binding; leaving a block drops its scope. *)
Definition Scope : Type := list (string * R).
Definition Locals : Type := list Scope.

Fixpoint find (x : string) (s : Scope) : option R :=
  match s with
  | [] => None
  | (y, v) :: rest => if String.eqb x y then Some v else find x rest
  end.

Fixpoint lookup (x : string) (l : Locals) : R :=
  match l with
  | [] => 0
  | s :: outer =>
      match find x s with
      | Some v => v
      | None => lookup x outer
      end
  end.

Definition declare (x : string) (v : R) (l : Locals) : Locals :=
  match l with
  | [] => [[(x, v)]]
  | s :: outer => ((x, v) :: s) :: outer
  end.

Fixpoint update (x : string) (v : R) (s : Scope) : Scope :=
  match s with
  | [] => []
  | (y, w) :: rest =>
      if String.eqb x y then (y, v) :: rest else (y, w) :: update x v rest
  end.

Fixpoint assign (x : string) (v : R) (l : Locals) : Locals :=
  match l with
  | [] => []
  | s :: outer =>
      match find x s with
      | Some _ => update x v s :: outer
      | None => s :: assign x v outer
      end
  end.

Definition enter (l : Locals) : Locals := [] :: l.
Definition leave (l : Locals) : Locals := tl l.

Section WithMasses.

Variable nuclearMass : Z -> R.

Let getLorentzFactor := ParticleStateOps.getLorentzFactor nuclearMass.
Let setLorentzFactor := ParticleStateOps.setLorentzFactor nuclearMass.

Definition lossLength (epp : t) (id : Z) (lf z : R) : R :=
  let Z := IZR (chargeNumber id) in
  if Req_dec_T Z 0 then Dbl.DBL_MAX
  else
    let lf := lf * (1 + z) in
    if Rlt_dec lf (Interp.front (tabLorentzFactor epp)) then Dbl.DBL_MAX
    else
      let rate :=
        if Rlt_dec lf (Interp.back (tabLorentzFactor epp))
        then Interp.interpolate lf (tabLorentzFactor epp) (tabLossRate epp)
        else Interp.back (tabLossRate epp)
             * Dbl.pow (lf / Interp.back (tabLorentzFactor epp)) (- 0.6) in
      let A := nuclearMass id / Units.mass_proton in
      let rate := rate * (Z * Z / A * Dbl.pow_integer3 (1 + z)
                          * getRedshiftScaling (photonField epp) z) in
      1 / rate.

(** The block "radial dependence of the photon field" of [process],
    run on the local variables in scope.  The block opens a scope of its
    own; each [double x = e;] of the source is a declaration in that
    scope, each [x = e;] and [x *= e;] an assignment; the closing brace
    drops the scope.  The [Vector3d pos] of the block is only read. *)
Definition radialBlock (epp : t) (c : Candidate) (locals : Locals) : Locals :=
  let l := enter locals in
  let l := declare "scaleRadius" (getScaleRadius (photonField epp)) l in
  let l := declare "outerRadius" (getOuterRadius (photonField epp)) l in
  let pos := ps_position (current c) in
  let l := declare "R" (lookup "scaleRadius" l) l in
  let l := declare "theta" 0 l in
  let l := declare "divisor"
             (sqrt (lookup "R" l ^ 4
                    + 2 * (lookup "R" l * lookup "outerRadius" l) ^ 2
                      * cos (2 * lookup "theta" l)
                    + lookup "outerRadius" l ^ 4)) l in
  let l := declare "dividend"
             (2 * atan (tan (- Dbl.M_PI / 2)
                        * (lookup "R" l ^ 2
                           + 2 * lookup "R" l * lookup "outerRadius" l
                             * sin (lookup "theta" l)
                           + lookup "outerRadius" l ^ 2)
                        / lookup "divisor" l)) l in
  let l := declare "pos_scale"
             (- lookup "divisor" l / lookup "dividend" l) l in
  let l := assign "R" (Vector3.getR pos) l in
  let l := assign "theta" (Vector3.getTheta pos) l in
  let l := assign "divisor"
             (sqrt (lookup "R" l ^ 4
                    + 2 * (lookup "R" l * lookup "outerRadius" l) ^ 2
                      * cos (2 * lookup "theta" l)
                    + lookup "outerRadius" l ^ 4)) l in
  let l := assign "dividend"
             (2 * atan (tan (- Dbl.M_PI / 2)
                        * (lookup "R" l ^ 2
                           + 2 * lookup "R" l * lookup "outerRadius" l
                             * sin (lookup "theta" l)
                           + lookup "outerRadius" l ^ 2)
                        / lookup "divisor" l)) l in
  let l := assign "pos_scale"
             (lookup "pos_scale" l
              * (- lookup "dividend" l / lookup "divisor" l)) l in
  leave l.

(** The loop "draw pairs as long as their energy is smaller than the
    pair production energy loss"; [None] when the model's fuel runs
    out. *)
Fixpoint pairLoop (epp : t) (fuel : nat) (dE : R) (i : nat)
         (c : Candidate) (g : Random) : option (Candidate * Random) :=
  if Rgt_dec dE 0 then
    match fuel with
    | O => None
    | S fuel' =>
        let '(j, g1) := randBin (nth i (tabSpectrum epp) []) g in
        let '(u, g2) := rand g1 in
        let Ee := Dbl.pow 10 (6.95 + (INR j + u) * 0.1) * Units.eV in
        let Epair := 2 * Ee in
        let continue (g3 : Random) :=
          let dE := dE - Epair in
          let '(pos, g4) :=
            randomInterpolatedPosition (ps_position (previous c))
                                       (ps_position (current c)) g3 in
          let c := addSecondary 11 Ee pos 1 (interactionTag epp) c in
          let c := addSecondary (-11) Ee pos 1 (interactionTag epp) c in
          pairLoop epp fuel' dE i c g4 in
        if Rgt_dec Epair dE then
          let '(u', g3) := rand g2 in
          if Rgt_dec u' (dE / Epair) then Some (c, g3) else continue g3
        else continue g2
    end
  else Some (c, g).

(** [process].  The variable [pos_scale] is kept in [Locals], since the
    radial block that follows its declaration has a variable of the same
    name; the other locals of the function body are written once and are
    plain [let]s. *)
Definition process (epp : t) (fuel : nat) (c : Candidate) (g : Random)
  : option (Candidate * Random) :=
  let id := ps_id (current c) in
  if negb (isNucleus id) then Some (c, g)
  else
    let locals := declare "pos_scale" 1 [[]] in
    let locals :=
      if hasScaleRadius (photonField epp)
      then radialBlock epp c locals else locals in
    let lf := getLorentzFactor (current c) in
    let z := getRedshift c in
    let losslen := lossLength epp id lf z in
    let losslen := losslen / lookup "pos_scale" locals in
    if Rge_dec losslen Dbl.DBL_MAX then Some (c, g)
    else
      let step := getCurrentStep c / (1 + z) in
      let loss := step / losslen in
      let finish (cg : Candidate * Random) :=
        let '(c, g) := cg in
        let c := set_current (setLorentzFactor (lf * (1 - loss)) (current c))
                             c in
        (limitNextStep (limit epp * losslen) c, g) in
      if haveElectrons epp then
        let dE := ps_energy (current c) * loss in
        let i := Dbl.round ((Dbl.log10 lf - 6.05) * 10) in
        let i := Z.min (Z.max i 0) 69 in
        option_map finish (pairLoop epp fuel dE (Z.to_nat i) c g)
      else Some (finish (c, g)).

(** [process] with the block "radial dependence of the photon field"
    struck out: the function the block is compared with.  Without the
    block there is one scope, and [pos_scale] is an ordinary local. *)
Definition process_without_radial_block (epp : t) (fuel : nat)
           (c : Candidate) (g : Random) : option (Candidate * Random) :=
  let id := ps_id (current c) in
  if negb (isNucleus id) then Some (c, g)
  else
    let pos_scale := 1 in
    let lf := getLorentzFactor (current c) in
    let z := getRedshift c in
    let losslen := lossLength epp id lf z in
    let losslen := losslen / pos_scale in
    if Rge_dec losslen Dbl.DBL_MAX then Some (c, g)
    else
      let step := getCurrentStep c / (1 + z) in
      let loss := step / losslen in
      let finish (cg : Candidate * Random) :=
        let '(c, g) := cg in
        let c := set_current (setLorentzFactor (lf * (1 - loss)) (current c))
                             c in
        (limitNextStep (limit epp * losslen) c, g) in
      if haveElectrons epp then
        let dE := ps_energy (current c) * loss in
        let i := Dbl.round ((Dbl.log10 lf - 6.05) * 10) in
        let i := Z.min (Z.max i 0) 69 in
        option_map finish (pairLoop epp fuel dE (Z.to_nat i) c g)
      else Some (finish (c, g)).

End WithMasses.

(** *** Loading the tables *)

Definition set_tabRate (X Y : list R) (epp : t) : t :=
  mkEPP (photonField epp) (haveElectrons epp) (limit epp) X Y
        (tabSpectrum epp) (interactionTag epp).
Definition set_tabSpectrum (tab : list (list R)) (epp : t) : t :=
  mkEPP (photonField epp) (haveElectrons epp) (limit epp)
        (tabLorentzFactor epp) (tabLossRate epp) tab (interactionTag epp).
Definition set_photonField (pf : PhotonField) (epp : t) : t :=
  mkEPP pf (haveElectrons epp) (limit epp) (tabLorentzFactor epp)
        (tabLossRate epp) (tabSpectrum epp) (interactionTag epp).
Definition set_haveElectrons (b : bool) (epp : t) : t :=
  mkEPP (photonField epp) b (limit epp) (tabLorentzFactor epp)
        (tabLossRate epp) (tabSpectrum epp) (interactionTag epp).

Definition setLimit (x : R) (epp : t) : t :=
  mkEPP (photonField epp) (haveElectrons epp) x (tabLorentzFactor epp)
        (tabLossRate epp) (tabSpectrum epp) (interactionTag epp).

Definition setInteractionTag (tag : string) (epp : t) : t :=
  mkEPP (photonField epp) (haveElectrons epp) (limit epp)
        (tabLorentzFactor epp) (tabLossRate epp) (tabSpectrum epp) tag.

(** How a loader or a setter that loads leaves: with the module
    updated, or by the [std::runtime_error] for a file that cannot be
    opened, with the module as it is at that point. *)
Inductive Load : Type :=
| Loaded (epp : t)
| CannotOpen (msg : string) (epp : t).

(** What the loop of [initRate] meets at the start of a line: a comment
    ([peek() == '#']), two numbers that [infile >> a >> b] extracts, or
    text on which the extraction fails. *)
Inductive RateLine : Type :=
| RateComment
| RatePair (a b : R)
| RateUnreadable.

(** The loop [while (infile.good())].  A failed extraction pushes
    nothing and sets the fail bit, so the stream is no longer good and
    the loop is left. *)
Fixpoint readRate (lines : list RateLine) (X Y : list R) : list R * list R :=
  match lines with
  | [] => (X, Y)
  | RateComment :: rest => readRate rest X Y
  | RatePair a b :: rest =>
      readRate rest (X ++ [Dbl.pow 10 a]) (Y ++ [b / Units.Mpc])
  | RateUnreadable :: _ => (X, Y)
  end.

(** [initRate]; [file] is the content of [filename], [None] when the
    stream is not good. *)
Definition initRate (filename : string) (file : option (list RateLine))
           (epp : t) : Load :=
  match file with
  | None =>
      CannotOpen (String.append "ElectronPairProduction: could not open file "
                                filename) epp
  | Some lines =>
      let '(X, Y) := readRate lines [] [] in
      Loaded (set_tabRate X Y epp)
  end.

(** The second inner loop of [initSpectrum],
    [tabSpectrum[i][j] += tabSpectrum[i][j - 1]] for j = 1..169, on the
    entries after the first, [prev] being the entry before them. *)
Fixpoint accumulate (prev : R) (row : list R) : list R :=
  match row with
  | [] => []
  | x :: rest => (x + prev) :: accumulate (x + prev) rest
  end.

Definition cumulative (row : list R) : list R :=
  match row with
  | [] => []
  | x :: rest => x :: accumulate x rest
  end.

(** Row [i] of the spectrum; [v k] is the value of [dNdE] after
    extraction [k] of [infile >> dNdE]. *)
Definition spectrumRow (v : nat -> R) (i : nat) : list R :=
  cumulative
    (map (fun j => v (i * 170 + j)%nat * Dbl.pow 10 (7 + 0.1 * INR j))
         (seq 0 170)).

Definition initSpectrum (filename : string) (file : option (nat -> R))
           (epp : t) : Load :=
  match file with
  | None =>
      CannotOpen (String.append "ElectronPairProduction: could not open file "
                                filename) epp
  | Some v => Loaded (set_tabSpectrum (map (spectrumRow v) (seq 0 70)) epp)
  end.

Section WithData.

(** [getDataPath] (not under src/) and the content of the data files by
    path, [None] for a file that cannot be opened. *)
Variable getDataPath : string -> string.
Variable rateFiles : string -> option (list RateLine).
Variable spectrumFiles : string -> option (nat -> R).

Definition ratePath (fname : string) : string :=
  getDataPath (String.append "ElectronPairProduction/lossrate_"
                 (String.append fname ".txt")).

Definition spectrumPath (fname : string) : string :=
  getDataPath (String.append "ElectronPairProduction/spectrum_"
                 (String.append (substring 0 3 fname) ".txt")).

(** [setPhotonField]; the description string of the base class is not
    modelled. *)
Definition setPhotonField (pf : PhotonField) (epp : t) : Load :=
  let epp := set_photonField pf epp in
  let fname := getFieldName pf in
  match initRate (ratePath fname) (rateFiles (ratePath fname)) epp with
  | CannotOpen msg epp => CannotOpen msg epp
  | Loaded epp =>
      if haveElectrons epp
      then initSpectrum (spectrumPath fname)
                        (spectrumFiles (spectrumPath fname)) epp
      else Loaded epp
  end.

Definition setHaveElectrons (b : bool) (epp : t) : Load :=
  let epp := set_haveElectrons b epp in
  if b then
    let fname := getFieldName (photonField epp) in
    initSpectrum (spectrumPath fname) (spectrumFiles (spectrumPath fname)) epp
  else Loaded epp.

(** The constructor.  [tag0] is the default tag that the header gives
    the member [interactionTag] ("EPP" in the repository's test
    "interactionTag"); the tables start empty. *)
Definition construct (tag0 : string) (pf : PhotonField)
           (haveElectrons0 : bool) (limit0 : R) : Load :=
  let epp := mkEPP pf false 0 [] [] [] tag0 in
  let epp := set_haveElectrons haveElectrons0 epp in
  let epp := setLimit limit0 epp in
  setPhotonField pf epp.

End WithData.

End ElectronPairProduction.

(** ** PropagationBP *)

Module PropagationBP.

Import CandidateOps.

(** Phase point: position and direction. *)
Record Y : Type := mkY { y_x : Vector3d; y_u : Vector3d }.

(** The data members of the integrator.  A magnetic-field handle may be
    null ([None]); the advection-field handle is dereferenced without a
    test by the source and is taken to be set. *)
Record t : Type := mkBP {
  field : option (Vector3d -> R -> Vector3d);
  advField : Vector3d -> Vector3d;
  tolerance : R;
  minStep : R;
  maxStep : R;
  shockRadius : R
}.

(** A setter either stores the value or leaves by a
    [std::runtime_error] carrying the message. *)
Inductive SetResult : Type :=
| Stored (bp : t)
| ConfigError (msg : string).

Definition set_tolerance (x : R) (bp : t) : t :=
  mkBP (field bp) (advField bp) x (minStep bp) (maxStep bp) (shockRadius bp).
Definition set_minStep (x : R) (bp : t) : t :=
  mkBP (field bp) (advField bp) (tolerance bp) x (maxStep bp) (shockRadius bp).
Definition set_maxStep (x : R) (bp : t) : t :=
  mkBP (field bp) (advField bp) (tolerance bp) (minStep bp) x (shockRadius bp).

Definition setTolerance (tol : R) (bp : t) : SetResult :=
  if Rgt_dec tol 1 then ConfigError "PropagationBP: target error not in range 0-1"
  else if Rlt_dec tol 0 then ConfigError "PropagationBP: target error not in range 0-1"
  else Stored (set_tolerance tol bp).

Definition setMinimumStep (min : R) (bp : t) : SetResult :=
  if Rlt_dec min 0 then ConfigError "PropagationBP: minStep < 0 "
  else if Rgt_dec min (maxStep bp) then ConfigError "PropagationBP: minStep > maxStep"
  else Stored (set_minStep min bp).

Definition setMaximumStep (max : R) (bp : t) : SetResult :=
  if Rlt_dec max (minStep bp) then ConfigError "PropagationBP: maxStep < minStep"
  else Stored (set_maxStep max bp).

Definition setShockRadius (radius : R) (bp : t) : t :=
  mkBP (field bp) (advField bp) (tolerance bp) (minStep bp) (maxStep bp) radius.

Definition andThenSet (r : SetResult) (f : t -> SetResult) : SetResult :=
  match r with
  | Stored bp => f bp
  | ConfigError msg => ConfigError msg
  end.

(** The constructor "with adaptive step size".  It starts from
    [minStep(0)]; [tolerance] and [maxStep] are written before they are
    read, so their initial values (0 here) do not matter. *)
Definition construct (f : option (Vector3d -> R -> Vector3d))
           (advF : Vector3d -> Vector3d) (tol min max radius : R)
  : SetResult :=
  let bp := mkBP f advF 0 0 0 0 in
  andThenSet (setTolerance tol bp) (fun bp =>
  andThenSet (setMaximumStep max bp) (fun bp =>
  andThenSet (setMinimumStep min bp) (fun bp =>
  Stored (setShockRadius radius bp)))).

(** The constructor "with a fixed step size". *)
Definition constructFixed (f : option (Vector3d -> R -> Vector3d))
           (advF : Vector3d -> Vector3d) (fixedStep radius : R)
  : SetResult :=
  let bp := mkBP f advF 0 0 0 0 in
  andThenSet (setTolerance 0.42 bp) (fun bp =>
  andThenSet (setMaximumStep fixedStep bp) (fun bp =>
  andThenSet (setMinimumStep fixedStep bp) (fun bp =>
  Stored (setShockRadius radius bp)))).

Definition getFieldAtPosition (bp : t) (pos : Vector3d) (z : R) : Vector3d :=
  let B := Vector3.zero in
  let B := match field bp with
           | Some f => f pos z
           | None => B
           end in
  let R := Vector3.getR pos in
  if Rgt_dec (shockRadius bp) R
  then Vector3.scale B ((shockRadius bp / R) / sqrt 11)
  else B.

Definition getAdvFieldAtPosition (bp : t) (pos : Vector3d) : Vector3d :=
  let vWind := Vector3.zero in
  match field bp with
  | Some _ => advField bp pos
  | None => vWind
  end.

Definition errorEstimation (x1 x2 : Vector3d) (step : R) : R :=
  let diff := Vector3.sub x1 x2 in
  Vector3.getR diff / (step * (1 - 1 / 4)).

Definition dY (bp : t) (pos dir : Vector3d) (step z q m : R) : Y :=
  let vWind := getAdvFieldAtPosition bp pos in
  let dir_tot :=
    Vector3.add dir (Vector3.scale (Vector3.getUnitVector vWind)
                                   (Vector3.getR vWind / Units.c_light)) in
  let dir_tot := Vector3.getUnitVector dir_tot in
  let pos := Vector3.add pos (Vector3.divide (Vector3.scale dir_tot step) 2) in
  let B := getFieldAtPosition bp pos z in
  let t := Vector3.divide
             (Vector3.scale
                (Vector3.divide (Vector3.divide (Vector3.scale B q) 2) m)
                step)
             Units.c_light in
  let s := Vector3.divide (Vector3.scale t 2) (1 + Vector3.dot t t) in
  let v_help := Vector3.add dir (Vector3.cross dir t) in
  let dir := Vector3.add dir (Vector3.cross v_help s) in
  let dir_tot :=
    Vector3.add dir (Vector3.scale (Vector3.getUnitVector vWind)
                                   (Vector3.getR vWind / Units.c_light)) in
  let dir_tot := Vector3.getUnitVector dir_tot in
  let pos := Vector3.add pos (Vector3.divide (Vector3.scale dir_tot step) 2) in
  mkY pos dir.

Section WithHeader.

(** The charge of a species by id (ParticleState.cpp), and the
    conversion [Y(double)] declared in PropagationBP.h, through which
    [tryStep] stores the scalar error estimate in a phase point. *)
Variable particleCharge : Z -> R.
Variable Y_of_double : R -> Y.

(** [tryStep]: the phase point after one step of [h], and the error
    estimate against two steps of [h/2]. *)
Definition tryStep (bp : t) (y : Y) (h z q m : R) : Y * Y :=
  let out := dY bp (y_x y) (y_u y) h z q m in
  let outHelp := dY bp (y_x y) (y_u y) (h / 2) z q m in
  let outCompare := dY bp (y_x outHelp) (y_u outHelp) (h / 2) z q m in
  let error := Y_of_double (errorEstimation (y_x out) (y_x outCompare) h) in
  (out, error).

(** The [while (true)] loop of [process]: the accepted phase point with
    the values of [step] and [newStep] when the loop is left; [None]
    when the model's fuel runs out. *)
Fixpoint adaptLoop (bp : t) (fuel : nat) (yIn : Y) (z q m : R)
         (step newStep : R) : option (Y * R * R) :=
  match fuel with
  | O => None
  | S fuel' =>
      let '(yOut, yErr) := tryStep bp yIn step z q m in
      let r := Vector3.getR (y_u yErr) / tolerance bp in
      if Rgt_dec r 1 then
        if Req_dec_T step (minStep bp) then Some (yOut, step, newStep)
        else
          let newStep := step * 0.95 * Dbl.pow r (- 0.2) in
          let newStep := Rmax newStep (0.1 * step) in
          let newStep := Rmax newStep (minStep bp) in
          let step := newStep in
          adaptLoop bp fuel' yIn z q m step newStep
      else
        if Req_dec_T step (maxStep bp) then Some (yOut, step, newStep)
        else
          let newStep := step * 0.95 * Dbl.pow r (- 0.2) in
          let newStep := Rmin newStep (5 * step) in
          let newStep := Rmin newStep (maxStep bp) in
          Some (yOut, step, newStep)
  end.

Definition process (bp : t) (fuel : nat) (candidate : Candidate)
  : option Candidate :=
  let current0 := current candidate in
  let candidate := set_previous current0 candidate in
  let yIn := mkY (ps_position current0) (ps_direction current0) in
  let q := ParticleStateOps.getCharge particleCharge current0 in
  let step := maxStep bp in
  if Req_dec_T q 0 then
    let step := Dbl.clip (getNextStep candidate) (minStep bp) (maxStep bp) in
    let candidate :=
      set_current
        (ParticleStateOps.setPosition
           (Vector3.add (y_x yIn) (Vector3.scale (y_u yIn) step))
           (current candidate)) candidate in
    let candidate := setCurrentStep step candidate in
    Some (setNextStep (maxStep bp) candidate)
  else
    let newStep := step in
    let z := getRedshift candidate in
    let m := ps_energy current0 / (Units.c_light * Units.c_light) in
    let finish (r : Y * R * R) :=
      let '(yOut, step, newStep) := r in
      let candidate :=
        set_current (ParticleStateOps.setPosition (y_x yOut)
                       (current candidate)) candidate in
      let candidate :=
        set_current (ParticleStateOps.setDirection
                       (Vector3.getUnitVector (y_u yOut))
                       (current candidate)) candidate in
      let candidate := setCurrentStep step candidate in
      setNextStep newStep candidate in
    if Req_dec_T (minStep bp) (maxStep bp) then
      Some (finish (dY bp (y_x yIn) (y_u yIn) step z q m, step, newStep))
    else
      let step := Dbl.clip (getNextStep candidate) (minStep bp) (maxStep bp) in
      let newStep := step in
      option_map finish (adaptLoop bp fuel yIn z q m step newStep).

End WithHeader.
End PropagationBP.

(** * Sample configurations and candidates

    Concrete inputs on which the properties below are run. *)

(** An integrator without magnetic field: tolerance 0.5, steps in
    [[1, 10]]. *)
Definition bp_plain : PropagationBP.t :=
  PropagationBP.mkBP None (fun _ => Vector3.zero) 0.5 1 10 0.

Definition origin : Vector3d := mkVector3d 0 0 0.
Definition e_x : Vector3d := mkVector3d 1 0 0.

(** A photon (id 22) of energy 2 at the origin, heading along x; its
    [previous] snapshot still holds energy 1. *)
Definition photon_candidate : Candidate :=
  mkCandidate (mkParticleState 22 2 origin e_x)
              (mkParticleState 22 1 origin e_x)
              (mkParticleState 22 2 origin e_x)
              [] 0 0 5 1 EmptyString.

(** Charges in units where only nuclei carry charge. *)
Definition charge_of_nuclei (id : Z) : R :=
  if ParticleID.isNucleus id then IZR (ParticleID.chargeNumber id) else 0.

(** The conversion [Y(double f)]: both vectors set to [(f, f, f)]. *)
Definition Y_broadcast (f : R) : PropagationBP.Y :=
  PropagationBP.mkY (mkVector3d f f f) (mkVector3d f f f).

(** Totals over a list of secondaries. *)
Definition sumA (l : list Candidate) : Z :=
  fold_right (fun s acc => (ParticleID.massNumber (ps_id (current s)) + acc)%Z)
             0%Z l.
Definition sumZ (l : list Candidate) : Z :=
  fold_right (fun s acc => (ParticleID.chargeNumber (ps_id (current s)) + acc)%Z)
             0%Z l.
Definition sumE (l : list Candidate) : R :=
  fold_right (fun s acc => ps_energy (current s) + acc) 0 l.

(** The mass number and charge left after a channel. *)
Definition channel_dA (ch : Z) : Z :=
  (- ParticleID.digit ch 100000 - ParticleID.digit ch 10000
   - 2 * ParticleID.digit ch 1000 - 3 * ParticleID.digit ch 100
   - 3 * ParticleID.digit ch 10 - 4 * ParticleID.digit ch 1)%Z.
Definition channel_dZ (ch : Z) : Z :=
  (- ParticleID.digit ch 10000 - ParticleID.digit ch 1000
   - ParticleID.digit ch 100 - 2 * ParticleID.digit ch 10
   - 2 * ParticleID.digit ch 1)%Z.

(** The residual nuclide of [c] under channel [ch] exists. *)
Definition residual_valid (c : Candidate) (ch : Z) : Prop :=
  let A := ParticleID.massNumber (ps_id (current c)) in
  let Z := ParticleID.chargeNumber (ps_id (current c)) in
  (0 <= Z + channel_dZ ch <= A + channel_dA ch)%Z
  /\ (1 <= A + channel_dA ch)%Z.

(** The primary after a channel, with the fragments [frags] attached:
    what [performInteraction] has built when it reaches the test of
    [havePhotons]. *)
Definition residual (c : Candidate) (ch newId : Z) (frags : list Candidate)
  : Candidate :=
  let A := ParticleID.massNumber (ps_id (current c)) in
  mkCandidate
    (mkParticleState newId
       (ps_energy (current c) / IZR A * IZR (A + channel_dA ch))
       (ps_position (current c)) (ps_direction (current c)))
    (previous c) (current c) (secondaries c ++ frags) (redshift c)
    (currentStep c) (nextStep c) (weight c) (tagOrigin c).

(** Key and Lorentz-factor bin under which the photon lines are looked
    up. *)
Definition photonKey (c : Candidate) (ch : Z) : Z :=
  let A := ParticleID.massNumber (ps_id (current c)) in
  let Z := ParticleID.chargeNumber (ps_id (current c)) in
  (Z * 1000000 + (A - Z) * 10000 + (Z + channel_dZ ch) * 100
   + (A + channel_dA ch) - (Z + channel_dZ ch))%Z.

Definition photonBin (nuclearMass : Z -> R) (c : Candidate) : Z :=
  Dbl.round
    ((Dbl.log10 (ParticleStateOps.getLorentzFactor nuclearMass (current c)
                 * (1 + redshift c))
      - PhotoDisintegration.lgmin)
     / (PhotoDisintegration.lgmax - PhotoDisintegration.lgmin)
     * (INR PhotoDisintegration.nlg - 1)).

(** The interpolated position drawn at the start of the event. *)
Definition eventPosition (c : Candidate) (g : Random) : Vector3d :=
  fst (RandomOps.randomInterpolatedPosition (ps_position (previous c))
                                            (ps_position (current c)) g).

(** Masses A x m_p (binding energies neglected). *)
Definition sample_mass (id : Z) : R :=
  IZR (ParticleID.massNumber id) * Units.mass_proton.

(** A photon field without redshift evolution or radial structure. *)
Definition flat_field : PhotonField :=
  mkPhotonField "CMB" (fun _ => 1) (fun _ => 1) false 0 0.

(** Every draw is 1/2. *)
Definition tape_half : Random := fun _ => / 2.

(** A He-4 nucleus with Lorentz factor 10^9 at the origin, at redshift 0,
    with a current step of 10 and a next step of 10^6. *)
Definition helium4 : Candidate :=
  let st := mkParticleState 1000020040
              (4 * 10 ^ 9 * (Units.mass_proton * Units.c_squared))
              origin e_x in
  mkCandidate st st st [] 0 10 1000000 1 EmptyString.

(** One gamma line of 1 MeV for the transition He-4 -> He-3, emitted
    with probability 1 in every Lorentz-factor bin. *)
Definition gamma_line : PhotoDisintegration.PhotonEmission :=
  PhotoDisintegration.mkPhotonEmission (1000000 * Units.eV) (repeat 1 251).

(** A disintegration module with photon emission switched on. *)
Definition pd_lines : PhotoDisintegration.t :=
  PhotoDisintegration.mkPD flat_field [] [] [(2020201%Z, [gamma_line])]
                           true 0.1 "PD".

(** The same module with photon emission switched off. *)
Definition pd_quiet : PhotoDisintegration.t :=
  PhotoDisintegration.mkPD flat_field [] [] [(2020201%Z, [gamma_line])]
                           false 0.1 "PD".

(** Quantities of the continuous-loss module, per candidate. *)
Definition epp_lossLength (nuclearMass : Z -> R) (epp : ElectronPairProduction.t)
           (c : Candidate) : R :=
  ElectronPairProduction.lossLength nuclearMass epp (ps_id (current c))
    (ParticleStateOps.getLorentzFactor nuclearMass (current c)) (redshift c).

Definition epp_loss (nuclearMass : Z -> R) (epp : ElectronPairProduction.t)
           (c : Candidate) : R :=
  currentStep c / (1 + redshift c) / epp_lossLength nuclearMass epp c.

Definition epp_scaling (nuclearMass : Z -> R) (epp : ElectronPairProduction.t)
           (id : Z) (z : R) : R :=
  IZR (ParticleID.chargeNumber id) * IZR (ParticleID.chargeNumber id)
  / (nuclearMass id / Units.mass_proton) * Dbl.pow_integer3 (1 + z)
  * getRedshiftScaling (ElectronPairProduction.photonField epp) z.

Definition pair_quantum : R := 2 * (Dbl.pow 10 6.95 * Units.eV).

Definition draws_nonneg (g : Random) : Prop := forall n, 0 <= g n.

(** Quantities of the discrete-event module, per candidate. *)
Definition pd_index (c : Candidate) : nat :=
  let id := ps_id (current c) in
  Z.to_nat (ParticleID.chargeNumber id * 31
            + (ParticleID.massNumber id - ParticleID.chargeNumber id)).

Definition pd_lg (nuclearMass : Z -> R) (c : Candidate) : R :=
  Dbl.log10 (ParticleStateOps.getLorentzFactor nuclearMass (current c)
             * (1 + redshift c)).

(** The guards of [PhotoDisintegration::process] all pass. *)
Definition pd_applicable (nuclearMass : Z -> R) (pd : PhotoDisintegration.t)
           (c : Candidate) : Prop :=
  let id := ps_id (current c) in
  ParticleID.isNucleus id = true
  /\ (ParticleID.chargeNumber id <= 26)%Z
  /\ (ParticleID.massNumber id - ParticleID.chargeNumber id <= 30)%Z
  /\ nth (pd_index c) (PhotoDisintegration.pdRate pd) [] <> []
  /\ PhotoDisintegration.lgmin < pd_lg nuclearMass c
     < PhotoDisintegration.lgmax.

(** One of the guards of [PhotoDisintegration::process] fails. *)
Definition pd_inapplicable (nuclearMass : Z -> R) (pd : PhotoDisintegration.t)
           (c : Candidate) : Prop :=
  let id := ps_id (current c) in
  ParticleID.isNucleus id = false
  \/ (26 < ParticleID.chargeNumber id)%Z
  \/ (30 < ParticleID.massNumber id - ParticleID.chargeNumber id)%Z
  \/ nth (pd_index c) (PhotoDisintegration.pdRate pd) [] = []
  \/ pd_lg nuclearMass c <= PhotoDisintegration.lgmin
  \/ PhotoDisintegration.lgmax <= pd_lg nuclearMass c.

Definition pd_rate (nuclearMass : Z -> R) (pd : PhotoDisintegration.t)
           (c : Candidate) : R :=
  PhotoDisintegration.passRate pd c (pd_index c) (pd_lg nuclearMass c).

(** The free path sampled from the first draw of the tape. *)
Definition pd_freePath (nuclearMass : Z -> R) (pd : PhotoDisintegration.t)
           (c : Candidate) (g : Random) : R :=
  - ln (g O) / pd_rate nuclearMass pd c.

(** The branching ratios of the candidate's nuclide at its Lorentz-factor
    bin. *)
Definition pd_ratios (nuclearMass : Z -> R) (pd : PhotoDisintegration.t)
           (c : Candidate) : list R :=
  let l := Dbl.round ((pd_lg nuclearMass c - PhotoDisintegration.lgmin)
                      / (PhotoDisintegration.lgmax - PhotoDisintegration.lgmin)
                      * (INR PhotoDisintegration.nlg - 1)) in
  map (fun b => Interp.at_ (PhotoDisintegration.branchingRatio b) (Z.to_nat l))
      (nth (pd_index c) (PhotoDisintegration.pdBranch pd) []).

(** A pair-production module on a three-point table: Lorentz factors
    10^8, 10^9, 10^10 with loss rate 1 at each, no secondary electrons. *)
Definition epp_sample : ElectronPairProduction.t :=
  ElectronPairProduction.mkEPP flat_field false 0.1
    [100000000; 1000000000; 10000000000] [1; 1; 1] [] "EPP".

(** A proton of Lorentz factor [lf] at the origin, redshift 0, with a
    current step of 10 and a next step of 10^6. *)
Definition proton_at (lf : R) : Candidate :=
  let st := mkParticleState 1000010010
              (lf * (Units.mass_proton * Units.c_squared)) origin e_x in
  mkCandidate st st st [] 0 10 1000000 1 EmptyString.

(** An electron of energy 1 at the origin. *)
Definition electron_candidate : Candidate :=
  let st := mkParticleState 11 1 origin e_x in
  mkCandidate st st st [] 0 10 1000000 1 EmptyString.

(** A disintegration module that tabulates He-4 only (table index
    2*31+2 = 64): rate 1 in each of the 251 bins, and a single channel,
    100000 (one neutron), with branching ratio 1. *)
Definition pd_sample : PhotoDisintegration.t :=
  PhotoDisintegration.mkPD flat_field
    (repeat [] 64 ++ [repeat 1 251])
    (repeat [] 64 ++ [[PhotoDisintegration.mkBranch 100000 (repeat 1 251)]])
    [] false 0.1 "PD".

(** First draw exp(-5), every later draw 1/2. *)
Definition tape_fire : Random :=
  fun n => match n with O => exp (- 5) | S _ => / 2 end.

(** The k-th point of the equidistant log10 Lorentz-factor grid of a
    table with [n] samples. *)
Definition lg_grid (n k : nat) : R :=
  PhotoDisintegration.lgmin
  + INR k * ((PhotoDisintegration.lgmax - PhotoDisintegration.lgmin)
             / (INR n - 1)).

(** One of the guards of [PhotoDisintegration::lossLength] fails. *)
Definition pd_untabulated (pd : PhotoDisintegration.t) (id : Z)
           (gamma z : R) : Prop :=
  ParticleID.isNucleus id = false
  \/ (26 < ParticleID.chargeNumber id)%Z
  \/ (30 < ParticleID.massNumber id - ParticleID.chargeNumber id)%Z
  \/ nth (Z.to_nat (ParticleID.chargeNumber id * 31
                    + (ParticleID.massNumber id - ParticleID.chargeNumber id)))
         (PhotoDisintegration.pdRate pd) [] = []
  \/ Dbl.log10 (gamma * (1 + z)) <= PhotoDisintegration.lgmin
  \/ PhotoDisintegration.lgmax <= Dbl.log10 (gamma * (1 + z)).

(** The step tried after a rejected step [step] with error ratio [r]. *)
Definition shrunk (bp : PropagationBP.t) (step r : R) : R :=
  Rmax (Rmax (step * 0.95 * Dbl.pow r (- 0.2)) (0.1 * step))
       (PropagationBP.minStep bp).

(** The next step suggested after an accepted step [step] with error
    ratio [r]. *)
Definition grown (bp : PropagationBP.t) (step r : R) : R :=
  Rmin (Rmin (step * 0.95 * Dbl.pow r (- 0.2)) (5 * step))
       (PropagationBP.maxStep bp).

(** The error ratio of a trial step of length [step]. *)
Definition errorRatio (Y_of_double : R -> PropagationBP.Y)
           (bp : PropagationBP.t) (yIn : PropagationBP.Y)
           (z q m step : R) : R :=
  Vector3.getR
    (PropagationBP.y_u (snd (PropagationBP.tryStep Y_of_double bp yIn
                                                   step z q m)))
  / PropagationBP.tolerance bp.

(** A wind that blows along x at the speed of light up to the plane
    x = 1 and turns sideways behind it. *)
Definition shock_wind (p : Vector3d) : Vector3d :=
  if Rlt_dec (vx p) 1
  then mkVector3d Units.c_light 0 0
  else mkVector3d (- Units.c_light / 5) (3 * Units.c_light / 5) 0.

(** An integrator in that wind, with a magnetic field that vanishes
    everywhere: tolerance sqrt(8/15), steps in [[1, 4]]. *)
Definition bp_shock : PropagationBP.t :=
  PropagationBP.mkBP (Some (fun _ _ => Vector3.zero)) shock_wind
                     (sqrt (8 / 15)) 1 4 0.

(** * Auxiliary notions used in the statements *)

(** Sum of a list of branching ratios. *)
Definition sumR (l : list R) : R := fold_right Rplus 0 l.

(** What [process] never touches. *)
Definition bp_frame (c c' : Candidate) : Prop :=
  secondaries c' = secondaries c
  /\ created c' = created c
  /\ ps_id (current c') = ps_id (current c)
  /\ ps_energy (current c') = ps_energy (current c)
  /\ redshift c' = redshift c
  /\ weight c' = weight c
  /\ tagOrigin c' = tagOrigin c.

(** The module with the three radial members of its photon field
    replaced. *)
Definition with_radial (has : bool) (scaleRadius outerRadius : R)
           (epp : ElectronPairProduction.t) : ElectronPairProduction.t :=
  let pf := ElectronPairProduction.photonField epp in
  ElectronPairProduction.mkEPP (mkPhotonField (getFieldName pf) (getRedshiftScaling pf)
                       (getRadialScaling pf) has scaleRadius outerRadius)
        (ElectronPairProduction.haveElectrons epp)
        (ElectronPairProduction.limit epp)
        (ElectronPairProduction.tabLorentzFactor epp)
        (ElectronPairProduction.tabLossRate epp)
        (ElectronPairProduction.tabSpectrum epp)
        (ElectronPairProduction.interactionTag epp).

(** What is observed of a candidate: id and energy of the primary,
    the step limit, and id and energy of every secondary. *)
Definition observed (c : Candidate) : Z * R * R * list (Z * R) :=
  (ps_id (current c), ps_energy (current c), nextStep c,
   map (fun s => (ps_id (current s), ps_energy (current s))) (secondaries c)).

(** Two runs agree when both run out of fuel, or both return candidates
    with the same observation and leave the same random tape. *)
Definition agree (r1 r2 : option (Candidate * Random)) : Prop :=
  match r1, r2 with
  | Some (c1, g1), Some (c2, g2) => observed c1 = observed c2 /\ g1 = g2
  | None, None => True
  | _, _ => False
  end.

(** The secondary that [addSecondary] appends to [c]. *)
Definition secOf (c : Candidate) (id : Z) (e : R) (pos : Vector3d) (w : R)
           (tag : string) : Candidate :=
  let st := mkParticleState id e pos (ps_direction (current c)) in
  mkCandidate st (previous c) st [] (redshift c) 0 0 (weight c * w) tag.

(** [c'] is [c] with the secondaries [l] appended. *)
Definition extends (c c' : Candidate) (l : list Candidate) : Prop :=
  c' = CandidateOps.set_secondaries (secondaries c ++ l) c.

(** [s] is a photon that carries a gamma line tabulated for the
    transition of [c] under channel [ch], boosted to the lab frame with
    the Lorentz factor of the residual nucleus [c']:
    E = E_line x gamma x (1 - cos theta), cos theta = 2u - 1 for a draw
    [u] of the tape [g]. *)
Definition boosted_line (nuclearMass : Z -> R) (pd : PhotoDisintegration.t)
           (c : Candidate) (ch : Z) (c' : Candidate) (g : Random)
           (s : Candidate) : Prop :=
  ps_id (current s) = 22%Z
  /\ exists em k,
       In em (PhotoDisintegration.lookupPhoton
                (PhotoDisintegration.pdPhoton pd) (photonKey c ch))
       /\ ps_energy (current s)
          = PhotoDisintegration.energy em
            * ParticleStateOps.getLorentzFactor nuclearMass (current c')
            * (1 - (2 * g k - 1)).

(** An Fe-56 nucleus of 500 EeV, as in the repository's test
    "updateParticleParentProperties". *)
Definition iron56 : Candidate :=
  let st := mkParticleState 1000260560 (500 * (10 ^ 18 * Units.eV))
              (mkVector3d Units.Mpc 0 0) e_x in
  mkCandidate st st st [] 0 0 0 1 EmptyString.

(** * Notions used by the properties of loading, events and steps *)

(** The fragments that the six loops of [performInteraction] attach
    for channel [ch], in the order of the loops. *)
Definition fragmentsOf (c : Candidate) (ch : Z) (pos : Vector3d) (tag : string)
  : list Candidate :=
  let EpA := ps_energy (current c)
             / IZR (ParticleID.massNumber (ps_id (current c))) in
  repeat (secOf c 1000000010 EpA pos 1 tag)
         (Z.to_nat (ParticleID.digit ch 100000))
  ++ repeat (secOf c 1000010010 EpA pos 1 tag)
            (Z.to_nat (ParticleID.digit ch 10000))
  ++ repeat (secOf c 1000010020 (EpA * 2) pos 1 tag)
            (Z.to_nat (ParticleID.digit ch 1000))
  ++ repeat (secOf c 1000010030 (EpA * 3) pos 1 tag)
            (Z.to_nat (ParticleID.digit ch 100))
  ++ repeat (secOf c 1000020030 (EpA * 3) pos 1 tag)
            (Z.to_nat (ParticleID.digit ch 10))
  ++ repeat (secOf c 1000020040 (EpA * 4) pos 1 tag)
            (Z.to_nat (ParticleID.digit ch 1)).

(** What [PhotoDisintegration::process] leaves alone: the snapshot
    [previous], redshift, current step, weight and tag, the position and
    direction of the primary; the next step is never raised and
    secondaries are only appended. *)
Definition pd_frame (c c' : Candidate) : Prop :=
  previous c' = previous c
  /\ redshift c' = redshift c
  /\ currentStep c' = currentStep c
  /\ weight c' = weight c
  /\ tagOrigin c' = tagOrigin c
  /\ ps_position (current c') = ps_position (current c)
  /\ ps_direction (current c') = ps_direction (current c)
  /\ nextStep c' <= nextStep c
  /\ exists new, secondaries c' = secondaries c ++ new.

(** A module that tabulates He-4 only, with the single channel 2: two
    alpha particles, more than a He-4 nucleus holds. *)
Definition pd_overdrawn : PhotoDisintegration.t :=
  PhotoDisintegration.mkPD flat_field
    (repeat [] 64 ++ [repeat 1 251])
    (repeat [] 64 ++ [[PhotoDisintegration.mkBranch 2 (repeat 1 251)]])
    [] false 0.1 "PD".

(** A module whose rate table lists He-4 while its branching table
    lists nothing. *)
Definition pd_branchless : PhotoDisintegration.t :=
  PhotoDisintegration.mkPD flat_field (repeat [] 64 ++ [repeat 1 251]) []
                           [] false 0.1 "PD".

(** The entry that the rate file [lines] gives table index [k]: the
    scaled samples of every data row with Z * 31 + N = k, in file
    order. *)
Definition ratesAt (k : nat) (lines : list PhotoDisintegration.RateLine)
  : list R :=
  flat_map
    (fun line =>
       match line with
       | PhotoDisintegration.RateComment => []
       | PhotoDisintegration.RateRow rZ rN r =>
           if (rZ * 31 + rN =? Z.of_nat k)%Z
           then map (fun x => x / Units.Mpc) (PhotoDisintegration.samples r)
           else []
       end)
    lines.

(** The branches that the branching file [lines] gives table index [k],
    in file order. *)
Definition branchesAt (k : nat) (lines : list PhotoDisintegration.BranchLine)
  : list PhotoDisintegration.Branch :=
  flat_map
    (fun line =>
       match line with
       | PhotoDisintegration.BranchComment => []
       | PhotoDisintegration.BranchRow rZ rN ch r =>
           if (rZ * 31 + rN =? Z.of_nat k)%Z
           then [PhotoDisintegration.mkBranch
                   ch (PhotoDisintegration.samples r)]
           else []
       end)
    lines.

(** The lines that the photon emission file [lines] lists under [key],
    in file order. *)
Definition emissionsAt (key : Z) (lines : list PhotoDisintegration.PhotonLine)
  : list PhotoDisintegration.PhotonEmission :=
  flat_map
    (fun line =>
       match line with
       | PhotoDisintegration.PhotonComment => []
       | PhotoDisintegration.PhotonRow rZ rN rZd rNd e r =>
           if (rZ * 1000000 + rN * 10000 + rZd * 100 + rNd =? key)%Z
           then [PhotoDisintegration.mkPhotonEmission
                   (e * Units.eV) (PhotoDisintegration.samples r)]
           else []
       end)
    lines.

(** Every data row of a rate file lies inside the table of 27 x 31
    entries. *)
Definition rates_in_table (lines : list PhotoDisintegration.RateLine) : Prop :=
  forall rZ rN r,
    In (PhotoDisintegration.RateRow rZ rN r) lines ->
    (0 <= rZ * 31 + rN < 837)%Z.

Definition branches_in_table (lines : list PhotoDisintegration.BranchLine)
  : Prop :=
  forall rZ rN ch r,
    In (PhotoDisintegration.BranchRow rZ rN ch r) lines ->
    (0 <= rZ * 31 + rN < 837)%Z.

(** The samples that the rate file lists for the nuclide (Zc, Nc). *)
Definition nuclideRates (Zc Nc : Z) (lines : list PhotoDisintegration.RateLine)
  : list R :=
  flat_map
    (fun line =>
       match line with
       | PhotoDisintegration.RateComment => []
       | PhotoDisintegration.RateRow rZ rN r =>
           if ((rZ =? Zc) && (rN =? Nc))%Z
           then map (fun x => x / Units.Mpc) (PhotoDisintegration.samples r)
           else []
       end)
    lines.

(** The branches that the branching file lists for the nuclide
    (Zc, Nc). *)
Definition nuclideBranches (Zc Nc : Z)
           (lines : list PhotoDisintegration.BranchLine)
  : list PhotoDisintegration.Branch :=
  flat_map
    (fun line =>
       match line with
       | PhotoDisintegration.BranchComment => []
       | PhotoDisintegration.BranchRow rZ rN ch r =>
           if ((rZ =? Zc) && (rN =? Nc))%Z
           then [PhotoDisintegration.mkBranch
                   ch (PhotoDisintegration.samples r)]
           else []
       end)
    lines.

(** The lines that the photon emission file lists for the transition
    (Zc, Nc) -> (Zd, Nd). *)
Definition transitionLines (Zc Nc Zd Nd : Z)
           (lines : list PhotoDisintegration.PhotonLine)
  : list PhotoDisintegration.PhotonEmission :=
  flat_map
    (fun line =>
       match line with
       | PhotoDisintegration.PhotonComment => []
       | PhotoDisintegration.PhotonRow rZ rN rZd rNd e r =>
           if ((rZ =? Zc) && (rN =? Nc) && (rZd =? Zd) && (rNd =? Nd))%Z
           then [PhotoDisintegration.mkPhotonEmission
                   (e * Units.eV) (PhotoDisintegration.samples r)]
           else []
       end)
    lines.

(** Every data row is about a nuclide with 0 <= Z <= 26 and
    0 <= N <= 30. *)
Definition rates_of_nuclides (lines : list PhotoDisintegration.RateLine)
  : Prop :=
  forall rZ rN r,
    In (PhotoDisintegration.RateRow rZ rN r) lines ->
    (0 <= rZ <= 26)%Z /\ (0 <= rN <= 30)%Z.

Definition branches_of_nuclides (lines : list PhotoDisintegration.BranchLine)
  : Prop :=
  forall rZ rN ch r,
    In (PhotoDisintegration.BranchRow rZ rN ch r) lines ->
    (0 <= rZ <= 26)%Z /\ (0 <= rN <= 30)%Z.

(** Neutron number and the two daughter numbers of every data row have
    at most two decimal digits. *)
Definition photon_rows_two_digit
           (lines : list PhotoDisintegration.PhotonLine) : Prop :=
  forall rZ rN rZd rNd e r,
    In (PhotoDisintegration.PhotonRow rZ rN rZd rNd e r) lines ->
    (0 <= rN < 100)%Z /\ (0 <= rZd < 100)%Z /\ (0 <= rNd < 100)%Z.

(** Data files of a field: a commented rate file and a branching file
    that list He-4 only, with samples that are stored as rate 1 and the
    single channel 100000 with ratio 1, and a photon file with one line
    of 1 MeV for He-4 -> He-3. *)
Definition sample_rate_file : list PhotoDisintegration.RateLine :=
  [PhotoDisintegration.RateComment;
   PhotoDisintegration.RateRow 2 2 (fun _ => Units.Mpc)].

Definition sample_branching_file : list PhotoDisintegration.BranchLine :=
  [PhotoDisintegration.BranchComment;
   PhotoDisintegration.BranchRow 2 2 100000 (fun _ => 1)].

Definition sample_photon_file : list PhotoDisintegration.PhotonLine :=
  [PhotoDisintegration.PhotonComment;
   PhotoDisintegration.PhotonRow 2 2 2 1 1000000 (fun _ => 1)].

(** The pairs (a, b) that [initRate] extracts from a file: those of the
    data lines before the first line on which the extraction fails. *)
Fixpoint pairsRead (lines : list ElectronPairProduction.RateLine)
  : list (R * R) :=
  match lines with
  | [] => []
  | ElectronPairProduction.RateComment :: rest => pairsRead rest
  | ElectronPairProduction.RatePair a b :: rest => (a, b) :: pairsRead rest
  | ElectronPairProduction.RateUnreadable :: _ => []
  end.

(** f 0 + ... + f j, summed in the order of the loop
    [tabSpectrum[i][j] += tabSpectrum[i][j - 1]]. *)
Fixpoint partialSum (f : nat -> R) (j : nat) : R :=
  match j with
  | O => f O
  | S j' => f j + partialSum f j'
  end.

(** The weighted spectrum dN/dE x E that [initSpectrum] stores in row
    [i] before accumulating it. *)
Definition weighted (v : nat -> R) (i j : nat) : R :=
  v (i * 170 + j)%nat * Dbl.pow 10 (7 + 0.1 * INR j).

(** The tables are those of the files of the current photon field: the
    rate table always, the spectrum whenever electrons are produced. *)
Definition epp_in_step (getDataPath : string -> string)
           (rateFiles : string -> option (list ElectronPairProduction.RateLine))
           (spectrumFiles : string -> option (nat -> R))
           (epp : ElectronPairProduction.t) : Prop :=
  let fname := getFieldName (ElectronPairProduction.photonField epp) in
  (exists lines,
      rateFiles (ElectronPairProduction.ratePath getDataPath fname)
      = Some lines
      /\ ElectronPairProduction.tabLorentzFactor epp
         = map (fun p => Dbl.pow 10 (fst p)) (pairsRead lines)
      /\ ElectronPairProduction.tabLossRate epp
         = map (fun p => snd p / Units.Mpc) (pairsRead lines))
  /\ (ElectronPairProduction.haveElectrons epp = true ->
      exists v,
        spectrumFiles (ElectronPairProduction.spectrumPath getDataPath fname)
        = Some v
        /\ ElectronPairProduction.tabSpectrum epp
           = map (ElectronPairProduction.spectrumRow v) (seq 0 70)).

(** A loss-rate file: a comment, two pairs with log10 Lorentz factors 8
    and 9 whose rates are stored as 1, a line that does not parse, and a
    pair behind it. *)
Definition sample_lossrate_file : list ElectronPairProduction.RateLine :=
  [ElectronPairProduction.RateComment;
   ElectronPairProduction.RatePair 8 Units.Mpc;
   ElectronPairProduction.RatePair 9 Units.Mpc;
   ElectronPairProduction.RateUnreadable;
   ElectronPairProduction.RatePair 10 Units.Mpc].

(** The sample module with the production of electron pairs switched
    on. *)
Definition epp_pairs : ElectronPairProduction.t :=
  ElectronPairProduction.set_haveElectrons true epp_sample.

(** The same module with a loaded spectrum table: 70 rows of 170
    cumulative values that are all 1, which is what [initSpectrum] builds
    from a file whose rows put their whole weight into the first energy
    bin. *)
Definition epp_cascade : ElectronPairProduction.t :=
  ElectronPairProduction.set_tabSpectrum (repeat (repeat 1 170) 70) epp_pairs.

(** The proton of Lorentz factor 10^9 after a move from the origin to
    (2, 0, 0): [previous] still holds the origin. *)
Definition proton_moved : Candidate :=
  CandidateOps.set_current
    (ParticleStateOps.setPosition (mkVector3d 2 0 0)
                                  (current (proton_at 1000000000)))
    (proton_at 1000000000).

(** The point at the fraction [u] of the way from the previous to the
    current position of [c]. *)
Definition interpolated (c : Candidate) (u : R) : Vector3d :=
  Vector3.add (ps_position (previous c))
    (Vector3.scale (Vector3.sub (ps_position (current c))
                                (ps_position (previous c))) u).

(** A run of electron-positron pairs: every electron (id 11) is followed
    by a positron (id -11) with the same energy, position and tag. *)
Fixpoint paired (tag : string) (l : list Candidate) : Prop :=
  match l with
  | [] => True
  | e :: p :: rest =>
      ps_id (current e) = 11%Z /\ ps_id (current p) = (-11)%Z
      /\ ps_energy (current e) = ps_energy (current p)
      /\ ps_position (current e) = ps_position (current p)
      /\ tagOrigin e = tag /\ tagOrigin p = tag
      /\ paired tag rest
  | _ => False
  end.

(** What [ElectronPairProduction::process] leaves alone: the snapshots
    [previous] and [created], redshift, current step, weight and tag,
    the id, position and direction of the primary; the next step is
    never raised and secondaries are only appended. *)
Definition epp_frame (c c' : Candidate) : Prop :=
  previous c' = previous c
  /\ created c' = created c
  /\ redshift c' = redshift c
  /\ currentStep c' = currentStep c
  /\ weight c' = weight c
  /\ tagOrigin c' = tagOrigin c
  /\ ps_id (current c') = ps_id (current c)
  /\ ps_position (current c') = ps_position (current c)
  /\ ps_direction (current c') = ps_direction (current c)
  /\ nextStep c' <= nextStep c.

(** The vector that [dY] normalises to obtain [dir_tot]: direction plus
    wind velocity in units of c. *)
Definition drift (bp : PropagationBP.t) (pos dir : Vector3d) : Vector3d :=
  let vWind := PropagationBP.getAdvFieldAtPosition bp pos in
  Vector3.add dir (Vector3.scale (Vector3.getUnitVector vWind)
                                 (Vector3.getR vWind / Units.c_light)).

(** Both normalisations of the first half step divide by a non-zero
    length. *)
Definition drift_defined (bp : PropagationBP.t) (pos dir : Vector3d) : Prop :=
  Vector3.getR (PropagationBP.getAdvFieldAtPosition bp pos) <> 0
  /\ Vector3.getR (drift bp pos dir) <> 0.

(** The position at which [dY] evaluates the magnetic field. *)
Definition halfStepPosition (bp : PropagationBP.t) (pos dir : Vector3d)
           (step : R) : Vector3d :=
  Vector3.add pos
    (Vector3.divide
       (Vector3.scale (Vector3.getUnitVector (drift bp pos dir)) step) 2).

(** None of the divisions on the way to the direction that [dY]
    returns is a division by zero: the mass, the two lengths of the
    first half step, and the radius by which the field is scaled below
    the shock radius. *)
Definition push_defined (bp : PropagationBP.t) (pos dir : Vector3d)
           (step m : R) : Prop :=
  m <> 0
  /\ drift_defined bp pos dir
  /\ (PropagationBP.shockRadius bp
      > Vector3.getR (halfStepPosition bp pos dir step) ->
      Vector3.getR (halfStepPosition bp pos dir step) <> 0).



(** The integrator in the wind [shock_wind] with a uniform magnetic
    field along z. *)
Definition bp_gyro : PropagationBP.t :=
  PropagationBP.mkBP (Some (fun _ _ => mkVector3d 0 0 1)) shock_wind
                     (sqrt (8 / 15)) 1 4 0.

(** The rotation vector t of the Boris push. *)
Definition borisT (B : Vector3d) (step q m : R) : Vector3d :=
  Vector3.divide
    (Vector3.scale
       (Vector3.divide (Vector3.divide (Vector3.scale B q) 2) m) step)
    Units.c_light.

(** The Boris push of [dir] about [t]. *)
Definition borisPush (dir t : Vector3d) : Vector3d :=
  let s := Vector3.divide (Vector3.scale t 2) (1 + Vector3.dot t t) in
  let v_help := Vector3.add dir (Vector3.cross dir t) in
  Vector3.add dir (Vector3.cross v_help s).

(** The configuration constraints that the setters enforce. *)
Definition bp_configured (bp : PropagationBP.t) : Prop :=
  0 <= PropagationBP.tolerance bp <= 1
  /\ 0 <= PropagationBP.minStep bp <= PropagationBP.maxStep bp.

(** * Properties *)

(** ** Channel selection *)

Section ChannelSelection.

Import PhotoDisintegration.

Lemma selectLoop_shift (ratios : list R) :
  forall cmp i, selectLoop ratios cmp i = (i + selectLoop ratios cmp 0)%nat.
Proof.
  induction ratios as [|r rest IH]; intros cmp i; simpl.
  - lia.
  - destruct (Rgt_dec cmp 0).
    + rewrite (IH (cmp - r) (S i)), (IH (cmp - r) 1%nat). lia.
    + lia.
Qed.

Lemma selectLoop_le_length (ratios : list R) :
  forall cmp, (selectLoop ratios cmp 0 <= length ratios)%nat.
Proof.
  induction ratios as [|r rest IH]; intros cmp; simpl.
  - lia.
  - destruct (Rgt_dec cmp 0).
    + rewrite selectLoop_shift. specialize (IH (cmp - r)). lia.
    + lia.
Qed.

(** While the loop runs, the remainder it tests is positive. *)
Lemma selectLoop_before (ratios : list R) :
  forall cmp j, (j < selectLoop ratios cmp 0)%nat ->
                cmp - sumR (firstn j ratios) > 0.
Proof.
  induction ratios as [|r rest IH]; intros cmp j Hj; simpl in Hj.
  - lia.
  - destruct (Rgt_dec cmp 0) as [Hpos|Hneg].
    + rewrite selectLoop_shift in Hj.
      destruct j as [|j]; simpl.
      * unfold sumR; simpl. lra.
      * assert (Hlt : (j < selectLoop rest (cmp - r) 0)%nat) by lia.
        specialize (IH (cmp - r) j Hlt). unfold sumR in *; simpl. lra.
    + lia.
Qed.

(** The loop stops because the list is exhausted or because the
    remainder is no longer positive. *)
Lemma selectLoop_after (ratios : list R) :
  forall cmp, selectLoop ratios cmp 0 = length ratios
              \/ cmp - sumR (firstn (selectLoop ratios cmp 0) ratios) <= 0.
Proof.
  induction ratios as [|r rest IH]; intros cmp; simpl.
  - left; reflexivity.
  - destruct (Rgt_dec cmp 0) as [Hpos|Hneg].
    + rewrite selectLoop_shift.
      destruct (IH (cmp - r)) as [Hall|Hstop].
      * left. lia.
      * right. simpl. unfold sumR in *; simpl. lra.
    + right. unfold sumR; simpl. lra.
Qed.

Lemma selectLoop_exhaust (ratios : list R) :
  forall cmp, (forall r, In r ratios -> 0 <= r) -> sumR ratios < cmp ->
              selectLoop ratios cmp 0 = length ratios.
Proof.
  induction ratios as [|r rest IH]; intros cmp Hnn Hsum; simpl.
  - reflexivity.
  - assert (Hr : 0 <= r) by (apply Hnn; left; reflexivity).
    assert (Hrest : forall x, In x rest -> 0 <= x)
      by (intros x Hx; apply Hnn; right; exact Hx).
    assert (Hs : 0 <= sumR rest).
    { clear -Hrest. induction rest as [|a l IHl]; unfold sumR; simpl.
      - lra.
      - assert (0 <= a) by (apply Hrest; left; reflexivity).
        assert (0 <= sumR l) by (apply IHl; intros x Hx; apply Hrest; right; exact Hx).
        unfold sumR in *. lra. }
    unfold sumR in Hsum; simpl in Hsum. fold (sumR rest) in Hsum.
    destruct (Rgt_dec cmp 0) as [Hpos|Hneg]; [|lra].
    rewrite selectLoop_shift, (IH (cmp - r)); [lia|exact Hrest|lra].
Qed.

Lemma selectLoop_positive (ratios : list R) (cmp : R) :
  ratios <> [] -> 0 < cmp -> (1 <= selectLoop ratios cmp 0)%nat.
Proof.
  intros Hne Hpos. destruct ratios as [|r rest]; [congruence|].
  simpl. destruct (Rgt_dec cmp 0); [|lra].
  rewrite selectLoop_shift. lia.
Qed.

End ChannelSelection.

(** ** Configuration of the integrator *)

Section Setters.

Import PropagationBP.

Lemma setTolerance_spec (bp : t) (tol : R) :
  ((tol < 0 \/ 1 < tol) -> exists msg, setTolerance tol bp = ConfigError msg)
  /\ (0 <= tol <= 1 -> setTolerance tol bp = Stored (set_tolerance tol bp)).
Proof.
  unfold setTolerance.
  destruct (Rgt_dec tol 1) as [H1|H1]; [|destruct (Rlt_dec tol 0) as [H0|H0]];
    split; intros H; try lra; eauto.
Qed.

Lemma setMinimumStep_spec (bp : t) (min : R) :
  ((min < 0 \/ maxStep bp < min) ->
   exists msg, setMinimumStep min bp = ConfigError msg)
  /\ (0 <= min <= maxStep bp ->
      setMinimumStep min bp = Stored (set_minStep min bp)).
Proof.
  unfold setMinimumStep.
  destruct (Rlt_dec min 0) as [H0|H0];
    [|destruct (Rgt_dec min (maxStep bp)) as [H1|H1]];
    split; intros H; try lra; eauto.
Qed.

Lemma setMaximumStep_spec (bp : t) (max : R) :
  (max < minStep bp -> exists msg, setMaximumStep max bp = ConfigError msg)
  /\ (minStep bp <= max -> setMaximumStep max bp = Stored (set_maxStep max bp)).
Proof.
  unfold setMaximumStep.
  destruct (Rlt_dec max (minStep bp)) as [H0|H0];
    split; intros H; try lra; eauto.
Qed.

Lemma construct_spec f advF (tol min max radius : R) :
  (0 <= tol <= 1 /\ 0 <= min <= max ->
   construct f advF tol min max radius
   = Stored (mkBP f advF tol min max radius))
  /\ (~ (0 <= tol <= 1 /\ 0 <= min <= max) ->
      exists msg, construct f advF tol min max radius = ConfigError msg).
Proof.
  unfold construct, setTolerance, setMaximumStep, setMinimumStep; simpl.
  destruct (Rgt_dec tol 1) as [H1|H1]; simpl;
    [split; intros H; [lra|eauto]|].
  destruct (Rlt_dec tol 0) as [H0|H0]; simpl;
    [split; intros H; [lra|eauto]|].
  destruct (Rlt_dec max 0) as [H2|H2]; simpl;
    [split; intros H; [lra|eauto]|].
  destruct (Rlt_dec min 0) as [H3|H3]; simpl;
    [split; intros H; [lra|eauto]|].
  destruct (Rgt_dec min max) as [H4|H4]; simpl;
    [split; intros H; [lra|eauto]|].
  split; intros H; [reflexivity|exfalso; apply H; lra].
Qed.

Lemma constructFixed_spec f advF (fixedStep radius : R) :
  (0 <= fixedStep ->
   constructFixed f advF fixedStep radius
   = Stored (mkBP f advF 0.42 fixedStep fixedStep radius))
  /\ (fixedStep < 0 ->
      exists msg, constructFixed f advF fixedStep radius = ConfigError msg).
Proof.
  unfold constructFixed, setTolerance, setMaximumStep, setMinimumStep; simpl.
  destruct (Rgt_dec 0.42 1) as [H1|_]; [lra|].
  destruct (Rlt_dec 0.42 0) as [H0|_]; [lra|]. simpl.
  destruct (Rlt_dec fixedStep 0) as [H2|H2]; simpl;
    [split; intros H; [lra|eauto]|].
  destruct (Rgt_dec fixedStep fixedStep) as [H4|_]; [lra|]. simpl.
  split; intros H; [reflexivity|lra].
Qed.

End Setters.

(** C8, as stated, fails: a tolerance of exactly 0 lies outside (0,1] and
    is stored by [setTolerance], not rejected. *)
Lemma setTolerance_stores_zero :
  ~ (forall bp tol, ~ (0 < tol <= 1) ->
       exists msg, PropagationBP.setTolerance tol bp
                   = PropagationBP.ConfigError msg).
Proof.
  intros H. destruct (H bp_plain 0) as [msg Hmsg]; [lra|].
  unfold PropagationBP.setTolerance in Hmsg.
  destruct (Rgt_dec 0 1) as [H1|_]; [lra|].
  destruct (Rlt_dec 0 0) as [H0|_]; [lra|].
  discriminate Hmsg.
Qed.

(** C8, amended.  The setters enforce tolerance in the CLOSED interval
    [0,1] and 0 <= minStep <= maxStep: [setTolerance] raises exactly for
    values below 0 or above 1, [setMinimumStep] exactly for values below 0
    or above the stored maxStep, [setMaximumStep] exactly for values below
    the stored minStep; a raising setter returns no configuration, so the
    stored one stays as it was, and every other value is stored in its
    member and nowhere else.  The adaptive constructor succeeds exactly
    when its arguments satisfy all three constraints, the fixed-step
    constructor exactly when the step is not negative. *)
Theorem setters_enforce_ranges :
  forall (bp : PropagationBP.t) (x : R),
    ((x < 0 \/ 1 < x) ->
     exists msg, PropagationBP.setTolerance x bp = PropagationBP.ConfigError msg)
    /\ (0 <= x <= 1 ->
        PropagationBP.setTolerance x bp
        = PropagationBP.Stored (PropagationBP.set_tolerance x bp))
    /\ ((x < 0 \/ PropagationBP.maxStep bp < x) ->
        exists msg, PropagationBP.setMinimumStep x bp
                    = PropagationBP.ConfigError msg)
    /\ (0 <= x <= PropagationBP.maxStep bp ->
        PropagationBP.setMinimumStep x bp
        = PropagationBP.Stored (PropagationBP.set_minStep x bp))
    /\ (x < PropagationBP.minStep bp ->
        exists msg, PropagationBP.setMaximumStep x bp
                    = PropagationBP.ConfigError msg)
    /\ (PropagationBP.minStep bp <= x ->
        PropagationBP.setMaximumStep x bp
        = PropagationBP.Stored (PropagationBP.set_maxStep x bp))
    /\ (forall f advF min max radius,
           (0 <= x <= 1 /\ 0 <= min <= max ->
            PropagationBP.construct f advF x min max radius
            = PropagationBP.Stored (PropagationBP.mkBP f advF x min max radius))
           /\ (~ (0 <= x <= 1 /\ 0 <= min <= max) ->
               exists msg, PropagationBP.construct f advF x min max radius
                           = PropagationBP.ConfigError msg))
    /\ (forall f advF radius,
           (0 <= x ->
            PropagationBP.constructFixed f advF x radius
            = PropagationBP.Stored (PropagationBP.mkBP f advF 0.42 x x radius))
           /\ (x < 0 ->
               exists msg, PropagationBP.constructFixed f advF x radius
                           = PropagationBP.ConfigError msg)).
Proof.
  intros bp x.
  destruct (setTolerance_spec bp x) as [T1 T2].
  destruct (setMinimumStep_spec bp x) as [M1 M2].
  destruct (setMaximumStep_spec bp x) as [X1 X2].
  repeat split; try assumption; intros;
    first [apply (construct_spec f advF x min max radius); assumption
          |apply (constructFixed_spec f advF x radius); assumption].
Qed.

Lemma setters_enforce_ranges_witness :
  (exists msg, PropagationBP.setTolerance 2 bp_plain
               = PropagationBP.ConfigError msg)
  /\ PropagationBP.setMinimumStep 3 bp_plain
     = PropagationBP.Stored (PropagationBP.set_minStep 3 bp_plain).
Proof.
  split.
  - apply (proj1 (setters_enforce_ranges bp_plain 2)). right. lra.
  - apply (proj1 (proj2 (proj2 (proj2 (setters_enforce_ranges bp_plain 3))))).
    simpl. lra.
Defined.

(** ** Frame of the integrator *)

Section IntegratorFrame.

Import PropagationBP CandidateOps.

Variable particleCharge : Z -> R.
Variable Y_of_double : R -> Y.

Lemma process_frame_aux (bp : t) (fuel : nat) (c c' : Candidate) :
  process particleCharge Y_of_double bp fuel c = Some c' ->
  bp_frame c c' /\ previous c' = current c.
Proof.
  unfold process, bp_frame.
  destruct (Req_dec_T _ 0) as [Hq|Hq].
  - intros H; inversion H; subst; clear H; simpl. repeat split; reflexivity.
  - destruct (Req_dec_T (minStep bp) (maxStep bp)) as [He|He].
    + intros H; inversion H; subst; clear H. simpl. repeat split; reflexivity.
    + destruct (adaptLoop _ _ _ _ _ _ _ _ _) as [[[yOut s] n]|]; simpl;
        [|discriminate].
      intros H; inversion H; subst; clear H. simpl. repeat split; reflexivity.
Qed.

Lemma process_neutral (bp : t) (fuel : nat) (c : Candidate) :
  ParticleStateOps.getCharge particleCharge (current c) = 0 ->
  exists c', process particleCharge Y_of_double bp fuel c = Some c'
             /\ ps_direction (current c') = ps_direction (current c)
             /\ nextStep c' = maxStep bp.
Proof.
  intros Hq. unfold process.
  destruct (Req_dec_T _ 0) as [_|Hn]; [|contradiction].
  eexists; split; [reflexivity|]. simpl. split; reflexivity.
Qed.

Lemma process_fixed_step (bp : t) (fuel : nat) (c : Candidate) :
  minStep bp = maxStep bp ->
  exists c', process particleCharge Y_of_double bp fuel c = Some c'.
Proof.
  intros He. unfold process.
  destruct (Req_dec_T _ 0) as [Hq|Hq]; [eexists; reflexivity|].
  destruct (Req_dec_T (minStep bp) (maxStep bp)) as [_|Hn]; [|contradiction].
  eexists; reflexivity.
Qed.

End IntegratorFrame.

(** C9, as stated, fails: [process] overwrites the candidate's [previous]
    snapshot with the pre-step [current] state, so a field other than
    position, direction, currentStep and nextStep changes. *)
Lemma process_overwrites_previous :
  exists c',
    PropagationBP.process charge_of_nuclei Y_broadcast bp_plain 1
                          photon_candidate = Some c'
    /\ previous c' <> previous photon_candidate.
Proof.
  destruct (process_neutral charge_of_nuclei Y_broadcast bp_plain 1
                            photon_candidate) as [c' [Hc' _]].
  { reflexivity. }
  exists c'. split; [exact Hc'|].
  destruct (process_frame_aux _ _ _ _ _ _ Hc') as [_ Hprev].
  rewrite Hprev. simpl. intros H. inversion H. lra.
Qed.

(** C9, amended.  A call of the integrator's [process] creates no
    secondaries and changes, besides the position and direction of
    [current], [currentStep] and [nextStep], exactly one more field: the
    [previous] snapshot, which becomes the pre-step [current] state.  The
    id and energy of [current], [created], the secondaries, redshift,
    weight and tag are unchanged.  A neutral candidate also keeps its
    direction.  The call returns for every neutral candidate and for every
    fixed-step configuration. *)
Theorem process_changes_only_trajectory :
  forall (particleCharge : Z -> R) (Y_of_double : R -> PropagationBP.Y)
         (bp : PropagationBP.t) (fuel : nat) (c : Candidate),
    (forall c',
        PropagationBP.process particleCharge Y_of_double bp fuel c = Some c' ->
        bp_frame c c' /\ previous c' = current c)
    /\ (ParticleStateOps.getCharge particleCharge (current c) = 0 ->
        exists c',
          PropagationBP.process particleCharge Y_of_double bp fuel c = Some c'
          /\ ps_direction (current c') = ps_direction (current c)
          /\ nextStep c' = PropagationBP.maxStep bp)
    /\ (PropagationBP.minStep bp = PropagationBP.maxStep bp ->
        exists c',
          PropagationBP.process particleCharge Y_of_double bp fuel c = Some c').
Proof.
  intros chg Yd bp fuel c. split; [|split].
  - intros c' H. exact (process_frame_aux chg Yd bp fuel c c' H).
  - apply process_neutral.
  - apply process_fixed_step.
Qed.

Lemma process_changes_only_trajectory_witness :
  exists c',
    PropagationBP.process charge_of_nuclei Y_broadcast bp_plain 0
                          photon_candidate = Some c'
    /\ ps_direction (current c') = e_x
    /\ nextStep c' = 10.
Proof.
  apply (proj1 (proj2 (process_changes_only_trajectory
                         charge_of_nuclei Y_broadcast bp_plain 0
                         photon_candidate))).
  reflexivity.
Defined.

(** ** The radial block of ElectronPairProduction::process *)

Section RadialBlock.

Import ElectronPairProduction CandidateOps RandomOps.

Variable nuclearMass : Z -> R.

(** The block leaves the variables of the enclosing scopes as they
    were: all that it declares and assigns lives in its own scope. *)
Lemma radialBlock_scoped (epp : t) (c : Candidate) (locals : Locals) :
  radialBlock epp c locals = locals.
Proof. reflexivity. Qed.

Lemma process_drops_block (epp : t) (fuel : nat) (c : Candidate) (g : Random) :
  process nuclearMass epp fuel c g
  = process_without_radial_block nuclearMass epp fuel c g.
Proof.
  unfold process, process_without_radial_block.
  destruct (negb _); [reflexivity|].
  cbv zeta. rewrite radialBlock_scoped.
  replace (if hasScaleRadius (photonField epp)
           then declare "pos_scale" 1 [[]] else declare "pos_scale" 1 [[]])
    with (declare "pos_scale" 1 [[]])
    by (destruct (hasScaleRadius (photonField epp)); reflexivity).
  change (lookup "pos_scale" (declare "pos_scale" 1 [[]])) with 1.
  reflexivity.
Qed.

Lemma pairLoop_with_radial has sr orad (epp : t) (fuel : nat) :
  forall dE i c g,
    pairLoop (with_radial has sr orad epp) fuel dE i c g
    = pairLoop epp fuel dE i c g.
Proof.
  induction fuel as [|fuel IH]; intros dE i c g; simpl.
  - reflexivity.
  - destruct (Rgt_dec dE 0); [|reflexivity].
    destruct (Rgt_dec _ dE).
    + destruct (Rgt_dec _ _); [reflexivity|]. apply IH.
    + apply IH.
Qed.

Lemma process_with_radial has sr orad (epp : t) (fuel : nat) c g :
  process nuclearMass (with_radial has sr orad epp) fuel c g
  = process nuclearMass epp fuel c g.
Proof.
  rewrite !process_drops_block.
  unfold process_without_radial_block.
  destruct (negb _); [reflexivity|].
  cbv zeta.
  change (lossLength nuclearMass (with_radial has sr orad epp))
    with (lossLength nuclearMass epp).
  destruct (Rge_dec _ _); [reflexivity|].
  simpl haveElectrons. simpl limit.
  destruct (haveElectrons epp); [|reflexivity].
  rewrite pairLoop_with_radial. reflexivity.
Qed.

Lemma observed_addSecondary id e pos1 pos2 w tag c1 c2 :
  observed c1 = observed c2 ->
  observed (addSecondary id e pos1 w tag c1)
  = observed (addSecondary id e pos2 w tag c2).
Proof.
  unfold observed, addSecondary; simpl. intros H.
  inversion H as [[H1 H2 H3 H4]].
  rewrite !map_app, H4. simpl. reflexivity.
Qed.

Lemma pairLoop_agree (epp : t) (fuel : nat) :
  forall dE i c1 c2 g,
    observed c1 = observed c2 ->
    agree (pairLoop epp fuel dE i c1 g) (pairLoop epp fuel dE i c2 g).
Proof.
  induction fuel as [|fuel IH]; intros dE i c1 c2 g Hobs; simpl.
  - destruct (Rgt_dec dE 0); simpl; auto.
  - destruct (Rgt_dec dE 0); [|simpl; auto].
    destruct (Rgt_dec _ dE).
    + destruct (Rgt_dec _ _); [simpl; auto|].
      apply IH. do 2 apply observed_addSecondary. exact Hobs.
    + apply IH. do 2 apply observed_addSecondary. exact Hobs.
Qed.

Lemma process_position_blind (epp : t) (fuel : nat) c g (x : Vector3d) :
  agree (process nuclearMass epp fuel c g)
        (process nuclearMass epp fuel
                 (set_current (ParticleStateOps.setPosition x (current c)) c) g).
Proof.
  rewrite !process_drops_block.
  unfold process_without_radial_block. simpl.
  destruct (negb _); [simpl; auto|].
  unfold ParticleStateOps.getLorentzFactor; simpl.
  destruct (Rge_dec _ _); [simpl; auto|].
  destruct (haveElectrons epp).
  - match goal with
    | |- agree (option_map _ (pairLoop _ _ ?dE ?i ?c1 _))
               (option_map _ (pairLoop _ _ _ _ ?c2 _)) =>
        pose proof (pairLoop_agree epp fuel dE i c1 c2 g eq_refl) as H
    end.
    unfold agree in *.
    destruct (pairLoop _ _ _ _ c _) as [[a ga]|];
      destruct (pairLoop _ _ _ _ _ _) as [[b gb]|]; simpl in *; auto.
    destruct H as [H Hg]. split; [|exact Hg].
    unfold observed in *. inversion H as [[H1 H2 H3 H4]].
    unfold limitNextStep, ParticleStateOps.setLorentzFactor; simpl.
    rewrite H1, H3, H4. reflexivity.
  - simpl. auto.
Qed.

End RadialBlock.

(** ** Numeric facts *)

Section Numeric.

Lemma floor_IZR (k : Z) : Dbl.floor (IZR k) = k.
Proof.
  unfold Dbl.floor.
  assert (H : (k + 1)%Z = up (IZR k)).
  { apply up_tech; [lra|]. rewrite plus_IZR. lra. }
  lia.
Qed.

Lemma round_IZR (k : Z) : Dbl.round (IZR k) = k.
Proof.
  unfold Dbl.round, Dbl.floor.
  destruct (Rle_dec 0 (IZR k)) as [Hk|Hk].
  - assert (H : (k + 1)%Z = up (IZR k + / 2)).
    { apply tech_up; rewrite plus_IZR; lra. }
    lia.
  - assert (H : (- k + 1)%Z = up (- IZR k + / 2)).
    { apply tech_up; rewrite plus_IZR, opp_IZR; lra. }
    lia.
Qed.

Lemma round_nearest (x : R) : Rabs (IZR (Dbl.round x) - x) <= / 2.
Proof.
  unfold Dbl.round, Dbl.floor.
  destruct (Rle_dec 0 x) as [Hx|Hx].
  - destruct (archimed (x + / 2)) as [H1 H2].
    rewrite minus_IZR. apply Rabs_le. lra.
  - destruct (archimed (- x + / 2)) as [H1 H2].
    rewrite opp_IZR, minus_IZR. apply Rabs_le. lra.
Qed.

Lemma ln_10_pos : 0 < ln 10.
Proof. rewrite <- ln_1. apply ln_increasing; lra. Qed.

Lemma log10_pow10 (n : nat) : Dbl.log10 (10 ^ n) = INR n.
Proof.
  unfold Dbl.log10. rewrite ln_pow by lra.
  field. pose proof ln_10_pos. lra.
Qed.

Lemma DBL_MAX_large : 1000000 < Dbl.DBL_MAX.
Proof.
  unfold Dbl.DBL_MAX. apply IZR_lt. reflexivity.
Qed.

End Numeric.

(** ** Conservation in a photo-disintegration event *)

Section Conservation.

Import PhotoDisintegration ParticleID CandidateOps RandomOps.

Variable nuclearMass : Z -> R.

Lemma sumA_app l1 l2 : sumA (l1 ++ l2) = (sumA l1 + sumA l2)%Z.
Proof. induction l1 as [|s l IH]; simpl; [reflexivity|]. rewrite IH. lia. Qed.

Lemma sumZ_app l1 l2 : sumZ (l1 ++ l2) = (sumZ l1 + sumZ l2)%Z.
Proof. induction l1 as [|s l IH]; simpl; [reflexivity|]. rewrite IH. lia. Qed.

Lemma sumE_app l1 l2 : sumE (l1 ++ l2) = sumE l1 + sumE l2.
Proof. induction l1 as [|s l IH]; simpl; [lra|]. rewrite IH. lra. Qed.

Lemma sumA_repeat s n :
  sumA (repeat s n) = (Z.of_nat n * massNumber (ps_id (current s)))%Z.
Proof. induction n as [|n IH]; [reflexivity|]. simpl repeat. simpl sumA. rewrite IH. lia. Qed.

Lemma sumZ_repeat s n :
  sumZ (repeat s n) = (Z.of_nat n * chargeNumber (ps_id (current s)))%Z.
Proof. induction n as [|n IH]; [reflexivity|]. simpl repeat. simpl sumZ. rewrite IH. lia. Qed.

Lemma sumE_repeat s n :
  sumE (repeat s n) = INR n * ps_energy (current s).
Proof.
  induction n as [|n IH]; [simpl; lra|].
  simpl repeat. simpl sumE. rewrite IH, S_INR. lra.
Qed.

Lemma iter_addSecondary id e pos w tag c n :
  Nat.iter n (addSecondary id e pos w tag) c
  = set_secondaries (secondaries c ++ repeat (secOf c id e pos w tag) n) c.
Proof.
  induction n as [|n IH].
  - simpl. rewrite app_nil_r. destruct c; reflexivity.
  - simpl Nat.iter. rewrite IH. unfold addSecondary at 1.
    unfold set_secondaries; simpl. fold (secOf c id e pos w tag).
    rewrite <- app_assoc, repeat_cons. reflexivity.
Qed.

Lemma addFragments_Ok n a z i e pos tag c g :
  nucleusId a z = Some i ->
  addFragments n a z e pos tag (Ok c g)
  = Ok (Nat.iter (Z.to_nat n) (addSecondary i e pos 1 tag) c) g.
Proof.
  intros Hid. unfold addFragments.
  induction (Z.to_nat n) as [|k IH]; [reflexivity|].
  simpl Nat.iter. rewrite IH. simpl. rewrite Hid. reflexivity.
Qed.

Lemma extends_addFragments c c1 l n a z i e pos tag g :
  nucleusId a z = Some i ->
  extends c c1 l ->
  exists c2,
    addFragments n a z e pos tag (Ok c1 g) = Ok c2 g
    /\ extends c c2 (l ++ repeat (secOf c i e pos 1 tag) (Z.to_nat n)).
Proof.
  intros Hid Hext. rewrite (addFragments_Ok n a z i) by exact Hid.
  eexists; split; [reflexivity|].
  rewrite iter_addSecondary. unfold extends in *. subst c1.
  unfold set_secondaries, secOf; simpl. rewrite app_assoc. reflexivity.
Qed.

Lemma digit_nonneg ch d : (0 <= ch)%Z -> (0 < d)%Z -> (0 <= digit ch d)%Z.
Proof.
  intros Hch Hd. unfold digit.
  apply Z.quot_pos; [|lia]. apply Z.rem_nonneg; lia.
Qed.

Lemma massNumber_bound id : (massNumber id < 1000)%Z.
Proof.
  unfold massNumber. destruct (id =? 2112)%Z; [lia|].
  destruct (_ =? 10)%Z; [|lia].
  pose proof (Z.rem_bound_abs (Z.quot id 10) 1000). lia.
Qed.

Lemma nucleusId_massNumber a z i :
  (a < 1000)%Z -> nucleusId a z = Some i ->
  massNumber i = a /\ chargeNumber i = z.
Proof.
  unfold nucleusId. intros Ha.
  destruct (z <? 0)%Z eqn:H1; [discriminate|].
  destruct (a <? 1)%Z eqn:H2; [discriminate|].
  destruct (a <? z)%Z eqn:H3; [discriminate|].
  intros H.
  assert (Hi : i = (1000000000 + z * 10000 + a * 10)%Z) by congruence.
  subst i. clear H.
  apply Z.ltb_ge in H1, H2, H3.
  unfold massNumber, chargeNumber.
  assert (Hne : (1000000000 + z * 10000 + a * 10 =? 2112)%Z = false)
    by (apply Z.eqb_neq; lia).
  rewrite Hne.
  assert (Hform : (Z.quot (Z.abs (1000000000 + z * 10000 + a * 10))
                          100000000 =? 10)%Z = true).
  { rewrite Z.abs_eq, Z.quot_div_nonneg by lia.
    apply Z.eqb_eq. symmetry. apply Z.div_unique with (r := (z * 10000 + a * 10)%Z); lia. }
  rewrite Hform.
  rewrite !Z.quot_div_nonneg, !Z.rem_mod_nonneg; try lia;
    try (apply Z.div_pos; lia).
  split.
  - replace (1000000000 + z * 10000 + a * 10)%Z
      with ((100000000 + z * 1000 + a) * 10)%Z by lia.
    rewrite Z.div_mul by lia.
    replace (100000000 + z * 1000 + a)%Z
      with (a + (100000 + z) * 1000)%Z by lia.
    rewrite Z.mod_add by lia. apply Z.mod_small. lia.
  - replace (1000000000 + z * 10000 + a * 10)%Z
      with (a * 10 + (100000 + z) * 10000)%Z by lia.
    rewrite Z.div_add by lia.
    rewrite (Z.div_small (a * 10) 10000) by lia.
    replace (0 + (100000 + z))%Z with (z + 100 * 1000)%Z by lia.
    rewrite Z.mod_add by lia. apply Z.mod_small. lia.
Qed.

Lemma nucleusId_valid a z :
  (0 <= z <= a)%Z -> (1 <= a)%Z -> exists i, nucleusId a z = Some i.
Proof.
  intros Hz Ha. unfold nucleusId.
  destruct (z <? 0)%Z eqn:H1; [apply Z.ltb_lt in H1; lia|].
  destruct (a <? 1)%Z eqn:H2; [apply Z.ltb_lt in H2; lia|].
  destruct (a <? z)%Z eqn:H3; [apply Z.ltb_lt in H3; lia|].
  eexists; reflexivity.
Qed.

(** The photon loop leaves the primary alone and appends photons only. *)
Lemma emitPhotons_appends ems l lf pos tag :
  forall c g c' g',
    emitPhotons ems l lf pos tag c g = (c', g') ->
    exists photons,
      extends c c' photons
      /\ Forall (fun s => ps_id (current s) = 22%Z) photons.
Proof.
  induction ems as [|em rest IH]; intros c g c' g' H; simpl in H.
  - inversion H; subst. exists []. split; [|constructor].
    unfold extends. rewrite app_nil_r. destruct c'; reflexivity.
  - destruct (Rgt_dec _ _).
    + apply IH in H. exact H.
    + apply IH in H. destruct H as [ph [Hext Hall]].
      exists (secOf c 22 (energy em * lf * (1 - (2 * g 1%nat - 1))) pos 1 tag
                    :: ph).
      split.
      * unfold extends in *. rewrite Hext.
        unfold addSecondary, set_secondaries, secOf; simpl.
        rewrite <- app_assoc. reflexivity.
      * constructor; [reflexivity|exact Hall].
Qed.

(** Runs the six fragment loops of [performInteraction] on the goal. *)
Ltac run_fragment_loops c ch g EpA pos tag c6 E6 :=
  let E0 := fresh "E" in
  assert (E0 : extends c c []);
  [unfold extends; rewrite app_nil_r; destruct c; reflexivity|];
  let c1 := fresh "c" in let R1 := fresh "R" in let E1 := fresh "E" in
  destruct (extends_addFragments c c [] (digit ch 100000) 1 0 _ EpA pos tag
              (fun n => g (S n)) eq_refl E0) as [c1 [R1 E1]];
  rewrite R1; clear R1 E0;
  let c2 := fresh "c" in let R2 := fresh "R" in let E2 := fresh "E" in
  destruct (extends_addFragments c c1 _ (digit ch 10000) 1 1 _ EpA pos tag
              (fun n => g (S n)) eq_refl E1) as [c2 [R2 E2]];
  rewrite R2; clear R2 E1 c1;
  let c3 := fresh "c" in let R3 := fresh "R" in let E3 := fresh "E" in
  destruct (extends_addFragments c c2 _ (digit ch 1000) 2 1 _ (EpA * 2) pos tag
              (fun n => g (S n)) eq_refl E2) as [c3 [R3 E3]];
  rewrite R3; clear R3 E2 c2;
  let c4 := fresh "c" in let R4 := fresh "R" in let E4 := fresh "E" in
  destruct (extends_addFragments c c3 _ (digit ch 100) 3 1 _ (EpA * 3) pos tag
              (fun n => g (S n)) eq_refl E3) as [c4 [R4 E4]];
  rewrite R4; clear R4 E3 c3;
  let c5 := fresh "c" in let R5 := fresh "R" in let E5 := fresh "E" in
  destruct (extends_addFragments c c4 _ (digit ch 10) 3 2 _ (EpA * 3) pos tag
              (fun n => g (S n)) eq_refl E4) as [c5 [R5 E5]];
  rewrite R5; clear R5 E4 c4;
  let R6 := fresh "R" in
  destruct (extends_addFragments c c5 _ (digit ch 1) 4 2 _ (EpA * 4) pos tag
              (fun n => g (S n)) eq_refl E5) as [c6 [R6 E6]];
  rewrite R6; clear R6 E5 c5.

(** Exposes the local variables of [performInteraction] in the goal. *)
Ltac open_performInteraction c ch :=
  unfold performInteraction, randomInterpolatedPosition, rand; cbv zeta;
  change (- digit ch 100000 - digit ch 10000 - 2 * digit ch 1000
          - 3 * digit ch 100 - 3 * digit ch 10 - 4 * digit ch 1)%Z
    with (channel_dA ch);
  change (- digit ch 10000 - digit ch 1000 - digit ch 100
          - 2 * digit ch 10 - 2 * digit ch 1)%Z
    with (channel_dZ ch).

(** The shape of a completed event: the fragments carry off exactly the
    mass number, charge and energy that the primary loses; photons, when
    enabled, are then added on top by [emitPhotons]. *)
Lemma performInteraction_shape (pd : t) (c : Candidate) (ch : Z) (g : Random)
      (c' : Candidate) (g' : Random) :
  (0 <= ch)%Z ->
  performInteraction nuclearMass pd c ch g = Ok c' g' ->
  let A := massNumber (ps_id (current c)) in
  let Zc := chargeNumber (ps_id (current c)) in
  exists frags newId,
    nucleusId (A + channel_dA ch) (Zc + channel_dZ ch) = Some newId
    /\ massNumber newId = (A + channel_dA ch)%Z
    /\ chargeNumber newId = (Zc + channel_dZ ch)%Z
    /\ (1 <= A + channel_dA ch)%Z
    /\ sumA frags = (- channel_dA ch)%Z
    /\ sumZ frags = (- channel_dZ ch)%Z
    /\ sumE frags = ps_energy (current c) / IZR A * IZR (- channel_dA ch)
    /\ (if havePhotons pd
        then emitPhotons (lookupPhoton (pdPhoton pd) (photonKey c ch))
               (photonBin nuclearMass (residual c ch newId frags))
               (ParticleStateOps.getLorentzFactor nuclearMass
                  (current (residual c ch newId frags)))
               (eventPosition c g) (interactionTag pd)
               (residual c ch newId frags) (fun n => g (S n)) = (c', g')
        else c' = residual c ch newId frags).
Proof.
  intros Hch. open_performInteraction c ch.
  set (pos := Vector3.add _ _).
  set (EpA := ps_energy (current c) / IZR (massNumber (ps_id (current c)))).
  set (tag := interactionTag pd).
  set (A := massNumber (ps_id (current c))).
  set (Zc := chargeNumber (ps_id (current c))).
  run_fragment_loops c ch g EpA pos tag c6 E6.
  unfold andThen.
  match type of E6 with extends _ _ ?l => set (frags := l) in * end.
  destruct (nucleusId (A + channel_dA ch) (Zc + channel_dZ ch))
    as [newId|] eqn:Hid; [|discriminate].
  pose proof (massNumber_bound (ps_id (current c))) as HA. fold A in HA.
  pose proof (digit_nonneg ch 100000 Hch ltac:(lia)) as D1.
  pose proof (digit_nonneg ch 10000 Hch ltac:(lia)) as D2.
  pose proof (digit_nonneg ch 1000 Hch ltac:(lia)) as D3.
  pose proof (digit_nonneg ch 100 Hch ltac:(lia)) as D4.
  pose proof (digit_nonneg ch 10 Hch ltac:(lia)) as D5.
  pose proof (digit_nonneg ch 1 Hch ltac:(lia)) as D6.
  assert (HdA : (A + channel_dA ch < 1000)%Z) by (unfold channel_dA; lia).
  destruct (nucleusId_massNumber _ _ _ HdA Hid) as [HmA HmZ].
  assert (HA1 : (1 <= A + channel_dA ch)%Z).
  { unfold nucleusId in Hid.
    destruct (_ <? 0)%Z; [discriminate|].
    destruct (A + channel_dA ch <? 1)%Z eqn:Hlt; [discriminate|].
    apply Z.ltb_ge in Hlt. exact Hlt. }
  assert (HsA : sumA frags = (- channel_dA ch)%Z).
  { unfold frags. rewrite !sumA_app, !sumA_repeat.
    unfold secOf; simpl current; simpl ps_id.
    rewrite !Z2Nat.id by assumption.
    change (massNumber 1000000010) with 1%Z.
    change (massNumber 1000010010) with 1%Z.
    change (massNumber 1000010020) with 2%Z.
    change (massNumber 1000010030) with 3%Z.
    change (massNumber 1000020030) with 3%Z.
    change (massNumber 1000020040) with 4%Z.
    unfold channel_dA. simpl sumA. lia. }
  assert (HsZ : sumZ frags = (- channel_dZ ch)%Z).
  { unfold frags. rewrite !sumZ_app, !sumZ_repeat.
    unfold secOf; simpl current; simpl ps_id.
    rewrite !Z2Nat.id by assumption.
    change (chargeNumber 1000000010) with 0%Z.
    change (chargeNumber 1000010010) with 1%Z.
    change (chargeNumber 1000010020) with 1%Z.
    change (chargeNumber 1000010030) with 1%Z.
    change (chargeNumber 1000020030) with 2%Z.
    change (chargeNumber 1000020040) with 2%Z.
    unfold channel_dZ. simpl sumZ. lia. }
  assert (HsE : sumE frags = EpA * IZR (- channel_dA ch)).
  { unfold frags. rewrite !sumE_app, !sumE_repeat.
    unfold secOf; simpl current; simpl ps_energy.
    rewrite !INR_IZR_INZ, !Z2Nat.id by assumption.
    unfold channel_dA. simpl sumE.
    rewrite opp_IZR, !minus_IZR, !mult_IZR, opp_IZR. lra. }
  clearbody frags.
  unfold extends in E6. subst c6.
  intros H. exists frags, newId.
  split; [reflexivity|].
  repeat (split; [assumption|]).
  destruct (havePhotons pd) eqn:Hph; unfold negb in H.
  - destruct (emitPhotons _ _ _ _ _ _ _) as [c7 g7] eqn:Hem.
    injection H as Hc Hg. subst c7 g7. reflexivity.
  - injection H as Hc _. subst c'. reflexivity.
Qed.

(** An event on a valid residual nuclide completes. *)
Lemma performInteraction_returns (pd : t) (c : Candidate) (ch : Z) (g : Random) :
  residual_valid c ch ->
  exists c' g', performInteraction nuclearMass pd c ch g = Ok c' g'.
Proof.
  intros [Hz Ha]. open_performInteraction c ch.
  set (pos := Vector3.add _ _).
  set (EpA := ps_energy (current c) / IZR (massNumber (ps_id (current c)))).
  set (tag := interactionTag pd).
  run_fragment_loops c ch g EpA pos tag c6 E6.
  unfold andThen.
  destruct (nucleusId_valid _ _ Hz Ha) as [i Hi]. rewrite Hi.
  destruct (negb (havePhotons pd)); [eexists; eexists; reflexivity|].
  destruct (emitPhotons _ _ _ _ _ _ _) as [c7 g7].
  eexists; eexists; reflexivity.
Qed.

Lemma performInteraction_accounts (pd : t) (c : Candidate) (ch : Z) (g : Random)
      (c' : Candidate) (g' : Random) :
  (0 <= ch)%Z ->
  performInteraction nuclearMass pd c ch g = Ok c' g' ->
  exists frags photons,
    secondaries c' = secondaries c ++ frags ++ photons
    /\ (massNumber (ps_id (current c')) + sumA frags
        = massNumber (ps_id (current c)))%Z
    /\ (chargeNumber (ps_id (current c')) + sumZ frags
        = chargeNumber (ps_id (current c)))%Z
    /\ ps_energy (current c') + sumE frags = ps_energy (current c)
    /\ Forall (fun s => ps_id (current s) = 22%Z) photons
    /\ (havePhotons pd = false -> photons = [])
    /\ created c' = current c.
Proof.
  intros Hch H.
  destruct (performInteraction_shape pd c ch g c' g' Hch H)
    as [frags [newId [Hid [HmA [HmZ [HA1 [HsA [HsZ [HsE Hrest]]]]]]]]].
  assert (HE : ps_energy (current c) / IZR (massNumber (ps_id (current c)))
               * IZR (massNumber (ps_id (current c)) + channel_dA ch)
               + sumE frags = ps_energy (current c)).
  { rewrite HsE, opp_IZR, plus_IZR. field.
    apply not_0_IZR.
    pose proof (digit_nonneg ch 100000 Hch ltac:(lia)).
    pose proof (digit_nonneg ch 10000 Hch ltac:(lia)).
    pose proof (digit_nonneg ch 1000 Hch ltac:(lia)).
    pose proof (digit_nonneg ch 100 Hch ltac:(lia)).
    pose proof (digit_nonneg ch 10 Hch ltac:(lia)).
    pose proof (digit_nonneg ch 1 Hch ltac:(lia)).
    unfold channel_dA in HA1. lia. }
  destruct (havePhotons pd) eqn:Hph.
  - apply emitPhotons_appends in Hrest. destruct Hrest as [photons [Hext Hall]].
    exists frags, photons. unfold extends in Hext. rewrite Hext.
    unfold set_secondaries, residual. simpl.
    rewrite HmA, HmZ, app_assoc.
    repeat split; try assumption; try lia.
  - exists frags, []. rewrite Hrest. unfold residual. simpl.
    rewrite HmA, HmZ, app_nil_r.
    repeat split; try assumption; try lia. constructor.
Qed.

Lemma addFragments_append c l n a z i e pos tag g :
  nucleusId a z = Some i ->
  addFragments n a z e pos tag (Ok (set_secondaries (secondaries c ++ l) c) g)
  = Ok (set_secondaries
          (secondaries c ++ (l ++ repeat (secOf c i e pos 1 tag) (Z.to_nat n)))
          c) g.
Proof.
  intros Hid.
  destruct (extends_addFragments c (set_secondaries (secondaries c ++ l) c) l
              n a z i e pos tag g Hid eq_refl) as [c2 [H1 H2]].
  rewrite H1. unfold extends in H2. rewrite H2. reflexivity.
Qed.

Lemma set_secondaries_nil c : c = set_secondaries (secondaries c ++ []) c.
Proof. rewrite app_nil_r. destruct c; reflexivity. Qed.

Lemma performInteraction_unfold (pd : t) (c : Candidate) (ch : Z) (g : Random) :
  performInteraction nuclearMass pd c ch g
  = let pos := eventPosition c g in
    let frags := fragmentsOf c ch pos (interactionTag pd) in
    match nucleusId (massNumber (ps_id (current c)) + channel_dA ch)
                    (chargeNumber (ps_id (current c)) + channel_dZ ch) with
    | None =>
        Raise (set_created (current c)
                 (set_secondaries (secondaries c ++ frags) c))
              (fun n => g (S n))
    | Some newId =>
        if havePhotons pd then
          let '(c', g') :=
            emitPhotons (lookupPhoton (pdPhoton pd) (photonKey c ch))
              (photonBin nuclearMass (residual c ch newId frags))
              (ParticleStateOps.getLorentzFactor nuclearMass
                 (current (residual c ch newId frags)))
              pos (interactionTag pd) (residual c ch newId frags)
              (fun n => g (S n)) in
          Ok c' g'
        else Ok (residual c ch newId frags) (fun n => g (S n))
    end.
Proof.
  unfold performInteraction, randomInterpolatedPosition, rand; cbv zeta.
  change (- digit ch 100000 - digit ch 10000 - 2 * digit ch 1000
          - 3 * digit ch 100 - 3 * digit ch 10 - 4 * digit ch 1)%Z
    with (channel_dA ch).
  change (- digit ch 10000 - digit ch 1000 - digit ch 100
          - 2 * digit ch 10 - 2 * digit ch 1)%Z
    with (channel_dZ ch).
  change (Vector3.add (ps_position (previous c))
            (Vector3.scale (Vector3.sub (ps_position (current c))
                                        (ps_position (previous c))) (g 0%nat)))
    with (eventPosition c g).
  set (pos := eventPosition c g).
  set (EpA := ps_energy (current c) / IZR (massNumber (ps_id (current c)))).
  set (tag := interactionTag pd).
  rewrite (set_secondaries_nil c) at 1.
  rewrite (addFragments_append c _ _ 1 0 1000000010) by reflexivity.
  rewrite (addFragments_append c _ _ 1 1 1000010010) by reflexivity.
  rewrite (addFragments_append c _ _ 2 1 1000010020) by reflexivity.
  rewrite (addFragments_append c _ _ 3 1 1000010030) by reflexivity.
  rewrite (addFragments_append c _ _ 3 2 1000020030) by reflexivity.
  rewrite (addFragments_append c _ _ 4 2 1000020040) by reflexivity.
  rewrite app_nil_l, <- !app_assoc.
  fold EpA. 
  change (repeat (secOf c 1000000010 EpA pos 1 tag)
                 (Z.to_nat (digit ch 100000))
          ++ repeat (secOf c 1000010010 EpA pos 1 tag)
                    (Z.to_nat (digit ch 10000))
          ++ repeat (secOf c 1000010020 (EpA * 2) pos 1 tag)
                    (Z.to_nat (digit ch 1000))
          ++ repeat (secOf c 1000010030 (EpA * 3) pos 1 tag)
                    (Z.to_nat (digit ch 100))
          ++ repeat (secOf c 1000020030 (EpA * 3) pos 1 tag)
                    (Z.to_nat (digit ch 10))
          ++ repeat (secOf c 1000020040 (EpA * 4) pos 1 tag)
                    (Z.to_nat (digit ch 1)))
    with (fragmentsOf c ch pos tag).
  unfold andThen.
  destruct (nucleusId _ _) as [newId|]; [|reflexivity].
  destruct (havePhotons pd); reflexivity.
Qed.

Lemma emitPhotons_spec ems l lf pos tag :
  forall c g c' g',
    emitPhotons ems l lf pos tag c g = (c', g') ->
    exists photons,
      extends c c' photons
      /\ (length photons <= length ems)%nat
      /\ (forall n, g' n = g (n + length ems + length photons)%nat)
      /\ Forall (fun s => ps_id (current s) = 22%Z
                          /\ ps_position (current s) = pos
                          /\ tagOrigin s = tag
                          /\ exists em k,
                               In em ems
                               /\ ps_energy (current s)
                                  = energy em * lf * (1 - (2 * g k - 1)))
                photons.
Proof.
  induction ems as [|em rest IH]; intros c g c' g' H; simpl in H.
  - inversion H; subst. exists []. split; [apply set_secondaries_nil|].
    split; [apply Nat.le_refl|]. split; [|constructor].
    intros n. simpl. f_equal. lia.
  - destruct (Rgt_dec _ _).
    + apply IH in H. destruct H as [ph [Hext [Hlen [Htape Hall]]]].
      exists ph. split; [exact Hext|]. split; [simpl; lia|].
      split.
      * intros j. rewrite Htape. f_equal. simpl. lia.
      * eapply Forall_impl; [|exact Hall]. cbv beta.
        intros s [H1 [H2 [H3 [em' [k [Hin HE]]]]]].
        repeat split; try assumption.
        exists em', (S k). split; [right; exact Hin|exact HE].
    + apply IH in H. destruct H as [ph [Hext [Hlen [Htape Hall]]]].
      exists (secOf c 22 (energy em * lf * (1 - (2 * g 1%nat - 1))) pos 1 tag
                    :: ph).
      split.
      * unfold extends in *. rewrite Hext.
        unfold addSecondary, set_secondaries, secOf; simpl.
        rewrite <- app_assoc. reflexivity.
      * split; [simpl; lia|]. split.
        -- intros j. rewrite Htape. f_equal. simpl. lia.
        -- constructor.
           ++ repeat split. exists em, 1%nat. split; [left; reflexivity|].
              reflexivity.
           ++ eapply Forall_impl; [|exact Hall]. cbv beta.
              intros s [H1 [H2 [H3 [em' [k [Hin HE]]]]]].
              repeat split; try assumption.
              exists em', (S (S k)). split; [right; exact Hin|exact HE].
Qed.

Lemma photons_carry_no_nucleons l :
  Forall (fun s => ps_id (current s) = 22%Z) l ->
  sumA l = 0%Z /\ sumZ l = 0%Z.
Proof.
  induction 1 as [|s l Hs _ [IHA IHZ]]; [split; reflexivity|].
  cbn [sumA sumZ fold_right]. fold (sumA l). fold (sumZ l).
  rewrite Hs, IHA, IHZ. split; reflexivity.
Qed.

(** The balance of a completed event over everything it appends. *)
Lemma performInteraction_balance (pd : t) (c : Candidate) (ch : Z) (g : Random)
      (c' : Candidate) (g' : Random) :
  (0 <= ch)%Z ->
  performInteraction nuclearMass pd c ch g = Ok c' g' ->
  exists frags photons,
    secondaries c' = secondaries c ++ frags ++ photons
    /\ (massNumber (ps_id (current c')) + sumA (frags ++ photons)
        = massNumber (ps_id (current c)))%Z
    /\ (chargeNumber (ps_id (current c')) + sumZ (frags ++ photons)
        = chargeNumber (ps_id (current c)))%Z
    /\ ps_energy (current c') + sumE (frags ++ photons)
       = ps_energy (current c) + sumE photons
    /\ Forall (boosted_line nuclearMass pd c ch c' g) photons
    /\ (havePhotons pd = false -> photons = [])
    /\ created c' = current c.
Proof.
  intros Hch H.
  destruct (performInteraction_shape pd c ch g c' g' Hch H)
    as [frags [newId [Hid [HmA [HmZ [HA1 [HsA [HsZ [HsE Hrest]]]]]]]]].
  assert (HE : ps_energy (current c) / IZR (massNumber (ps_id (current c)))
               * IZR (massNumber (ps_id (current c)) + channel_dA ch)
               + sumE frags = ps_energy (current c)).
  { rewrite HsE, opp_IZR, plus_IZR. field.
    apply not_0_IZR.
    pose proof (digit_nonneg ch 100000 Hch ltac:(lia)).
    pose proof (digit_nonneg ch 10000 Hch ltac:(lia)).
    pose proof (digit_nonneg ch 1000 Hch ltac:(lia)).
    pose proof (digit_nonneg ch 100 Hch ltac:(lia)).
    pose proof (digit_nonneg ch 10 Hch ltac:(lia)).
    pose proof (digit_nonneg ch 1 Hch ltac:(lia)).
    unfold channel_dA in HA1. lia. }
  assert (Hev : exists photons,
             extends (residual c ch newId frags) c' photons
             /\ Forall (boosted_line nuclearMass pd c ch c' g) photons
             /\ (havePhotons pd = false -> photons = [])).
  { destruct (havePhotons pd) eqn:Hph.
    - destruct (emitPhotons_spec _ _ _ _ _ _ _ _ _ Hrest)
        as [ph [Hext [_ [_ Hall]]]].
      exists ph. split; [exact Hext|]. split; [|discriminate].
      assert (Hcur : current c' = current (residual c ch newId frags))
        by (unfold extends in Hext; rewrite Hext; reflexivity).
      eapply Forall_impl; [|exact Hall]. cbv beta.
      intros s [H1 [_ [_ [em [k [Hin HEs]]]]]].
      split; [exact H1|]. exists em, (S k). split; [exact Hin|].
      rewrite Hcur. exact HEs.
    - exists []. split; [rewrite Hrest; apply set_secondaries_nil|].
      split; [constructor|reflexivity]. }
  destruct Hev as [photons [Hext [Hall Hoff]]].
  assert (H22 : Forall (fun s => ps_id (current s) = 22%Z) photons).
  { eapply Forall_impl; [|exact Hall]. intros s [Hs _]. exact Hs. }
  destruct (photons_carry_no_nucleons photons H22) as [HA0 HZ0].
  assert (Hsec : secondaries c' = secondaries c ++ frags ++ photons).
  { unfold extends in Hext. rewrite Hext.
    unfold set_secondaries, residual. cbn [secondaries].
    rewrite app_assoc. reflexivity. }
  assert (Hcur : current c'
                 = mkParticleState newId
                     (ps_energy (current c)
                      / IZR (massNumber (ps_id (current c)))
                      * IZR (massNumber (ps_id (current c)) + channel_dA ch))
                     (ps_position (current c)) (ps_direction (current c)))
    by (unfold extends in Hext; rewrite Hext; reflexivity).
  assert (Hcre : created c' = current c)
    by (unfold extends in Hext; rewrite Hext; reflexivity).
  exists frags, photons.
  rewrite Hcur. cbn [ps_id ps_energy].
  rewrite sumA_app, sumZ_app, sumE_app, HA0, HZ0, HmA, HmZ.
  repeat split; try assumption; try lia; lra.
Qed.

End Conservation.

Section PhotonLines.

Import PhotoDisintegration ParticleID CandidateOps RandomOps.

Lemma emitPhotons_single_accept em l lf pos tag c (g : Random) :
  ~ g 0%nat > Interp.at_ (emissionProbability em) (Z.to_nat l) ->
  emitPhotons [em] l lf pos tag c g
  = (addSecondary 22 (energy em * lf * (1 - (2 * g 1%nat - 1))) pos 1 tag c,
     fun n => g (S (S n))).
Proof.
  intros H. unfold emitPhotons, rand.
  destruct (Rgt_dec _ _); [contradiction|reflexivity].
Qed.

Lemma mass_energy_pos : 0 < Units.mass_proton * Units.c_squared.
Proof. unfold Units.mass_proton, Units.c_squared, Units.c_light. lra. Qed.

Lemma helium4_residual_valid : residual_valid helium4 100000.
Proof. unfold residual_valid. vm_compute. intuition discriminate. Qed.

End PhotonLines.

(** The repository's test "updateParticleParentProperties" (issue 204) on
    the model: after one alpha emission [created] holds the Fe-56 the
    event started from; after a second one it holds the Cr-52 in
    between. *)
Example created_follows_the_last_event :
  forall c1 g1 c2 g2,
    PhotoDisintegration.performInteraction sample_mass pd_quiet iron56 1
                                           tape_half
    = PhotoDisintegration.Ok c1 g1 ->
    PhotoDisintegration.performInteraction sample_mass pd_quiet c1 1 g1
    = PhotoDisintegration.Ok c2 g2 ->
    ps_id (created c1) = 1000260560%Z /\ ps_id (created c2) = 1000240520%Z.
Proof.
  intros c1 g1 c2 g2 H1 H2.
  destruct (performInteraction_shape sample_mass pd_quiet iron56 1 tape_half
              c1 g1 ltac:(lia) H1)
    as [frags [newId [Hid [_ [_ [_ [_ [_ [_ Hc1]]]]]]]]].
  change (PhotoDisintegration.havePhotons pd_quiet) with false in Hc1.
  cbv iota in Hc1.
  assert (HnewId : newId = 1000240520%Z) by (vm_compute in Hid; congruence).
  subst newId.
  destruct (performInteraction_accounts sample_mass pd_quiet c1 1 g1 c2 g2
              ltac:(lia) H2) as [_ [_ [_ [_ [_ [_ [_ [_ Hcr]]]]]]]].
  rewrite Hcr, Hc1. split; reflexivity.
Qed.

(** C1, as stated, fails in two ways.  With photon emission enabled, a
    He-4 nucleus that sheds a neutron and emits the 1 MeV line ends with
    a summed energy that exceeds the energy before the event: the
    photon's energy is added to the secondaries and taken from nobody.
    And an event whose channel overdraws the nucleus does not complete:
    for He-4 and channel 2 (two alpha particles) both fragments are
    attached, then [nucleusId(-4, -2)] raises and the error is passed on,
    which leaves the unchanged He-4 with secondaries of 8 nucleons. *)
Lemma event_totals_unbalanced :
  (exists c' g',
      PhotoDisintegration.performInteraction sample_mass pd_lines helium4
                                             100000 tape_half
      = PhotoDisintegration.Ok c' g'
      /\ ps_energy (current c') + sumE (secondaries c')
         = ps_energy (current helium4) + 1000000 * Units.eV * 10 ^ 9)
  /\ (exists c' g',
        PhotoDisintegration.performInteraction sample_mass pd_quiet helium4
                                               2 tape_half
        = PhotoDisintegration.Raise c' g'
        /\ ParticleID.massNumber (ps_id (current helium4)) = 4%Z
        /\ (ParticleID.massNumber (ps_id (current c')) + sumA (secondaries c')
            = 12)%Z).
Proof.
  split.
  { destruct (performInteraction_returns sample_mass pd_lines helium4 100000
                tape_half helium4_residual_valid) as [c' [g' H]].
    exists c', g'. split; [exact H|].
    destruct (performInteraction_shape sample_mass pd_lines helium4 100000
                tape_half c' g' ltac:(lia) H)
      as [frags [newId [Hid [_ [_ [_ [_ [_ [HsE Hrest]]]]]]]]].
    assert (HnewId : newId = 1000020030%Z).
    { vm_compute in Hid. congruence. }
    subst newId. clear Hid.
    change (PhotoDisintegration.havePhotons pd_lines) with true in Hrest.
    cbv iota in Hrest.
    change (PhotoDisintegration.lookupPhoton
              (PhotoDisintegration.pdPhoton pd_lines)
              (photonKey helium4 100000)) with [gamma_line] in Hrest.
    assert (Hlf : ParticleStateOps.getLorentzFactor sample_mass
                    (current (residual helium4 100000 1000020030 frags))
                  = 10 ^ 9).
    { unfold ParticleStateOps.getLorentzFactor, residual, sample_mass.
      cbn [current ps_energy ps_id helium4].
      change (ParticleID.massNumber 1000020040) with 4%Z.
      change (ParticleID.massNumber 1000020030) with 3%Z.
      change (channel_dA 100000) with (-1)%Z.
      change (4 + -1)%Z with 3%Z.
      pose proof mass_energy_pos as Hm. unfold Units.c_squared in *.
      field. unfold Units.mass_proton, Units.c_light. lra. }
    assert (Hbin : photonBin sample_mass
                     (residual helium4 100000 1000020030 frags) = 125%Z).
    { unfold photonBin. rewrite Hlf.
      change (redshift (residual helium4 100000 1000020030 frags)) with 0.
      replace (10 ^ 9 * (1 + 0)) with (10 ^ 9) by lra.
      rewrite log10_pow10.
      unfold PhotoDisintegration.lgmin, PhotoDisintegration.lgmax,
        PhotoDisintegration.nlg.
      rewrite !INR_IZR_INZ.
      change (Z.of_nat 9) with 9%Z. change (Z.of_nat 251) with 251%Z.
      replace ((9 - 4) / (14 - 4) * (251 - 1)) with (IZR 125) by lra.
      apply round_IZR. }
    rewrite Hbin, Hlf in Hrest.
    rewrite emitPhotons_single_accept in Hrest.
    - apply (f_equal fst) in Hrest. cbn [fst] in Hrest. rewrite <- Hrest.
      unfold CandidateOps.addSecondary, CandidateOps.set_secondaries, residual.
      cbn [current secondaries ps_energy].
      rewrite !sumE_app. cbn [sumE fold_right current ps_energy app].
      change (secondaries helium4) with (@nil Candidate).
      cbn [sumE fold_right].
      rewrite HsE.
      change (ParticleID.massNumber (ps_id (current helium4))) with 4%Z.
      change (channel_dA 100000) with (-1)%Z.
      change (4 + -1)%Z with 3%Z. change (- -1)%Z with 1%Z.
      unfold gamma_line, PhotoDisintegration.energy, tape_half. lra.
    - change (Interp.at_ (PhotoDisintegration.emissionProbability gamma_line)
                         (Z.to_nat 125)) with 1.
      unfold tape_half. lra.
  }
  { rewrite performInteraction_unfold. cbv zeta.
    change (ParticleID.nucleusId
              (ParticleID.massNumber (ps_id (current helium4)) + channel_dA 2)
              (ParticleID.chargeNumber (ps_id (current helium4))
               + channel_dZ 2))
      with (@None Z).
    cbv iota. eexists; eexists. split; [reflexivity|].
    split; [reflexivity|].
    unfold fragmentsOf. cbv zeta.
    change (Z.to_nat (ParticleID.digit 2 100000)) with 0%nat.
    change (Z.to_nat (ParticleID.digit 2 10000)) with 0%nat.
    change (Z.to_nat (ParticleID.digit 2 1000)) with 0%nat.
    change (Z.to_nat (ParticleID.digit 2 100)) with 0%nat.
    change (Z.to_nat (ParticleID.digit 2 10)) with 0%nat.
    change (Z.to_nat (ParticleID.digit 2 1)) with 2%nat.
    cbn [repeat app CandidateOps.set_created CandidateOps.set_secondaries
         current secondaries helium4].
    unfold secOf. cbn [sumA fold_right current ps_id]. reflexivity. }
Qed.

(** C1, amended.  A channel code is a combination of decimal digits, a
    natural number [code].  An event on a nucleus whose residual nuclide
    exists completes, that is, [performInteraction] returns and no
    exception leaves it.  Every event that completes appends first the
    nuclear fragments and then the photons, and the mass number and the
    charge summed over the updated primary and ALL the secondaries it
    created equal the values of the primary before the event, with or
    without photon emission.  The energy summed over the updated primary
    and all new secondaries equals the energy before the event plus the
    energies of the photons: each photon (id 22) carries
    E_line x gamma x (1 - cos theta) for a gamma line tabulated for the
    transition, gamma being the Lorentz factor of the residual nucleus,
    and nobody pays for it.  Without photon emission there are no
    photons, so that the energy is conserved as well.  [created] holds
    the state before the event. *)
Theorem disintegration_conserves :
  forall (nuclearMass : Z -> R) (pd : PhotoDisintegration.t) (c : Candidate)
         (code : N) (g : Random),
    (residual_valid c (Z.of_N code) ->
     exists c' g',
       PhotoDisintegration.performInteraction nuclearMass pd c (Z.of_N code) g
       = PhotoDisintegration.Ok c' g')
    /\ (forall c' g',
           PhotoDisintegration.performInteraction nuclearMass pd c
                                                  (Z.of_N code) g
           = PhotoDisintegration.Ok c' g' ->
           exists frags photons,
             secondaries c' = secondaries c ++ frags ++ photons
             /\ (ParticleID.massNumber (ps_id (current c'))
                 + sumA (frags ++ photons)
                 = ParticleID.massNumber (ps_id (current c)))%Z
             /\ (ParticleID.chargeNumber (ps_id (current c'))
                 + sumZ (frags ++ photons)
                 = ParticleID.chargeNumber (ps_id (current c)))%Z
             /\ ps_energy (current c') + sumE (frags ++ photons)
                = ps_energy (current c) + sumE photons
             /\ Forall (boosted_line nuclearMass pd c (Z.of_N code) c' g)
                       photons
             /\ (PhotoDisintegration.havePhotons pd = false -> photons = [])
             /\ created c' = current c).
Proof.
  intros mass pd c code g. split.
  - intros Hv. apply performInteraction_returns. exact Hv.
  - intros c' g' H.
    exact (performInteraction_balance mass pd c (Z.of_N code) g c' g'
             (N2Z.is_nonneg code) H).
Qed.

Lemma disintegration_conserves_witness :
  exists c' g',
    PhotoDisintegration.performInteraction sample_mass pd_quiet helium4
                                           100000 tape_half
    = PhotoDisintegration.Ok c' g'.
Proof.
  apply (proj1 (disintegration_conserves sample_mass pd_quiet helium4 100000
                  tape_half)).
  unfold residual_valid. vm_compute. intuition discriminate.
Defined.

(** ** Continuous loss by pair production *)

Section PairProduction.

Import ElectronPairProduction ParticleID CandidateOps RandomOps.

Variable nuclearMass : Z -> R.

Lemma epp_lossLength_uncharged epp id lf z :
  chargeNumber id = 0%Z -> lossLength nuclearMass epp id lf z = Dbl.DBL_MAX.
Proof.
  intros H. unfold lossLength. rewrite H.
  destruct (Req_dec_T 0 0) as [_|Hn]; [reflexivity|contradiction].
Qed.

Lemma epp_lossLength_below epp id lf z :
  lf * (1 + z) < Interp.front (tabLorentzFactor epp) ->
  lossLength nuclearMass epp id lf z = Dbl.DBL_MAX.
Proof.
  intros H. unfold lossLength.
  destruct (Req_dec_T _ 0); [reflexivity|].
  destruct (Rlt_dec _ _); [reflexivity|contradiction].
Qed.

Lemma epp_lossLength_above epp id lf z :
  chargeNumber id <> 0%Z ->
  Interp.front (tabLorentzFactor epp) <= lf * (1 + z) ->
  Interp.back (tabLorentzFactor epp) <= lf * (1 + z) ->
  lossLength nuclearMass epp id lf z
  = 1 / (Interp.back (tabLossRate epp)
         * Dbl.pow (lf * (1 + z) / Interp.back (tabLorentzFactor epp)) (- 0.6)
         * epp_scaling nuclearMass epp id z).
Proof.
  intros HZ Hf Hb. unfold lossLength, epp_scaling.
  destruct (Req_dec_T _ 0) as [H0|_].
  { apply eq_IZR_R0 in H0. contradiction. }
  destruct (Rlt_dec _ _) as [H1|_]; [lra|].
  destruct (Rlt_dec _ _) as [H2|_]; [lra|].
  reflexivity.
Qed.

Lemma epp_lossLength_inside epp id lf z :
  chargeNumber id <> 0%Z ->
  Interp.front (tabLorentzFactor epp) <= lf * (1 + z) ->
  lf * (1 + z) < Interp.back (tabLorentzFactor epp) ->
  lossLength nuclearMass epp id lf z
  = 1 / (Interp.interpolate (lf * (1 + z)) (tabLorentzFactor epp)
                            (tabLossRate epp)
         * epp_scaling nuclearMass epp id z).
Proof.
  intros HZ Hf Hb. unfold lossLength, epp_scaling.
  destruct (Req_dec_T _ 0) as [H0|_].
  { apply eq_IZR_R0 in H0. contradiction. }
  destruct (Rlt_dec _ _) as [H1|_]; [lra|].
  destruct (Rlt_dec _ _) as [_|H2]; [|lra].
  reflexivity.
Qed.

(** *** Linear interpolation on a strictly increasing grid *)

Lemma upper_bound_between (X : list R) :
  StronglySorted Rlt X ->
  forall i x, (S i < length X)%nat ->
              Interp.at_ X i <= x < Interp.at_ X (S i) ->
              Interp.upper_bound x X = S i.
Proof.
  unfold Interp.at_.
  induction 1 as [|a t Hs IH Hall]; intros i x Hi Hx; simpl in Hi; [lia|].
  destruct i as [|i].
  - simpl in Hx. simpl.
    destruct (Rlt_dec x a); [lra|].
    destruct t as [|b t]; [simpl in Hi; lia|].
    simpl in Hx. simpl. destruct (Rlt_dec x b); [reflexivity|lra].
  - simpl in Hx. simpl.
    assert (Ha : a < nth i t 0).
    { rewrite Forall_forall in Hall. apply Hall. apply nth_In. lia. }
    destruct (Rlt_dec x a); [lra|].
    rewrite (IH i x); [reflexivity|lia|exact Hx].
Qed.

Lemma sorted_nth_lt (X : list R) :
  StronglySorted Rlt X ->
  forall i j, (i < j < length X)%nat -> nth i X 0 < nth j X 0.
Proof.
  induction 1 as [|a t Hs IH Hall]; intros i j Hij; simpl in Hij; [lia|].
  destruct j as [|j]; [lia|]. destruct i as [|i]; simpl.
  - rewrite Forall_forall in Hall. apply Hall. apply nth_In. lia.
  - apply IH. lia.
Qed.

Lemma last_nth (X : list R) :
  Interp.back X = nth (length X - 1) X 0.
Proof.
  unfold Interp.back. induction X as [|a t IH]; [reflexivity|].
  destruct t as [|b t]; [reflexivity|].
  change (last (a :: b :: t) 0) with (last (b :: t) 0). rewrite IH.
  simpl. rewrite Nat.sub_0_r. reflexivity.
Qed.

(** Between two neighbouring samples [interpolate] is the chord; at a
    sample it returns the tabulated value. *)
Lemma interpolate_between (X Y : list R) i x :
  StronglySorted Rlt X -> (S i < length X)%nat ->
  Interp.at_ X i <= x < Interp.at_ X (S i) ->
  Interp.interpolate x X Y
  = Interp.at_ Y i + (x - Interp.at_ X i)
                     * (Interp.at_ Y (S i) - Interp.at_ Y i)
                     / (Interp.at_ X (S i) - Interp.at_ X i).
Proof.
  intros Hs Hi Hx. unfold Interp.interpolate.
  rewrite (upper_bound_between X Hs i x Hi Hx).
  change (Nat.eqb (S i) 0) with false. cbv iota.
  destruct (Nat.eqb (S i) (length X)) eqn:He.
  - apply Nat.eqb_eq in He. lia.
  - simpl. rewrite Nat.sub_0_r. reflexivity.
Qed.

Lemma interpolate_grid (X Y : list R) i :
  StronglySorted Rlt X -> (S i < length X)%nat ->
  Interp.interpolate (Interp.at_ X i) X Y = Interp.at_ Y i.
Proof.
  intros Hs Hi. rewrite (interpolate_between X Y i); try assumption.
  - pose proof (sorted_nth_lt X Hs i (S i) ltac:(lia)) as Hlt.
    unfold Interp.at_ in *. field. lra.
  - pose proof (sorted_nth_lt X Hs i (S i) ltac:(lia)) as Hlt.
    unfold Interp.at_ in *. lra.
Qed.

Lemma Rpower_1_base y : Rpower 1 y = 1.
Proof. unfold Rpower. rewrite ln_1, Rmult_0_r. apply exp_0. Qed.

(** *** The pair loop *)

Lemma pair_quantum_pos : 0 < pair_quantum.
Proof.
  unfold pair_quantum, Dbl.pow, Rpower, Units.eV.
  pose proof (exp_pos (6.95 * ln 10)). nra.
Qed.

Lemma pairLoop_returns (epp : t) :
  forall (n fuel : nat) dE i c g,
    (n <= fuel)%nat -> draws_nonneg g -> dE <= INR n * pair_quantum ->
    exists c' g',
      pairLoop epp fuel dE i c g = Some (c', g')
      /\ current c' = current c /\ nextStep c' = nextStep c
      /\ previous c' = previous c /\ created c' = created c
      /\ redshift c' = redshift c /\ currentStep c' = currentStep c.
Proof.
  induction n as [|n IH]; intros fuel dE i c g Hfuel Hg HdE.
  - simpl in HdE. rewrite Rmult_0_l in HdE.
    destruct fuel; simpl; (destruct (Rgt_dec dE 0); [lra|]);
      exists c, g; repeat split; reflexivity.
  - destruct fuel as [|fuel]; [lia|].
    simpl. destruct (Rgt_dec dE 0) as [Hpos|Hneg].
    2:{ exists c, g; repeat split; reflexivity. }
    set (j := lower_bound _ _).
    set (Ee := Dbl.pow 10 (6.95 + (INR j + g 1%nat) * 0.1) * Units.eV).
    assert (HEe : pair_quantum <= 2 * Ee).
    { unfold pair_quantum, Ee, Dbl.pow.
      assert (Rpower 10 6.95 <= Rpower 10 (6.95 + (INR j + g 1%nat) * 0.1)).
      { apply Rle_Rpower; [lra|].
        pose proof (pos_INR j). pose proof (Hg 1%nat). nra. }
      unfold Units.eV. nra. }
    assert (Hstep : dE - 2 * Ee <= INR n * pair_quantum).
    { rewrite S_INR in HdE. lra. }
    destruct (Rgt_dec (2 * Ee) dE) as [Hbig|Hsmall].
    + destruct (Rgt_dec _ _).
      * exists c, (fun n0 => g (S (S (S n0)))); repeat split; reflexivity.
      * edestruct (IH fuel (dE - 2 * Ee) i) as [c' [g' [H1 H2]]];
          [lia| |exact Hstep|].
        2:{ exists c', g'. split; [exact H1|]. exact H2. }
        intros k. apply Hg.
    + edestruct (IH fuel (dE - 2 * Ee) i) as [c' [g' [H1 H2]]];
        [lia| |exact Hstep|].
      2:{ exists c', g'. split; [exact H1|]. exact H2. }
      intros k. apply Hg.
Qed.


Lemma fuel_for_budget (dE : R) : exists n, dE <= INR n * pair_quantum.
Proof.
  pose proof pair_quantum_pos as Hq.
  destruct (archimed (dE / pair_quantum)) as [Hup _].
  exists (Z.to_nat (up (dE / pair_quantum))).
  destruct (Z_lt_le_dec (up (dE / pair_quantum)) 0) as [Hneg|Hpos].
  - assert (H : IZR (up (dE / pair_quantum)) < 0) by (apply IZR_lt; exact Hneg).
    assert (Hd : dE / pair_quantum < 0) by lra.
    assert (dE < 0).
    { replace dE with (dE / pair_quantum * pair_quantum) by (field; lra). nra. }
    pose proof (pos_INR (Z.to_nat (up (dE / pair_quantum)))). nra.
  - rewrite INR_IZR_INZ, Z2Nat.id by exact Hpos.
    replace dE with (dE / pair_quantum * pair_quantum) at 1 by (field; lra).
    nra.
Qed.

Lemma epp_process_skip (epp : t) (fuel : nat) (c : Candidate) (g : Random) :
  isNucleus (ps_id (current c)) = false
  \/ Dbl.DBL_MAX <= epp_lossLength nuclearMass epp c ->
  process nuclearMass epp fuel c g = Some (c, g).
Proof.
  intros H. rewrite process_drops_block. unfold process_without_radial_block.
  destruct (isNucleus (ps_id (current c))) eqn:Hn; [|reflexivity].
  destruct H as [H|H]; [discriminate|].
  cbv zeta. unfold negb, getRedshift.
  fold (epp_lossLength nuclearMass epp c).
  destruct (Rge_dec _ _) as [_|Hlt]; [reflexivity|]. lra.
Qed.

Lemma epp_process_applies (epp : t) (c : Candidate) (g : Random) :
  isNucleus (ps_id (current c)) = true ->
  epp_lossLength nuclearMass epp c < Dbl.DBL_MAX ->
  draws_nonneg g ->
  exists N, forall fuel, (N <= fuel)%nat ->
    exists c' g',
      process nuclearMass epp fuel c g = Some (c', g')
      /\ current c'
         = ParticleStateOps.setLorentzFactor nuclearMass
             (ParticleStateOps.getLorentzFactor nuclearMass (current c)
              * (1 - epp_loss nuclearMass epp c)) (current c)
      /\ nextStep c' = Rmin (nextStep c)
                            (limit epp * epp_lossLength nuclearMass epp c)
      /\ (haveElectrons epp = false -> secondaries c' = secondaries c /\ g' = g).
Proof.
  intros Hn Hlen Hg.
  destruct (fuel_for_budget (ps_energy (current c) * epp_loss nuclearMass epp c))
    as [N HN].
  exists N. intros fuel Hfuel.
  rewrite process_drops_block. unfold process_without_radial_block.
  rewrite Hn. cbv zeta. unfold negb, getRedshift, getCurrentStep.
  fold (epp_lossLength nuclearMass epp c).
  replace (epp_lossLength nuclearMass epp c / 1)
    with (epp_lossLength nuclearMass epp c) by field.
  fold (epp_loss nuclearMass epp c).
  destruct (Rge_dec _ _) as [Hge|_]; [lra|].
  destruct (haveElectrons epp).
  - destruct (pairLoop_returns epp N fuel
                (ps_energy (current c) * epp_loss nuclearMass epp c)
                (Z.to_nat (Z.min (Z.max (Dbl.round
                   ((Dbl.log10 (ParticleStateOps.getLorentzFactor nuclearMass
                                  (current c)) - 6.05) * 10)) 0) 69))
                c g Hfuel Hg HN)
      as [c1 [g1 [Hloop [Hcur [Hnext _]]]]].
    rewrite Hloop. simpl option_map.
    eexists; eexists; split; [reflexivity|].
    unfold limitNextStep; simpl. rewrite Hcur, Hnext.
    repeat split; discriminate.
  - eexists; eexists; split; [reflexivity|].
    unfold limitNextStep; simpl. repeat split; reflexivity.
Qed.

Lemma setLorentzFactor_energy lf (p : ParticleState) :
  nuclearMass (ps_id p) * Units.c_squared <> 0 ->
  ps_energy (ParticleStateOps.setLorentzFactor nuclearMass
               (ParticleStateOps.getLorentzFactor nuclearMass p * lf) p)
  = ps_energy p * lf
  /\ ParticleStateOps.getLorentzFactor nuclearMass
       (ParticleStateOps.setLorentzFactor nuclearMass
          (ParticleStateOps.getLorentzFactor nuclearMass p * lf) p)
     = ParticleStateOps.getLorentzFactor nuclearMass p * lf.
Proof.
  intros Hm. unfold ParticleStateOps.setLorentzFactor,
    ParticleStateOps.getLorentzFactor, ParticleStateOps.setEnergy; simpl.
  assert (Hc : Units.c_squared <> 0 /\ nuclearMass (ps_id p) <> 0)
    by (split; intros H0; apply Hm; rewrite H0; ring).
  split; field; exact Hc.
Qed.

(** On the table of a proton at redshift 0 the loss length at sample [i]
    is the inverse of the tabulated rate. *)
Lemma epp_lossLength_grid (epp : t) (c : Candidate) (i : nat) :
  chargeNumber (ps_id (current c)) = 1%Z ->
  nuclearMass (ps_id (current c)) = Units.mass_proton ->
  redshift c = 0 ->
  getRedshiftScaling (photonField epp) 0 = 1 ->
  StronglySorted Rlt (tabLorentzFactor epp) ->
  0 < Interp.front (tabLorentzFactor epp) ->
  length (tabLossRate epp) = length (tabLorentzFactor epp) ->
  (i < length (tabLorentzFactor epp))%nat ->
  ParticleStateOps.getLorentzFactor nuclearMass (current c)
  = Interp.at_ (tabLorentzFactor epp) i ->
  epp_lossLength nuclearMass epp c = 1 / Interp.at_ (tabLossRate epp) i.
Proof.
  intros HZ Hm Hz Hs Hsort Hpos Hlen Hi Hlf.
  unfold epp_lossLength. rewrite Hlf, Hz.
  set (X := tabLorentzFactor epp) in *. set (Y := tabLossRate epp) in *.
  assert (Hfront : Interp.front X <= Interp.at_ X i).
  { unfold Interp.front, Interp.at_.
    destruct i as [|i].
    - destruct X; simpl; lra.
    - pose proof (sorted_nth_lt X Hsort 0 (S i) ltac:(lia)) as H.
      destruct X; simpl in *; lra. }
  assert (Hscale : epp_scaling nuclearMass epp (ps_id (current c)) 0 = 1).
  { unfold epp_scaling, Dbl.pow_integer3. rewrite HZ, Hm, Hs.
    unfold Units.mass_proton. field; lra. }
  assert (HZ0 : chargeNumber (ps_id (current c)) <> 0%Z) by lia.
  destruct (Nat.eq_dec (S i) (length X)) as [Hlast|Hint].
  - assert (Hb : Interp.back X = Interp.at_ X i).
    { rewrite last_nth. unfold Interp.at_. f_equal. lia. }
    assert (HbY : Interp.back Y = Interp.at_ Y i).
    { rewrite last_nth. unfold Interp.at_. f_equal. lia. }
    rewrite epp_lossLength_above; try assumption; fold X Y.
    + rewrite Hscale, Hb, HbY.
      replace (Interp.at_ X i * (1 + 0) / Interp.at_ X i) with 1
        by (field; lra).
      unfold Dbl.pow. rewrite Rpower_1_base. f_equal. lra.
    + lra.
    + rewrite Hb. lra.
  - assert (Hlt : Interp.at_ X i < Interp.back X).
    { rewrite last_nth. apply sorted_nth_lt; [exact Hsort|lia]. }
    rewrite epp_lossLength_inside; try assumption; fold X Y.
    + rewrite Hscale.
      replace (Interp.at_ X i * (1 + 0)) with (Interp.at_ X i) by lra.
      rewrite interpolate_grid; [f_equal; lra|exact Hsort|lia].
    + lra.
    + lra.
Qed.

End PairProduction.

(** ** The discrete-event loop of photo-disintegration *)

Section DiscreteEvents.

Import PhotoDisintegration ParticleID CandidateOps RandomOps.

Variable nuclearMass : Z -> R.

Lemma processLoop_skip (pd : t) (fuel : nat) (step : R) c g :
  pd_inapplicable nuclearMass pd c ->
  processLoop nuclearMass pd (S fuel) step c g = Returns c g.
Proof.
  unfold pd_inapplicable. intros H.
  cbn [processLoop].
  destruct (isNucleus (ps_id (current c))) eqn:Hn; [|reflexivity].
  destruct H as [H|H]; [discriminate|]. cbv zeta. unfold negb.
  destruct (chargeNumber (ps_id (current c)) >? 26)%Z eqn:HZ; [reflexivity|].
  destruct H as [H|H]; [rewrite Z.gtb_ltb in HZ; apply Z.ltb_ge in HZ; lia|].
  destruct (massNumber (ps_id (current c)) - chargeNumber (ps_id (current c)) >? 30)%Z
    eqn:HN; [reflexivity|].
  destruct H as [H|H]; [rewrite Z.gtb_ltb in HN; apply Z.ltb_ge in HN; lia|].
  unfold orb. fold (pd_index c).
  destruct (nth (pd_index c) (pdRate pd) []) eqn:Hr; [reflexivity|].
  destruct H as [H|H]; [discriminate|].
  cbn [length Nat.eqb]. unfold getRedshift. fold (pd_lg nuclearMass c).
  destruct (Rle_dec _ _) as [|Hlo]; [reflexivity|].
  destruct (Rge_dec _ _) as [|Hhi]; [reflexivity|].
  lra.
Qed.

Lemma processLoop_applicable_head (pd : t) (fuel : nat) (step : R) c g :
  pd_applicable nuclearMass pd c ->
  processLoop nuclearMass pd (S fuel) step c g
  = let rate := pd_rate nuclearMass pd c in
    let randDist := pd_freePath nuclearMass pd c g in
    if Rlt_dec step randDist
    then Returns (limitNextStep (limit pd / rate) c) (fun n => g (S n))
    else
      let k := selectIndex (pd_ratios nuclearMass pd c) (g 1%nat) in
      if (k <? 0)%Z then Undefined
      else
        match nth_error (nth (pd_index c) (pdBranch pd) []) (Z.to_nat k) with
        | None => Undefined
        | Some b =>
            match performInteraction nuclearMass pd c (channel b)
                                     (fun n => g (S (S n))) with
            | Raise c' g' => Throws c' g'
            | Ok c' g' =>
                if Rgt_dec (step - randDist) 0
                then processLoop nuclearMass pd fuel (step - randDist) c' g'
                else Returns c' g'
            end
        end.
Proof.
  intros [Hn [HZ [HN [Hr Hlg]]]].
  cbn [processLoop]. rewrite Hn. cbv zeta. unfold negb.
  destruct (chargeNumber (ps_id (current c)) >? 26)%Z eqn:HZ';
    [rewrite Z.gtb_ltb in HZ'; apply Z.ltb_lt in HZ'; lia|].
  destruct (massNumber (ps_id (current c)) - chargeNumber (ps_id (current c)) >? 30)%Z
    eqn:HN'; [rewrite Z.gtb_ltb in HN'; apply Z.ltb_lt in HN'; lia|].
  unfold orb. fold (pd_index c).
  destruct (nth (pd_index c) (pdRate pd) []) eqn:Hr'; [contradiction|].
  cbn [length Nat.eqb]. try rewrite <- Hr'.
  unfold getRedshift. fold (pd_lg nuclearMass c).
  destruct (Rle_dec _ _) as [Hlo|_]; [lra|].
  destruct (Rge_dec _ _) as [Hhi|_]; [lra|].
  reflexivity.
Qed.

End DiscreteEvents.

(** ** Applicability and the continuous-loss step *)

Section Samples.
Import ElectronPairProduction.

Lemma proton_lf lf :
  ParticleStateOps.getLorentzFactor sample_mass (current (proton_at lf)) = lf.
Proof.
  unfold ParticleStateOps.getLorentzFactor, proton_at, sample_mass.
  cbn [current ps_energy ps_id].
  change (ParticleID.massNumber 1000010010) with 1%Z.
  pose proof mass_energy_pos. unfold Units.c_squared in *.
  field. unfold Units.mass_proton, Units.c_light. lra.
Qed.

Lemma sample_table_sorted : StronglySorted Rlt (tabLorentzFactor epp_sample).
Proof.
  unfold epp_sample, tabLorentzFactor.
  repeat (constructor; [|repeat (constructor; try lra)]). constructor.
Qed.

Lemma Rpower_10_bounds : / 10 < Rpower 10 (- 0.6) < 1.
Proof.
  split.
  - replace (/ 10) with (Rpower 10 (- 1)).
    + apply Rpower_lt; lra.
    + unfold Rpower. replace (- 1 * ln 10) with (- ln 10) by lra.
      rewrite exp_Ropp, exp_ln by lra. reflexivity.
  - apply Rlt_le_trans with (Rpower 10 0); [apply Rpower_lt; lra|].
    rewrite Rpower_O; lra.
Qed.

Lemma proton11_lossLength :
  epp_lossLength sample_mass epp_sample (proton_at 100000000000)
  = / Rpower 10 (- 0.6).
Proof.
  unfold epp_lossLength. rewrite proton_lf.
  change (redshift (proton_at 100000000000)) with 0.
  change (ps_id (current (proton_at 100000000000))) with 1000010010%Z.
  rewrite epp_lossLength_above.
  - unfold epp_scaling, sample_mass, Dbl.pow_integer3, Dbl.pow.
    change (ParticleID.chargeNumber 1000010010) with 1%Z.
    change (ParticleID.massNumber 1000010010) with 1%Z.
    change (Interp.back (tabLossRate epp_sample)) with 1.
    change (Interp.back (tabLorentzFactor epp_sample)) with 10000000000.
    change (getRedshiftScaling (photonField epp_sample) 0) with 1.
    replace (100000000000 * (1 + 0) / 10000000000) with 10 by lra.
    pose proof Rpower_10_bounds.
    unfold Units.mass_proton. field. lra.
  - discriminate.
  - change (Interp.front (tabLorentzFactor epp_sample)) with 100000000. lra.
  - change (Interp.back (tabLorentzFactor epp_sample)) with 10000000000. lra.
Qed.

End Samples.

(** C5, as stated, fails for the continuous-loss module above its table:
    a proton whose Lorentz factor 10^11 lies outside the tabulated domain
    [10^8, 10^10] is processed with the extrapolated rate and loses
    energy. *)
Lemma pair_production_acts_above_table :
  Interp.back (ElectronPairProduction.tabLorentzFactor epp_sample)
  < ParticleStateOps.getLorentzFactor sample_mass
      (current (proton_at 100000000000))
  /\ exists fuel c' g',
      ElectronPairProduction.process sample_mass epp_sample fuel
                                     (proton_at 100000000000) tape_half
      = Some (c', g')
      /\ ps_energy (current c') < ps_energy (current (proton_at 100000000000)).
Proof.
  split.
  - rewrite proton_lf.
    change (Interp.back (ElectronPairProduction.tabLorentzFactor epp_sample))
      with 10000000000. lra.
  - pose proof Rpower_10_bounds as Hr.
    assert (Hinv : 1 < / Rpower 10 (- 0.6) < 10).
    { assert (Hri : Rpower 10 (- 0.6) * / Rpower 10 (- 0.6) = 1)
        by (field; lra).
      assert (H0 : 0 < / Rpower 10 (- 0.6))
        by (apply Rinv_0_lt_compat; lra).
      split; nra. }
    destruct (epp_process_applies sample_mass epp_sample
                (proton_at 100000000000) tape_half) as [N HN].
    + reflexivity.
    + rewrite proton11_lossLength. pose proof DBL_MAX_large. lra.
    + intros n. unfold tape_half. lra.
    + destruct (HN N (le_n N)) as [c' [g' [Hp [Hcur _]]]].
      exists N, c', g'. split; [exact Hp|].
      rewrite Hcur.
      destruct (setLorentzFactor_energy sample_mass
                  (1 - epp_loss sample_mass epp_sample (proton_at 100000000000))
                  (current (proton_at 100000000000))) as [HE _].
      { change (ps_id (current (proton_at 100000000000))) with 1000010010%Z.
        unfold sample_mass.
        change (ParticleID.massNumber 1000010010) with 1%Z.
        pose proof mass_energy_pos. lra. }
      rewrite HE. unfold epp_loss. rewrite proton11_lossLength.
      change (currentStep (proton_at 100000000000)) with 10.
      change (redshift (proton_at 100000000000)) with 0.
      change (ps_energy (current (proton_at 100000000000)))
        with (100000000000 * (Units.mass_proton * Units.c_squared)).
      pose proof mass_energy_pos as Hm.
      assert (Hloss : 0 < 10 / (1 + 0) / / Rpower 10 (- 0.6)).
      { replace (10 / (1 + 0) / / Rpower 10 (- 0.6))
          with (10 * Rpower 10 (- 0.6)) by (field; lra).
        lra. }
      nra.
Qed.

(** C5, amended.  A candidate that fails a guard of the module is
    returned untouched, random tape included.  For photo-disintegration
    the guards are: not a nucleus; Z > 26 or N > 30; no rate table for
    (Z,N); log10 of the redshifted Lorentz factor not strictly between 4
    and 14.  For pair production they are: not a nucleus; charge number
    0; redshifted Lorentz factor below the first tabulated sample (above
    the last sample the module extrapolates and acts). *)
Theorem inapplicable_is_noop :
  forall (nuclearMass : Z -> R) (pd : PhotoDisintegration.t)
         (epp : ElectronPairProduction.t) (fuel : nat) (c : Candidate)
         (g : Random),
    (pd_inapplicable nuclearMass pd c ->
     PhotoDisintegration.process nuclearMass pd (S fuel) c g
     = PhotoDisintegration.Returns c g)
    /\ (ParticleID.isNucleus (ps_id (current c)) = false
        \/ ParticleID.chargeNumber (ps_id (current c)) = 0%Z
        \/ ParticleStateOps.getLorentzFactor nuclearMass (current c)
           * (1 + redshift c)
           < Interp.front (ElectronPairProduction.tabLorentzFactor epp) ->
        ElectronPairProduction.process nuclearMass epp fuel c g = Some (c, g)).
Proof.
  intros mass pd epp fuel c g. split.
  - intros H. unfold PhotoDisintegration.process.
    apply processLoop_skip. exact H.
  - intros H. apply epp_process_skip.
    destruct H as [H|[H|H]]; [left; exact H| |]; right; unfold epp_lossLength.
    + rewrite epp_lossLength_uncharged by exact H. lra.
    + rewrite epp_lossLength_below by exact H. lra.
Qed.

Lemma inapplicable_is_noop_witness :
  PhotoDisintegration.process sample_mass pd_quiet 1 electron_candidate tape_half
  = PhotoDisintegration.Returns electron_candidate tape_half
  /\ ElectronPairProduction.process sample_mass epp_sample 0 electron_candidate
                                    tape_half
     = Some (electron_candidate, tape_half).
Proof.
  split.
  - apply (proj1 (inapplicable_is_noop sample_mass pd_quiet epp_sample 0
                    electron_candidate tape_half)).
    left. reflexivity.
  - apply (proj2 (inapplicable_is_noop sample_mass pd_quiet epp_sample 0
                    electron_candidate tape_half)).
    left. reflexivity.
Defined.

(** C4.  For every nucleus to which the continuous-loss module applies
    (finite positive loss length), one call hands
    gamma x (1 - loss), with loss = (currentStep/(1+z))/lossLength, to
    [setLorentzFactor], which multiplies the Lorentz factor, and with it
    the energy, by exactly (1 - loss); the call limits the next step to
    limit x lossLength and returns whatever the random draws are.
    For a proton at redshift 0 whose Lorentz factor is the i-th tabulated
    sample the loss length is the inverse of the i-th tabulated rate, so
    the energy lost over the step equals energy x rate x step exactly. *)
Theorem pair_production_scales_lorentz_factor :
  forall (nuclearMass : Z -> R) (epp : ElectronPairProduction.t)
         (c : Candidate) (g : Random),
    ParticleID.isNucleus (ps_id (current c)) = true ->
    0 < epp_lossLength nuclearMass epp c < Dbl.DBL_MAX ->
    nuclearMass (ps_id (current c)) * Units.c_squared <> 0 ->
    draws_nonneg g ->
    exists N, forall fuel, (N <= fuel)%nat ->
      exists c' g',
        ElectronPairProduction.process nuclearMass epp fuel c g = Some (c', g')
        /\ current c'
           = ParticleStateOps.setLorentzFactor nuclearMass
               (ParticleStateOps.getLorentzFactor nuclearMass (current c)
                * (1 - epp_loss nuclearMass epp c)) (current c)
        /\ ParticleStateOps.getLorentzFactor nuclearMass (current c')
           = ParticleStateOps.getLorentzFactor nuclearMass (current c)
             * (1 - epp_loss nuclearMass epp c)
        /\ ps_energy (current c')
           = ps_energy (current c) * (1 - epp_loss nuclearMass epp c)
        /\ nextStep c'
           = Rmin (nextStep c)
                  (ElectronPairProduction.limit epp
                   * epp_lossLength nuclearMass epp c)
        /\ (forall i : nat,
               ParticleID.chargeNumber (ps_id (current c)) = 1%Z ->
               nuclearMass (ps_id (current c)) = Units.mass_proton ->
               redshift c = 0 ->
               getRedshiftScaling (ElectronPairProduction.photonField epp) 0 = 1 ->
               StronglySorted Rlt (ElectronPairProduction.tabLorentzFactor epp) ->
               0 < Interp.front (ElectronPairProduction.tabLorentzFactor epp) ->
               length (ElectronPairProduction.tabLossRate epp)
               = length (ElectronPairProduction.tabLorentzFactor epp) ->
               (i < length (ElectronPairProduction.tabLorentzFactor epp))%nat ->
               ParticleStateOps.getLorentzFactor nuclearMass (current c)
               = Interp.at_ (ElectronPairProduction.tabLorentzFactor epp) i ->
               ps_energy (current c) - ps_energy (current c')
               = ps_energy (current c)
                 * Interp.at_ (ElectronPairProduction.tabLossRate epp) i
                 * currentStep c).
Proof.
  intros mass epp c g Hn [Hpos Hmax] Hm Hg.
  destruct (epp_process_applies mass epp c g Hn Hmax Hg) as [N HN].
  exists N. intros fuel Hfuel.
  destruct (HN fuel Hfuel) as [c' [g' [Hp [Hcur [Hnext _]]]]].
  exists c', g'. split; [exact Hp|]. split; [exact Hcur|].
  destruct (setLorentzFactor_energy mass (1 - epp_loss mass epp c)
              (current c) Hm) as [HE HL].
  rewrite Hcur. repeat split; try assumption.
  intros i HZ Hmp Hz Hs Hsort Hfront Hlen Hi Hlf.
  rewrite HE. unfold epp_loss.
  pose proof (epp_lossLength_grid mass epp c i HZ Hmp Hz Hs Hsort Hfront
                Hlen Hi Hlf) as Hgrid.
  rewrite Hgrid in *. rewrite Hz.
  assert (Hy : Interp.at_ (ElectronPairProduction.tabLossRate epp) i <> 0).
  { intros H0. rewrite H0 in Hpos. unfold Rdiv in Hpos.
    rewrite Rinv_0 in Hpos. lra. }
  field. exact Hy.
Qed.

Lemma proton9_lossLength :
  epp_lossLength sample_mass epp_sample (proton_at 1000000000) = 1.
Proof.
  rewrite (epp_lossLength_grid sample_mass epp_sample
             (proton_at 1000000000) 1).
  - change (Interp.at_ (ElectronPairProduction.tabLossRate epp_sample) 1) with 1.
    lra.
  - reflexivity.
  - unfold sample_mass.
    change (ParticleID.massNumber (ps_id (current (proton_at 1000000000))))
      with 1%Z. lra.
  - reflexivity.
  - reflexivity.
  - exact sample_table_sorted.
  - change (Interp.front (ElectronPairProduction.tabLorentzFactor epp_sample))
      with 100000000. lra.
  - reflexivity.
  - simpl. lia.
  - rewrite proton_lf. reflexivity.
Qed.

Lemma pair_production_scales_lorentz_factor_witness :
  exists N, forall fuel, (N <= fuel)%nat ->
    exists c' g',
      ElectronPairProduction.process sample_mass epp_sample fuel
                                     (proton_at 1000000000) tape_half
      = Some (c', g')
      /\ ParticleStateOps.getLorentzFactor sample_mass (current c')
         = ParticleStateOps.getLorentzFactor sample_mass
             (current (proton_at 1000000000))
           * (1 - epp_loss sample_mass epp_sample (proton_at 1000000000)).
Proof.
  destruct (pair_production_scales_lorentz_factor sample_mass epp_sample
              (proton_at 1000000000) tape_half) as [N HN].
  - reflexivity.
  - rewrite proton9_lossLength. pose proof DBL_MAX_large. lra.
  - change (ps_id (current (proton_at 1000000000))) with 1000010010%Z.
    unfold sample_mass. change (ParticleID.massNumber 1000010010) with 1%Z.
    pose proof mass_energy_pos. lra.
  - intros n. unfold tape_half. lra.
  - exists N. intros fuel Hfuel.
    destruct (HN fuel Hfuel) as [c' [g' [Hp [_ [HL _]]]]].
    exists c', g'. split; [exact Hp|exact HL].
Defined.

(** ** Free path and step limit *)

Section DiscreteSamples.

Import PhotoDisintegration ParticleID CandidateOps RandomOps.

Lemma helium4_lf :
  ParticleStateOps.getLorentzFactor sample_mass (current helium4) = 10 ^ 9.
Proof.
  unfold ParticleStateOps.getLorentzFactor, helium4, sample_mass.
  cbn [current ps_energy ps_id].
  change (massNumber 1000020040) with 4%Z.
  pose proof mass_energy_pos. unfold Units.c_squared in *.
  field. unfold Units.mass_proton, Units.c_light. lra.
Qed.

Lemma helium4_lg : pd_lg sample_mass helium4 = 9.
Proof.
  unfold pd_lg. rewrite helium4_lf.
  change (redshift helium4) with 0.
  replace (10 ^ 9 * (1 + 0)) with (10 ^ 9) by lra.
  rewrite log10_pow10. simpl. lra.
Qed.

Lemma helium4_applicable : pd_applicable sample_mass pd_sample helium4.
Proof.
  unfold pd_applicable. cbv zeta.
  change (ps_id (current helium4)) with 1000020040%Z.
  rewrite helium4_lg. unfold lgmin, lgmax.
  split; [reflexivity|]. split; [vm_compute; discriminate|].
  split; [vm_compute; discriminate|].
  split; [|lra].
  change (nth (pd_index helium4) (pdRate pd_sample) []) with (repeat 1 251).
  discriminate.
Qed.

Lemma helium4_rate : pd_rate sample_mass pd_sample helium4 = 1.
Proof.
  unfold pd_rate, passRate. rewrite helium4_lg.
  change (nth (pd_index helium4) (pdRate pd_sample) []) with (repeat 1 251).
  change (getRedshift helium4) with 0.
  change (getRedshiftScaling (photonField pd_sample) 0) with 1.
  change (getRadialScaling (photonField pd_sample)
            (Vector3.getR (ps_position (current helium4)))) with 1.
  unfold Interp.interpolateEquidistant, lgmin, lgmax.
  destruct (Rle_dec 9 4); [lra|]. destruct (Rge_dec 9 14); [lra|].
  change (length (repeat 1 251)) with 251%nat.
  rewrite INR_IZR_INZ. change (Z.of_nat 251) with 251%Z.
  replace ((9 - 4) / ((14 - 4) / (251 - 1))) with (IZR 125) by lra.
  rewrite floor_IZR.
  change (Z.to_nat 125) with 125%nat.
  change (Interp.at_ (repeat 1 251) 125) with 1.
  change (Interp.at_ (repeat 1 251) 126) with 1.
  unfold Dbl.pow_integer2. lra.
Qed.

Lemma helium4_freePath : pd_freePath sample_mass pd_sample helium4 tape_fire = 5.
Proof.
  unfold pd_freePath. rewrite helium4_rate.
  change (tape_fire 0%nat) with (exp (- 5)). rewrite ln_exp. lra.
Qed.

Lemma helium4_ratios : pd_ratios sample_mass pd_sample helium4 = [1].
Proof.
  unfold pd_ratios. rewrite helium4_lg. cbv zeta.
  unfold lgmin, lgmax, nlg.
  rewrite INR_IZR_INZ. change (Z.of_nat 251) with 251%Z.
  replace ((9 - 4) / (14 - 4) * (251 - 1)) with (IZR 125) by lra.
  rewrite round_IZR. reflexivity.
Qed.

Lemma select_single : selectIndex [1] (/ 2) = 0%Z.
Proof.
  unfold selectIndex, selectLoop.
  destruct (Rgt_dec (/ 2) 0); [reflexivity|lra].
Qed.

End DiscreteSamples.

(** C2, as stated, fails in its last clause: an applicable He-4 nucleus
    whose sampled free path (5) is shorter than its step (10) interacts,
    the He-3 left over has no rate table, and [process] returns without
    ever limiting the step: nextStep keeps its value. *)
Lemma interaction_leaves_next_step :
  pd_applicable sample_mass pd_sample helium4
  /\ exists c' g',
      PhotoDisintegration.process sample_mass pd_sample 2 helium4 tape_fire
      = PhotoDisintegration.Returns c' g'
      /\ nextStep c' = nextStep helium4.
Proof.
  split; [exact helium4_applicable|].
  unfold PhotoDisintegration.process.
  rewrite (processLoop_applicable_head sample_mass pd_sample 1 _ helium4
             tape_fire helium4_applicable).
  cbv zeta. rewrite helium4_freePath, helium4_ratios.
  change (CandidateOps.getCurrentStep helium4) with 10.
  destruct (Rlt_dec 10 5) as [H|_]; [lra|].
  change (tape_fire 1%nat) with (/ 2). rewrite select_single.
  change (0 <? 0)%Z with false. cbv iota.
  change (nth_error (nth (pd_index helium4)
                         (PhotoDisintegration.pdBranch pd_sample) [])
                    (Z.to_nat 0))
    with (Some (PhotoDisintegration.mkBranch 100000 (repeat 1 251))).
  cbv iota.
  change (PhotoDisintegration.channel
            (PhotoDisintegration.mkBranch 100000 (repeat 1 251)))
    with 100000%Z.
  destruct (performInteraction_returns sample_mass pd_sample helium4 100000
              (fun n => tape_fire (S (S n))) helium4_residual_valid)
    as [c' [g' H]].
  rewrite H.
  destruct (performInteraction_shape sample_mass pd_sample helium4 100000
              _ c' g' ltac:(lia) H)
    as [frags [newId [Hid [_ [_ [_ [_ [_ [_ Hc']]]]]]]]].
  change (PhotoDisintegration.havePhotons pd_sample) with false in Hc'.
  cbv iota in Hc'.
  assert (HnewId : newId = 1000020030%Z).
  { vm_compute in Hid. congruence. }
  subst newId.
  destruct (Rgt_dec (10 - 5) 0) as [_|Hn]; [|lra].
  exists c', g'. split.
  - apply processLoop_skip. unfold pd_inapplicable. cbv zeta.
    right. right. right. left.
    rewrite Hc'. reflexivity.
  - rewrite Hc'. reflexivity.
Qed.

(** C2, amended.  In every pass of the loop over an applicable nucleus
    with positive rate, whenever the sampled free path
    d = -ln(U)/rate exceeds the remaining step, no interaction fires: the
    candidate is returned unchanged except that nextStep becomes
    min(nextStep, limit/rate), which is at most limit/rate.  The loop body
    runs before the remaining step is tested, so this also happens when
    the step is zero or negative (for a draw 0 < U < 1).  Consequently a
    call of [process] whose first free path exceeds the current step
    leaves nextStep strictly smaller whenever limit/rate is below the
    pre-set value. *)
Theorem free_path_limits_next_step :
  forall (nuclearMass : Z -> R) (pd : PhotoDisintegration.t) (fuel : nat)
         (step : R) (c : Candidate) (g : Random),
    pd_applicable nuclearMass pd c ->
    0 < pd_rate nuclearMass pd c ->
    let limited :=
      CandidateOps.limitNextStep
        (PhotoDisintegration.limit pd / pd_rate nuclearMass pd c) c in
    (step < pd_freePath nuclearMass pd c g ->
     PhotoDisintegration.processLoop nuclearMass pd (S fuel) step c g
     = PhotoDisintegration.Returns limited (fun n => g (S n)))
    /\ (step <= 0 -> 0 < g O < 1 -> step < pd_freePath nuclearMass pd c g)
    /\ (currentStep c < pd_freePath nuclearMass pd c g ->
        PhotoDisintegration.process nuclearMass pd (S fuel) c g
        = PhotoDisintegration.Returns limited (fun n => g (S n)))
    /\ current limited = current c
    /\ secondaries limited = secondaries c
    /\ nextStep limited
       <= PhotoDisintegration.limit pd / pd_rate nuclearMass pd c
    /\ nextStep limited <= nextStep c
    /\ (PhotoDisintegration.limit pd / pd_rate nuclearMass pd c < nextStep c ->
        nextStep limited < nextStep c).
Proof.
  intros mass pd fuel step c g Happ Hrate limited.
  assert (Hpass : forall s, s < pd_freePath mass pd c g ->
            PhotoDisintegration.processLoop mass pd (S fuel) s c g
            = PhotoDisintegration.Returns limited (fun n => g (S n))).
  { intros s Hs.
    rewrite (processLoop_applicable_head mass pd fuel s c g Happ).
    cbv zeta. destruct (Rlt_dec _ _) as [_|Hn]; [reflexivity|contradiction]. }
  split; [apply Hpass|]. split; [|split; [apply Hpass|]].
  - intros Hstep [Hu0 Hu1]. unfold pd_freePath.
    assert (Hln : ln (g O) < 0).
    { rewrite <- ln_1. apply ln_increasing; assumption. }
    assert (0 < - ln (g O) / pd_rate mass pd c).
    { apply Rdiv_lt_0_compat; lra. }
    lra.
  - unfold limited, CandidateOps.limitNextStep; simpl.
    repeat split; try reflexivity.
    + apply Rmin_r.
    + apply Rmin_l.
    + intros H. rewrite Rmin_right by lra. exact H.
Qed.

Lemma free_path_limits_next_step_witness :
  PhotoDisintegration.processLoop sample_mass pd_sample 1 0 helium4 tape_half
  = PhotoDisintegration.Returns
      (CandidateOps.limitNextStep
         (PhotoDisintegration.limit pd_sample
          / pd_rate sample_mass pd_sample helium4) helium4)
      (fun n => tape_half (S n)).
Proof.
  assert (Hrate : 0 < pd_rate sample_mass pd_sample helium4)
    by (rewrite helium4_rate; lra).
  destruct (free_path_limits_next_step sample_mass pd_sample 0 0 helium4
              tape_half helium4_applicable Hrate) as [H1 [H2 _]].
  apply H1. apply H2; [lra|]. unfold tape_half. lra.
Defined.

(** ** The channel draw *)

(** C3.  In a pass of [process] in which an interaction fires, the
    branching ratios of the nuclide are taken at the bin nearest to its
    log10 Lorentz factor, one uniform draw (the second of the pass) is
    made, the successive ratios are subtracted from it while the
    remainder is positive, and the channel of the branch whose
    subtraction made the remainder non-positive is the one handed to
    [performInteraction]; when the list is exhausted first, it is the
    last channel.  In particular: ratios [0.3, 0.7] and draw 0.5 select
    index 1; a draw above the sum of all (non-negative) ratios exhausts
    the list and selects the last channel; in general, for a positive
    draw on a non-empty list, the selected index [k] is in range, the
    remainder is positive before each of the subtractions 0..k, and after
    subtraction [k] the remainder is non-positive unless [k] is the last
    index.  (The free path of the pass is defined for a positive rate
    and a positive first draw.) *)
Theorem select_channel_threshold :
  PhotoDisintegration.selectIndex [0.3; 0.7] 0.5 = 1%Z
  /\ (forall ratios cmp,
         ratios <> [] -> (forall r, In r ratios -> 0 <= r) ->
         sumR ratios < cmp ->
         PhotoDisintegration.selectIndex ratios cmp
         = (Z.of_nat (length ratios) - 1)%Z)
  /\ (forall ratios cmp,
         ratios <> [] -> 0 < cmp ->
         exists k : nat,
           PhotoDisintegration.selectIndex ratios cmp = Z.of_nat k
           /\ (k < length ratios)%nat
           /\ (forall j, (j <= k)%nat -> cmp - sumR (firstn j ratios) > 0)
           /\ (cmp - sumR (firstn (S k) ratios) <= 0
               \/ S k = length ratios))
  /\ (forall (nuclearMass : Z -> R) (pd : PhotoDisintegration.t)
             (fuel : nat) (step : R) (c : Candidate) (g : Random),
         pd_applicable nuclearMass pd c ->
         0 < pd_rate nuclearMass pd c -> 0 < g O ->
         ~ step < pd_freePath nuclearMass pd c g ->
         nth (pd_index c) (PhotoDisintegration.pdBranch pd) [] <> [] ->
         0 < g 1%nat ->
         let branches := nth (pd_index c) (PhotoDisintegration.pdBranch pd) [] in
         let ratios := pd_ratios nuclearMass pd c in
         let d := pd_freePath nuclearMass pd c g in
         exists (l : Z) (k : nat) (b : PhotoDisintegration.Branch),
           Rabs (IZR l
                 - (pd_lg nuclearMass c - PhotoDisintegration.lgmin)
                   / (PhotoDisintegration.lgmax - PhotoDisintegration.lgmin)
                   * (INR PhotoDisintegration.nlg - 1)) <= / 2
           /\ ratios
              = map (fun b => Interp.at_ (PhotoDisintegration.branchingRatio b)
                                        (Z.to_nat l)) branches
           /\ nth_error branches k = Some b
           /\ (forall j, (j <= k)%nat ->
                         g 1%nat - sumR (firstn j ratios) > 0)
           /\ (g 1%nat - sumR (firstn (S k) ratios) <= 0
               \/ S k = length branches)
           /\ PhotoDisintegration.processLoop nuclearMass pd (S fuel) step c g
              = match PhotoDisintegration.performInteraction
                        nuclearMass pd c (PhotoDisintegration.channel b)
                        (fun n => g (S (S n))) with
                | PhotoDisintegration.Raise c' g' =>
                    PhotoDisintegration.Throws c' g'
                | PhotoDisintegration.Ok c' g' =>
                    if Rgt_dec (step - d) 0
                    then PhotoDisintegration.processLoop nuclearMass pd fuel
                                                         (step - d) c' g'
                    else PhotoDisintegration.Returns c' g'
                end).
Proof.
  split; [|split; [|split]].
  - unfold PhotoDisintegration.selectIndex. simpl.
    destruct (Rgt_dec 0.5 0) as [_|H]; [|lra].
    destruct (Rgt_dec (0.5 - 0.3) 0) as [_|H]; [|lra].
    reflexivity.
  - intros ratios cmp Hne Hnn Hsum.
    unfold PhotoDisintegration.selectIndex.
    rewrite selectLoop_exhaust by assumption. reflexivity.
  - intros ratios cmp Hne Hpos.
    pose proof (selectLoop_positive ratios cmp Hne Hpos) as H1.
    pose proof (selectLoop_le_length ratios cmp) as H2.
    exists (Nat.pred (PhotoDisintegration.selectLoop ratios cmp 0)).
    unfold PhotoDisintegration.selectIndex.
    repeat split.
    + lia.
    + lia.
    + intros j Hj. apply selectLoop_before. lia.
    + replace (S (Nat.pred (PhotoDisintegration.selectLoop ratios cmp 0)))
        with (PhotoDisintegration.selectLoop ratios cmp 0) by lia.
      destruct (selectLoop_after ratios cmp) as [Hall|Hstop].
      * right; exact Hall.
      * left; exact Hstop.
  - intros mass pd fuel step c g Happ Hrate Hu Hfire Hne Hcmp
           branches ratios d.
    assert (Hlen : length ratios = length branches)
      by (unfold ratios, pd_ratios; cbv zeta; apply length_map).
    assert (Hne' : ratios <> []).
    { intros E. apply Hne. apply length_zero_iff_nil.
      fold branches. rewrite <- Hlen, E. reflexivity. }
    pose proof (selectLoop_positive ratios (g 1%nat) Hne' Hcmp) as H1.
    pose proof (selectLoop_le_length ratios (g 1%nat)) as H2.
    set (k := Nat.pred (PhotoDisintegration.selectLoop ratios (g 1%nat) 0)).
    assert (Hk : PhotoDisintegration.selectIndex ratios (g 1%nat) = Z.of_nat k)
      by (unfold PhotoDisintegration.selectIndex, k; lia).
    destruct (nth_error branches k) as [b|] eqn:Hb.
    2:{ apply nth_error_None in Hb. unfold k in Hb. lia. }
    exists (photonBin mass c), k, b.
    split; [apply round_nearest|]. split; [reflexivity|].
    split; [exact Hb|]. split.
    { intros j Hj. apply selectLoop_before. unfold k in Hj. lia. }
    split.
    { replace (S k) with (PhotoDisintegration.selectLoop ratios (g 1%nat) 0)
        by (unfold k; lia).
      destruct (selectLoop_after ratios (g 1%nat)) as [Hall|Hstop].
      - right. rewrite Hall. exact Hlen.
      - left. exact Hstop. }
    rewrite (processLoop_applicable_head mass pd fuel step c g Happ).
    cbv zeta. fold d.
    destruct (Rlt_dec step d) as [H|_]; [contradiction|].
    fold ratios. rewrite Hk.
    destruct (Z.of_nat k <? 0)%Z eqn:Hneg; [apply Z.ltb_lt in Hneg; lia|].
    rewrite Nat2Z.id. fold branches. rewrite Hb. reflexivity.
Qed.

Lemma select_channel_threshold_witness :
  PhotoDisintegration.selectIndex [0.25; 0.25] 0.75 = 1%Z
  /\ exists b,
       PhotoDisintegration.channel b = 100000%Z
       /\ PhotoDisintegration.processLoop sample_mass pd_sample 2 10 helium4
                                          tape_fire
          = match PhotoDisintegration.performInteraction
                    sample_mass pd_sample helium4
                    (PhotoDisintegration.channel b)
                    (fun n => tape_fire (S (S n))) with
            | PhotoDisintegration.Raise c' g' =>
                PhotoDisintegration.Throws c' g'
            | PhotoDisintegration.Ok c' g' =>
                PhotoDisintegration.processLoop sample_mass pd_sample 1
                                                (10 - 5) c' g'
            end.
Proof.
  split.
  - apply (proj1 (proj2 select_channel_threshold) [0.25; 0.25] 0.75).
    + discriminate.
    + intros r [H|[H|[]]]; subst r; lra.
    + unfold sumR; simpl; lra.
  - destruct (proj2 (proj2 (proj2 select_channel_threshold))
                sample_mass pd_sample 1%nat 10 helium4 tape_fire)
      as [l [k [b [_ [_ [Hb [Hbefore [_ Hrun]]]]]]]].
    + exact helium4_applicable.
    + rewrite helium4_rate. lra.
    + change (tape_fire 0%nat) with (exp (- 5)). apply exp_pos.
    + rewrite helium4_freePath. lra.
    + change (nth (pd_index helium4)
                  (PhotoDisintegration.pdBranch pd_sample) [])
        with [PhotoDisintegration.mkBranch 100000 (repeat 1 251)].
      discriminate.
    + change (tape_fire 1%nat) with (/ 2). lra.
    + assert (Hk : k = 0%nat).
      { destruct k as [|k]; [reflexivity|]. exfalso.
        specialize (Hbefore 1%nat ltac:(lia)).
        rewrite helium4_ratios in Hbefore.
        change (tape_fire 1%nat) with (/ 2) in Hbefore.
        unfold sumR in Hbefore. simpl in Hbefore. lra. }
      subst k.
      change (nth (pd_index helium4)
                  (PhotoDisintegration.pdBranch pd_sample) [])
        with [PhotoDisintegration.mkBranch 100000 (repeat 1 251)] in Hb.
      cbn [nth_error] in Hb.
      exists b.
      split; [injection Hb as Hb'; rewrite <- Hb'; reflexivity|].
      rewrite Hrun. rewrite helium4_freePath.
      destruct (PhotoDisintegration.performInteraction _ _ _ _ _)
        as [c' g'|c' g']; [|reflexivity].
      destruct (Rgt_dec (10 - 5) 0) as [_|Hn]; [|lra].
      reflexivity.
Defined.

(** ** Rate lookup *)

Section RateLookup.

Import ParticleID.

Variable nuclearMass : Z -> R.

Lemma pd_lossLength_max (pd : PhotoDisintegration.t) id gamma z :
  pd_untabulated pd id gamma z ->
  PhotoDisintegration.lossLength pd id gamma z = Dbl.DBL_MAX.
Proof.
  unfold pd_untabulated. intros H.
  unfold PhotoDisintegration.lossLength.
  destruct (isNucleus id) eqn:Hn; [|reflexivity].
  destruct H as [H|H]; [discriminate|]. cbv zeta. unfold negb.
  destruct (chargeNumber id >? 26)%Z eqn:HZ; [reflexivity|].
  destruct H as [H|H]; [rewrite Z.gtb_ltb in HZ; apply Z.ltb_ge in HZ; lia|].
  destruct (massNumber id - chargeNumber id >? 30)%Z eqn:HN; [reflexivity|].
  destruct H as [H|H]; [rewrite Z.gtb_ltb in HN; apply Z.ltb_ge in HN; lia|].
  unfold orb.
  destruct (nth _ (PhotoDisintegration.pdRate pd) []) eqn:Hr; [reflexivity|].
  destruct H as [H|H]; [discriminate|].
  cbn [length Nat.eqb].
  destruct (Rle_dec _ _) as [|Hlo]; [reflexivity|].
  destruct (Rge_dec _ _) as [|Hhi]; [reflexivity|].
  lra.
Qed.

Lemma interpolateEquidistant_grid (Y : list R) (k : nat) :
  (2 <= length Y)%nat -> (k < length Y)%nat ->
  Interp.interpolateEquidistant (lg_grid (length Y) k)
    PhotoDisintegration.lgmin PhotoDisintegration.lgmax Y
  = Interp.at_ Y k.
Proof.
  intros Hn Hk. unfold lg_grid, PhotoDisintegration.lgmin,
    PhotoDisintegration.lgmax, Interp.interpolateEquidistant.
  cbv zeta.
  assert (Hn1 : 1 <= INR (length Y) - 1).
  { apply le_INR in Hn. simpl in Hn. lra. }
  set (dx := (14 - 4) / (INR (length Y) - 1)).
  assert (Hdx : 0 < dx) by (unfold dx; apply Rdiv_lt_0_compat; lra).
  assert (Htop : (INR (length Y) - 1) * dx = 10) by (unfold dx; field; lra).
  clearbody dx.
  destruct (Nat.eq_dec k 0) as [H0|H0].
  { subst k. simpl INR. destruct (Rle_dec _ _) as [_|Hc]; [|lra].
    unfold Interp.front, Interp.at_. destruct Y; reflexivity. }
  assert (Hk1 : 1 <= INR k).
  { assert (H1 : (1 <= k)%nat) by lia. apply le_INR in H1. simpl in H1. lra. }
  destruct (Rle_dec _ _) as [Hc|_]; [nra|].
  destruct (Nat.eq_dec (S k) (length Y)) as [Hlast|Hint].
  - assert (HkR : INR k = INR (length Y) - 1).
    { rewrite <- Hlast, S_INR. lra. }
    destruct (Rge_dec _ _) as [_|Hc]; [|nra].
    rewrite last_nth. unfold Interp.at_. f_equal. lia.
  - assert (HkR : INR k + 1 <= INR (length Y) - 1).
    { assert (H1 : (S (S k) <= length Y)%nat) by lia.
      apply le_INR in H1. rewrite !S_INR in H1. lra. }
    assert (Hgap : 0 <= (INR (length Y) - 1 - (INR k + 1)) * dx)
      by (apply Rmult_le_pos; lra).
    destruct (Rge_dec _ _) as [Hc|_]; [exfalso; nra|].
    replace ((4 + INR k * dx - 4) / dx) with (INR k) by (field; lra).
    rewrite INR_IZR_INZ, floor_IZR, Nat2Z.id, <- INR_IZR_INZ. ring.
Qed.

Lemma log10_ge_14 gamma : 10 ^ 14 <= gamma -> 14 <= Dbl.log10 gamma.
Proof.
  intros H. unfold Dbl.log10.
  assert (Hp : 0 < 10 ^ 14) by (apply pow_lt; lra).
  assert (Hl : ln (10 ^ 14) <= ln gamma).
  { destruct H as [H|H]; [left; apply ln_increasing; assumption|].
    rewrite H. lra. }
  rewrite ln_pow in Hl by lra. simpl INR in Hl.
  pose proof ln_10_pos as H10.
  apply Rmult_le_reg_r with (ln 10); [exact H10|].
  replace (ln gamma / ln 10 * ln 10) with (ln gamma) by (field; lra).
  lra.
Qed.

End RateLookup.

(** C6, as stated, fails for photo-disintegration above its table: for
    every Lorentz factor from 10^14 on, the loss length of a tabulated
    nucleus is the constant that stands for "infinite", so the rate does
    not follow any power law with a non-zero exponent. *)
Lemma disintegration_has_no_power_law :
  (forall gamma, 10 ^ 14 <= gamma ->
     PhotoDisintegration.lossLength pd_sample 1000020040 gamma 0 = Dbl.DBL_MAX)
  /\ ~ (exists K alpha,
           alpha <> 0
           /\ forall gamma, 10 ^ 14 < gamma ->
                / PhotoDisintegration.lossLength pd_sample 1000020040 gamma 0
                = K * Rpower gamma alpha).
Proof.
  assert (Hmax : forall gamma, 10 ^ 14 <= gamma ->
            PhotoDisintegration.lossLength pd_sample 1000020040 gamma 0
            = Dbl.DBL_MAX).
  { intros gamma H. apply pd_lossLength_max. unfold pd_untabulated.
    do 5 right. unfold PhotoDisintegration.lgmax.
    replace (gamma * (1 + 0)) with gamma by lra.
    apply log10_ge_14. exact H. }
  split; [exact Hmax|].
  intros [K [alpha [Ha Hlaw]]].
  assert (H15 : 10 ^ 14 < 10 ^ 15) by lra.
  assert (H16 : 10 ^ 14 < 10 ^ 16) by lra.
  pose proof (Hlaw _ H15) as E15. pose proof (Hlaw _ H16) as E16.
  rewrite Hmax in E15, E16 by lra.
  assert (HD : 0 < / Dbl.DBL_MAX).
  { apply Rinv_0_lt_compat. pose proof DBL_MAX_large. lra. }
  assert (HK : K <> 0) by (intros H0; rewrite H0 in E15; lra).
  assert (Heq : Rpower (10 ^ 15) alpha = Rpower (10 ^ 16) alpha).
  { apply Rmult_eq_reg_l with K; [lra|exact HK]. }
  unfold Rpower in Heq. apply exp_inv in Heq.
  rewrite !ln_pow in Heq by lra. simpl INR in Heq.
  pose proof ln_10_pos. nra.
Qed.

(** C6, amended.  Pair production: inside the tabulated Lorentz-factor
    domain the rate is the linear interpolation of the table (the chord
    between neighbouring samples, the tabulated value at a sample); from
    the last sample upwards it is the last tabulated rate times
    (gamma/gamma_last)^(-0.6); below the first sample and for uncharged
    particles the loss length is the largest double, which stands for
    "infinite".  Photo-disintegration: the rate is interpolated on the
    equidistant grid and equals the tabulated value at every grid point;
    it has NO extrapolation: for a non-nucleus, an untabulated nuclide,
    log10(gamma) <= 4 and also log10(gamma) >= 14 the loss length is the
    largest double, and a pass of [process] over such a candidate returns
    it untouched. *)
Theorem rate_lookup_by_domain :
  forall (nuclearMass : Z -> R) (epp : ElectronPairProduction.t)
         (pd : PhotoDisintegration.t) (id : Z) (lf z : R),
    let x := lf * (1 + z) in
    let X := ElectronPairProduction.tabLorentzFactor epp in
    let Y := ElectronPairProduction.tabLossRate epp in
    (ParticleID.chargeNumber id <> 0%Z ->
     Interp.front X <= x < Interp.back X ->
     ElectronPairProduction.lossLength nuclearMass epp id lf z
     = 1 / (Interp.interpolate x X Y * epp_scaling nuclearMass epp id z))
    /\ (forall i, StronglySorted Rlt X -> (S i < length X)%nat ->
                  Interp.at_ X i <= x < Interp.at_ X (S i) ->
                  Interp.interpolate x X Y
                  = Interp.at_ Y i
                    + (x - Interp.at_ X i)
                      * (Interp.at_ Y (S i) - Interp.at_ Y i)
                      / (Interp.at_ X (S i) - Interp.at_ X i))
    /\ (forall i, StronglySorted Rlt X -> (S i < length X)%nat ->
                  Interp.interpolate (Interp.at_ X i) X Y = Interp.at_ Y i)
    /\ (ParticleID.chargeNumber id <> 0%Z ->
        Interp.front X <= x -> Interp.back X <= x ->
        ElectronPairProduction.lossLength nuclearMass epp id lf z
        = 1 / (Interp.back Y * Dbl.pow (x / Interp.back X) (- 0.6)
               * epp_scaling nuclearMass epp id z))
    /\ (ParticleID.chargeNumber id = 0%Z \/ x < Interp.front X ->
        ElectronPairProduction.lossLength nuclearMass epp id lf z
        = Dbl.DBL_MAX)
    /\ (forall (T : list R) (k : nat),
           (2 <= length T)%nat -> (k < length T)%nat ->
           Interp.interpolateEquidistant (lg_grid (length T) k)
             PhotoDisintegration.lgmin PhotoDisintegration.lgmax T
           = Interp.at_ T k)
    /\ (forall (c : Candidate) (k : nat),
           let T := nth (pd_index c) (PhotoDisintegration.pdRate pd) [] in
           (2 <= length T)%nat -> (k < length T)%nat ->
           pd_lg nuclearMass c = lg_grid (length T) k ->
           pd_rate nuclearMass pd c
           = Interp.at_ T k
             * (Dbl.pow_integer2 (1 + redshift c)
                * getRedshiftScaling (PhotoDisintegration.photonField pd)
                                     (redshift c))
             * getRadialScaling (PhotoDisintegration.photonField pd)
                 (Vector3.getR (ps_position (current c))))
    /\ (pd_untabulated pd id lf z ->
        PhotoDisintegration.lossLength pd id lf z = Dbl.DBL_MAX)
    /\ (forall (fuel : nat) (step : R) (c : Candidate) (g : Random),
           pd_inapplicable nuclearMass pd c ->
           PhotoDisintegration.processLoop nuclearMass pd (S fuel) step c g
           = PhotoDisintegration.Returns c g).
Proof.
  intros mass epp pd id lf z x X Y.
  split; [intros HZ [Hf Hb]; apply epp_lossLength_inside; assumption|].
  split; [intros i Hs Hi Hx; apply interpolate_between; assumption|].
  split; [intros i Hs Hi; apply interpolate_grid; assumption|].
  split; [intros HZ Hf Hb; apply epp_lossLength_above; assumption|].
  split.
  { intros [H|H]; [apply epp_lossLength_uncharged|apply epp_lossLength_below];
      exact H. }
  split; [intros T k Hn Hk; apply interpolateEquidistant_grid; assumption|].
  split.
  { intros c k T Hn Hk Hlg. unfold pd_rate, PhotoDisintegration.passRate.
    fold T. rewrite Hlg, interpolateEquidistant_grid by assumption.
    reflexivity. }
  split; [apply pd_lossLength_max|].
  intros fuel step c g Hin. apply processLoop_skip. exact Hin.
Qed.

Lemma rate_lookup_by_domain_witness :
  ElectronPairProduction.lossLength sample_mass epp_sample 1000000010
                                    1000000000 0
  = Dbl.DBL_MAX.
Proof.
  apply (proj1 (proj2 (proj2 (proj2 (proj2
           (rate_lookup_by_domain sample_mass epp_sample pd_sample
              1000000010 1000000000 0)))))).
  left. reflexivity.
Defined.

(** ** Adaptive step control *)

Section AdaptiveStep.

Import PropagationBP CandidateOps.

Variable particleCharge : Z -> R.
Variable Y_of_double : R -> Y.

Lemma adaptLoop_pass (bp : t) (fuel : nat) (yIn : Y) (z q m step newStep : R) :
  adaptLoop Y_of_double bp (S fuel) yIn z q m step newStep
  = let yOut := fst (tryStep Y_of_double bp yIn step z q m) in
    let r := errorRatio Y_of_double bp yIn z q m step in
    if Rgt_dec r 1 then
      if Req_dec_T step (minStep bp) then Some (yOut, step, newStep)
      else adaptLoop Y_of_double bp fuel yIn z q m
                     (shrunk bp step r) (shrunk bp step r)
    else
      if Req_dec_T step (maxStep bp) then Some (yOut, step, newStep)
      else Some (yOut, step, grown bp step r).
Proof. reflexivity. Qed.

Lemma pow_shrinks r : 1 < r -> 0 < Dbl.pow r (- 0.2) < 1.
Proof.
  intros Hr. unfold Dbl.pow, Rpower. split; [apply exp_pos|].
  rewrite <- exp_0. apply exp_increasing.
  assert (0 < ln r) by (rewrite <- ln_1; apply ln_increasing; lra).
  nra.
Qed.

Lemma shrunk_bounds (bp : t) (step r : R) :
  0 <= minStep bp -> minStep bp <= step -> step <> minStep bp -> 1 < r ->
  minStep bp <= shrunk bp step r < step
  /\ shrunk bp step r <= Rmax (0.95 * step) (minStep bp).
Proof.
  intros H0 Hs Hne Hr. pose proof (pow_shrinks r Hr) as [Hp0 Hp1].
  assert (Hstep : 0 < step) by lra.
  unfold shrunk.
  set (a := step * 0.95 * Dbl.pow r (- 0.2)).
  assert (Ha : a <= 0.95 * step) by (unfold a; nra).
  unfold Rmax.
  repeat destruct (Rle_dec _ _); repeat split; try lra.
Qed.

Lemma pow95_bounds (n : nat) : 0 < 0.95 ^ n <= 1.
Proof.
  split; [apply pow_lt; lra|].
  rewrite <- (pow1 n). apply pow_incr. lra.
Qed.

Lemma clip_bounds (x lo hi : R) : lo <= hi -> lo <= Dbl.clip x lo hi <= hi.
Proof.
  intros H. unfold Dbl.clip, Rmax, Rmin.
  repeat destruct (Rle_dec _ _); lra.
Qed.

(** If [n] shrinks by 5 percent take [step] down to [minStep], the loop
    returns with any fuel above [n]. *)
Lemma adaptLoop_terminates (bp : t) (yIn : Y) (z q m : R) :
  0 <= minStep bp ->
  forall (n fuel : nat) (step newStep : R),
    minStep bp <= step -> step * 0.95 ^ n <= minStep bp -> (n < fuel)%nat ->
    exists yOut s ns,
      adaptLoop Y_of_double bp fuel yIn z q m step newStep
      = Some (yOut, s, ns)
      /\ minStep bp <= s <= step.
Proof.
  intros H0. induction n as [|n IH]; intros fuel step newStep Hs Hn Hfuel;
    (destruct fuel as [|fuel]; [lia|]); rewrite adaptLoop_pass; cbv zeta.
  - simpl in Hn.
    destruct (Rgt_dec _ 1).
    + destruct (Req_dec_T step (minStep bp)) as [_|Hne]; [|lra].
      do 3 eexists; split; [reflexivity|lra].
    + destruct (Req_dec_T step (maxStep bp));
        do 3 eexists; (split; [reflexivity|lra]).
  - destruct (Rgt_dec _ 1) as [Hr|Hr].
    + destruct (Req_dec_T step (minStep bp)) as [He|Hne].
      * do 3 eexists; split; [reflexivity|lra].
      * set (r := errorRatio Y_of_double bp yIn z q m step) in *.
        destruct (shrunk_bounds bp step r H0 Hs Hne Hr) as [[Hlo Hhi] Hcap].
        pose proof (pow95_bounds n) as [Hp0 Hp1].
        assert (Hn' : shrunk bp step r * 0.95 ^ n <= minStep bp).
        { simpl in Hn. unfold Rmax in Hcap.
          destruct (Rle_dec _ _) in Hcap; nra. }
        destruct (IH fuel (shrunk bp step r) (shrunk bp step r) Hlo Hn'
                     ltac:(lia)) as [yOut [s [ns [Hrun Hb]]]].
        exists yOut, s, ns. split; [exact Hrun|lra].
    + destruct (Req_dec_T step (maxStep bp));
        do 3 eexists; (split; [reflexivity|lra]).
Qed.

Lemma shrinks_reach_minStep (lo step : R) :
  0 < lo -> exists n : nat, step * 0.95 ^ n <= lo.
Proof.
  intros Hlo. destruct (Rle_dec step lo) as [Hle|Hgt].
  - exists O. simpl. lra.
  - assert (Hstep : 0 < step) by lra.
    destruct (pow_lt_1_zero 0.95) with (y := lo / step) as [N HN].
    + rewrite Rabs_right; lra.
    + apply Rdiv_lt_0_compat; lra.
    + exists N. specialize (HN N (le_n N)).
      pose proof (pow95_bounds N) as [Hp0 Hp1].
      rewrite Rabs_right in HN by lra.
      apply Rmult_lt_compat_l with (r := step) in HN; [|exact Hstep].
      replace (step * (lo / step)) with lo in HN by (field; lra). lra.
Qed.

Lemma process_terminates (bp : t) (c : Candidate) :
  0 < minStep bp <= maxStep bp ->
  exists N, forall fuel, (N <= fuel)%nat ->
    exists c',
      process particleCharge Y_of_double bp fuel c = Some c'
      /\ minStep bp <= currentStep c' <= maxStep bp.
Proof.
  intros [Hmin Hle].
  pose proof (clip_bounds (nextStep c) (minStep bp) (maxStep bp) Hle) as Hclip.
  destruct (shrinks_reach_minStep (minStep bp)
              (Dbl.clip (nextStep c) (minStep bp) (maxStep bp)) Hmin)
    as [n Hn].
  exists (S n). intros fuel Hfuel. unfold process.
  destruct (Req_dec_T _ 0) as [Hq|Hq].
  - eexists; split; [reflexivity|]. simpl. exact Hclip.
  - destruct (Req_dec_T (minStep bp) (maxStep bp)) as [He|He].
    + eexists; split; [reflexivity|]. simpl. lra.
    + unfold getNextStep. cbn [nextStep set_previous].
      edestruct (adaptLoop_terminates bp) as [yOut [s [ns [Hrun Hb]]]];
        [left; exact Hmin|apply Hclip|exact Hn| |].
      2:{ rewrite Hrun. eexists; split; [reflexivity|]. simpl. lra. }
      lia.
Qed.



End AdaptiveStep.

Section ShockWind.

Import PropagationBP CandidateOps.

Lemma c_light_pos : 0 < Units.c_light.
Proof. unfold Units.c_light. lra. Qed.

Lemma getFieldAtPosition_shock pos z :
  getFieldAtPosition bp_shock pos z = Vector3.zero.
Proof.
  unfold getFieldAtPosition. cbn [field bp_shock shockRadius].
  destruct (Rgt_dec 0 (Vector3.getR pos)) as [H|_]; [|reflexivity].
  unfold Vector3.getR in H. pose proof (sqrt_pos
    (vx pos * vx pos + vy pos * vy pos + vz pos * vz pos)). lra.
Qed.

Lemma scale_zero f : Vector3.scale Vector3.zero f = Vector3.zero.
Proof. unfold Vector3.scale, Vector3.zero; cbn [vx vy vz]. f_equal; ring. Qed.

Lemma divide_zero f : Vector3.divide Vector3.zero f = Vector3.zero.
Proof.
  unfold Vector3.divide, Vector3.zero; cbn [vx vy vz].
  f_equal; unfold Rdiv; ring.
Qed.

Lemma cross_zero_r a : Vector3.cross a Vector3.zero = Vector3.zero.
Proof.
  unfold Vector3.cross, Vector3.zero; cbn [vx vy vz]. f_equal; ring.
Qed.

Lemma add_zero_r a : Vector3.add a Vector3.zero = a.
Proof.
  destruct a as [ax ay az].
  unfold Vector3.add, Vector3.zero; cbn [vx vy vz]. f_equal; ring.
Qed.

(** Without magnetic field a step drifts along the unit vector [e] of
    direction plus wind and keeps the direction. *)
Lemma dY_shock pos dir h z q m e :
  Vector3.getUnitVector
    (Vector3.add dir
       (Vector3.scale (Vector3.getUnitVector (shock_wind pos))
                      (Vector3.getR (shock_wind pos) / Units.c_light))) = e ->
  dY bp_shock pos dir h z q m
  = mkY (Vector3.add (Vector3.add pos (Vector3.divide (Vector3.scale e h) 2))
                     (Vector3.divide (Vector3.scale e h) 2))
        dir.
Proof.
  intros He. unfold dY. cbv zeta.
  unfold getAdvFieldAtPosition. cbn [field bp_shock advField].
  rewrite He, getFieldAtPosition_shock.
  repeat first [rewrite scale_zero | rewrite divide_zero
               | rewrite cross_zero_r | rewrite add_zero_r].
  rewrite He. reflexivity.
Qed.

Lemma drift_upstream pos :
  vx pos < 1 ->
  Vector3.getUnitVector
    (Vector3.add e_x
       (Vector3.scale (Vector3.getUnitVector (shock_wind pos))
                      (Vector3.getR (shock_wind pos) / Units.c_light))) = e_x.
Proof.
  intros Hx. unfold shock_wind. destruct (Rlt_dec (vx pos) 1) as [_|H]; [|lra].
  pose proof c_light_pos as Hc.
  assert (HR : Vector3.getR (mkVector3d Units.c_light 0 0) = Units.c_light).
  { unfold Vector3.getR; cbn [vx vy vz].
    replace (Units.c_light * Units.c_light + 0 * 0 + 0 * 0)
      with (Units.c_light * Units.c_light) by ring.
    apply sqrt_square. lra. }
  unfold Vector3.getUnitVector at 2. rewrite HR.
  unfold Vector3.divide, Vector3.scale, Vector3.add, e_x; cbn [vx vy vz].
  replace (1 + Units.c_light / Units.c_light * (Units.c_light / Units.c_light))
    with 2 by (field; lra).
  replace (0 + 0 / Units.c_light * (Units.c_light / Units.c_light))
    with 0 by (field; lra).
  unfold Vector3.getUnitVector, Vector3.getR; cbn [vx vy vz].
  replace (2 * 2 + 0 * 0 + 0 * 0) with (2 * 2) by ring.
  rewrite sqrt_square by lra.
  unfold Vector3.divide; cbn [vx vy vz]. f_equal; lra.
Qed.





End ShockWind.

(** ** Photo-disintegration events and steps *)

Section PD1.
Import PhotoDisintegration ParticleID CandidateOps RandomOps.
Variable nuclearMass : Z -> R.

(** X1.  When the selected channel (a non-negative code) removes more
    nucleons or more charge than the nucleus holds, [nucleusId] rejects
    the residual nuclide and [performInteraction] leaves by the runtime
    error it rethrows.  At that point the fragments of the six loops are
    already attached and [created] already holds the pre-event state,
    while id and energy of the primary are untouched and one draw has
    been consumed; inside [process], when an interaction with that
    channel fires (positive rate, positive first draw, free path not
    above the step), the error is passed on to the caller with that
    state. *)
Theorem invalid_residual_raises (pd : t) (c : Candidate) (ch : Z) (g : Random) :
  (0 <= ch)%Z ->
  ~ residual_valid c ch ->
  let failed :=
    set_created (current c)
      (set_secondaries
         (secondaries c
          ++ fragmentsOf c ch (eventPosition c g) (interactionTag pd)) c) in
  performInteraction nuclearMass pd c ch g = Raise failed (fun n => g (S n))
  /\ current failed = current c
  /\ forall fuel step g0 k b,
       pd_applicable nuclearMass pd c ->
       0 < pd_rate nuclearMass pd c ->
       0 < g0 O ->
       ~ step < pd_freePath nuclearMass pd c g0 ->
       selectIndex (pd_ratios nuclearMass pd c) (g0 1%nat) = Z.of_nat k ->
       nth_error (nth (pd_index c) (pdBranch pd) []) k = Some b ->
       channel b = ch ->
       g = (fun n => g0 (S (S n))) ->
       processLoop nuclearMass pd (S fuel) step c g0
       = Throws failed (fun n => g (S n)).
Proof.
  intros Hcode Hbad failed.
  assert (Hnone : nucleusId (massNumber (ps_id (current c)) + channel_dA ch)
                            (chargeNumber (ps_id (current c)) + channel_dZ ch)
                  = None).
  { unfold nucleusId.
    set (a := (massNumber (ps_id (current c)) + channel_dA ch)%Z).
    set (z := (chargeNumber (ps_id (current c)) + channel_dZ ch)%Z).
    destruct (z <? 0)%Z eqn:H1; [reflexivity|].
    destruct (a <? 1)%Z eqn:H2; [reflexivity|].
    destruct (a <? z)%Z eqn:H3; [reflexivity|].
    apply Z.ltb_ge in H1, H2, H3.
    exfalso. apply Hbad. unfold residual_valid. cbv zeta. lia. }
  assert (Hraise : performInteraction nuclearMass pd c ch g
                   = Raise failed (fun n => g (S n))).
  { rewrite performInteraction_unfold. cbv zeta. rewrite Hnone. reflexivity. }
  split; [exact Hraise|]. split; [reflexivity|].
  intros fuel step g0 k b Happ Hrate Hu Hstep Hsel Hb Hch Hg.
  rewrite (processLoop_applicable_head nuclearMass pd fuel step c g0 Happ).
  cbv zeta.
  destruct (Rlt_dec _ _) as [H|_]; [contradiction|].
  rewrite Hsel.
  destruct (Z.of_nat k <? 0)%Z eqn:Hk; [apply Z.ltb_lt in Hk; lia|].
  rewrite Nat2Z.id, Hb, Hch, <- Hg, Hraise. reflexivity.
Qed.

(** X2.  The photon loop of [performInteraction] emits at most one
    photon per tabulated line, consumes one draw per line and one more
    per emitted photon, and appends nothing but photons at the event
    position with the module's tag.  For draws in [0,1], a non-negative
    Lorentz factor and non-negative line energies, the boost
    E = line x gamma x (1 - cos theta) puts every photon between 0 and
    twice the line energy times gamma. *)
Theorem photon_loop_bounds ems l lf pos tag c g c' g' :
  emitPhotons ems l lf pos tag c g = (c', g') ->
  (forall n, 0 <= g n <= 1) ->
  0 <= lf ->
  Forall (fun em => 0 <= energy em) ems ->
  exists photons,
    extends c c' photons
    /\ (length photons <= length ems)%nat
    /\ (forall n, g' n = g (n + length ems + length photons)%nat)
    /\ Forall (fun s => ps_id (current s) = 22%Z
                        /\ ps_position (current s) = pos
                        /\ tagOrigin s = tag
                        /\ exists em,
                             In em ems
                             /\ 0 <= ps_energy (current s)
                                <= 2 * (energy em * lf))
              photons.
Proof.
  intros H Hg Hlf Hems.
  destruct (emitPhotons_spec ems l lf pos tag c g c' g' H)
    as [ph [Hext [Hlen [Htape Hall]]]].
  exists ph. repeat (split; [assumption|]).
  eapply Forall_impl; [|exact Hall]. cbv beta.
  intros s [H1 [H2 [H3 [em [k [Hin HE]]]]]].
  repeat split; try assumption.
  exists em. split; [exact Hin|].
  rewrite Forall_forall in Hems. pose proof (Hems em Hin) as He.
  pose proof (Hg k) as Hk. rewrite HE.
  assert (0 <= energy em * lf) by nra.
  split; nra.
Qed.

(** X3.  For a transition under whose key no photon line is stored,
    the switch [havePhotons] makes no difference: the event ends with
    the same candidate, the same outcome and the same random tape as in
    the module with photon emission switched off. *)
Theorem untabulated_transition_emits_nothing (pd : t) (c : Candidate) (ch : Z)
        (g : Random) :
  lookupPhoton (pdPhoton pd) (photonKey c ch) = [] ->
  performInteraction nuclearMass pd c ch g
  = performInteraction nuclearMass (setHavePhotons false pd) c ch g.
Proof.
  intros Hkey. rewrite !performInteraction_unfold. cbv zeta.
  change (interactionTag (setHavePhotons false pd)) with (interactionTag pd).
  change (havePhotons (setHavePhotons false pd)) with false.
  destruct (nucleusId _ _) as [newId|]; [|reflexivity].
  destruct (havePhotons pd); [|reflexivity].
  rewrite Hkey. reflexivity.
Qed.

(** X4.  A completed event hands every product the energy per nucleon
    EpA = E/A of the parent.  The nuclear fragments are as many as the
    digits of the channel add up to; each carries EpA times its own mass
    number (between 1 and 4), the interpolated event position and the
    module's tag.  The photons that follow them carry the same position
    and tag.  The residual nucleus keeps EpA times its new mass number,
    and its position and direction. *)
Theorem products_share_energy_per_nucleon (pd : t) (c : Candidate) (ch : Z)
        (g : Random) (c' : Candidate) (g' : Random) :
  (0 <= ch)%Z ->
  performInteraction nuclearMass pd c ch g = Ok c' g' ->
  let EpA := ps_energy (current c) / IZR (massNumber (ps_id (current c))) in
  exists frags photons,
    secondaries c' = secondaries c ++ frags ++ photons
    /\ Z.of_nat (length frags)
       = (digit ch 100000 + digit ch 10000 + digit ch 1000 + digit ch 100
          + digit ch 10 + digit ch 1)%Z
    /\ Forall (fun s =>
                 ps_energy (current s)
                 = EpA * IZR (massNumber (ps_id (current s)))
                 /\ (1 <= massNumber (ps_id (current s)) <= 4)%Z
                 /\ ps_position (current s) = eventPosition c g
                 /\ tagOrigin s = interactionTag pd) frags
    /\ Forall (fun s =>
                 ps_id (current s) = 22%Z
                 /\ ps_position (current s) = eventPosition c g
                 /\ tagOrigin s = interactionTag pd) photons
    /\ ps_energy (current c')
       = EpA * IZR (massNumber (ps_id (current c')))
    /\ ps_position (current c') = ps_position (current c)
    /\ ps_direction (current c') = ps_direction (current c).
Proof.
  intros Hch H EpA.
  pose proof (performInteraction_shape nuclearMass pd c ch g c' g' Hch H)
    as Hshape.
  cbv zeta in Hshape.
  destruct Hshape as [_ [newId [Hid [HmA _]]]].
  rewrite performInteraction_unfold in H. cbv zeta in H.
  rewrite Hid in H.
  set (frags := fragmentsOf c ch (eventPosition c g) (interactionTag pd)) in *.
  assert (Hlen : Z.of_nat (length frags)
                 = (digit ch 100000 + digit ch 10000 + digit ch 1000
                    + digit ch 100 + digit ch 10 + digit ch 1)%Z).
  { unfold frags, fragmentsOf. cbv zeta.
    rewrite !length_app, !repeat_length, !Nat2Z.inj_add.
    rewrite !Z2Nat.id by (apply digit_nonneg; [exact Hch|lia]). lia. }
  assert (Hfr : Forall (fun s =>
                 ps_energy (current s)
                 = EpA * IZR (massNumber (ps_id (current s)))
                 /\ (1 <= massNumber (ps_id (current s)) <= 4)%Z
                 /\ ps_position (current s) = eventPosition c g
                 /\ tagOrigin s = interactionTag pd) frags).
  { unfold frags, fragmentsOf. cbv zeta. fold EpA.
    repeat (apply Forall_app; split);
      (apply Forall_forall; intros s Hs; apply repeat_spec in Hs; subst s;
       unfold secOf; cbn [current ps_energy ps_id ps_position tagOrigin]).
    - change (massNumber 1000000010) with 1%Z. repeat split; try lia; lra.
    - change (massNumber 1000010010) with 1%Z. repeat split; try lia; lra.
    - change (massNumber 1000010020) with 2%Z. repeat split; try lia; lra.
    - change (massNumber 1000010030) with 3%Z. repeat split; try lia; lra.
    - change (massNumber 1000020030) with 3%Z. repeat split; try lia; lra.
    - change (massNumber 1000020040) with 4%Z. repeat split; try lia; lra. }
  destruct (havePhotons pd).
  - destruct (emitPhotons _ _ _ _ _ _ _) as [c7 g7] eqn:Hem.
    assert (Hc : c7 = c') by congruence. subst c7.
    destruct (emitPhotons_spec _ _ _ _ _ _ _ _ _ Hem)
      as [ph [Hext [_ [_ Hall]]]].
    exists frags, ph. unfold extends in Hext. rewrite Hext.
    unfold set_secondaries, residual.
    cbn [secondaries current ps_energy ps_id ps_position ps_direction].
    rewrite HmA, app_assoc.
    split; [reflexivity|]. split; [exact Hlen|]. split; [exact Hfr|].
    split; [|repeat split].
    eapply Forall_impl; [|exact Hall]. cbv beta.
    intros s [H1 [H2 [H3 _]]]. repeat split; assumption.
  - assert (Hc : c' = residual c ch newId frags) by congruence.
    exists frags, []. rewrite Hc. unfold residual.
    cbn [secondaries current ps_energy ps_id ps_position ps_direction].
    rewrite HmA, app_nil_r.
    split; [reflexivity|]. split; [exact Hlen|]. split; [exact Hfr|].
    split; [constructor|repeat split].
Qed.

Lemma pd_applicable_dec (pd : t) (c : Candidate) :
  pd_applicable nuclearMass pd c \/ pd_inapplicable nuclearMass pd c.
Proof.
  unfold pd_applicable, pd_inapplicable. cbv zeta.
  destruct (isNucleus (ps_id (current c))); [|right; left; reflexivity].
  destruct (Z_le_gt_dec (chargeNumber (ps_id (current c))) 26) as [HZ|HZ];
    [|right; right; left; lia].
  destruct (Z_le_gt_dec (massNumber (ps_id (current c))
                         - chargeNumber (ps_id (current c))) 30) as [HN|HN];
    [|right; right; right; left; lia].
  destruct (nth (pd_index c) (pdRate pd) []) as [|x l] eqn:Hr;
    [right; right; right; right; left; reflexivity|].
  destruct (Rle_dec (pd_lg nuclearMass c) lgmin) as [Hlo|Hlo];
    [right; right; right; right; right; left; exact Hlo|].
  destruct (Rle_dec lgmax (pd_lg nuclearMass c)) as [Hhi|Hhi];
    [right; right; right; right; right; right; exact Hhi|].
  left. repeat split; try assumption; try lra. discriminate.
Qed.

Lemma pd_frame_refl c : pd_frame c c.
Proof.
  unfold pd_frame. repeat split; try reflexivity; try lra.
  exists []. rewrite app_nil_r. reflexivity.
Qed.

Lemma pd_frame_trans c1 c2 c3 :
  pd_frame c1 c2 -> pd_frame c2 c3 -> pd_frame c1 c3.
Proof.
  unfold pd_frame.
  intros [A1 [A2 [A3 [A4 [A5 [A6 [A7 [A8 [l1 A9]]]]]]]]]
         [B1 [B2 [B3 [B4 [B5 [B6 [B7 [B8 [l2 B9]]]]]]]]].
  repeat split; try congruence; try lra.
  exists (l1 ++ l2). rewrite B9, A9, app_assoc. reflexivity.
Qed.

Lemma performInteraction_frame (pd : t) (c : Candidate) (ch : Z) (g : Random)
      c' g' :
  performInteraction nuclearMass pd c ch g = Ok c' g'
  \/ performInteraction nuclearMass pd c ch g = Raise c' g' ->
  pd_frame c c' /\ nextStep c' = nextStep c /\ created c' = current c.
Proof.
  rewrite performInteraction_unfold. cbv zeta.
  set (frags := fragmentsOf c ch (eventPosition c g) (interactionTag pd)).
  destruct (nucleusId _ _) as [newId|].
  - destruct (havePhotons pd).
    + destruct (emitPhotons _ _ _ _ _ _ _) as [c7 g7] eqn:Hem.
      intros [H|H]; [|discriminate].
      assert (Hc : c7 = c') by congruence. subst c7.
      destruct (emitPhotons_spec _ _ _ _ _ _ _ _ _ Hem) as [ph [Hext _]].
      unfold extends in Hext. rewrite Hext.
      unfold pd_frame, set_secondaries, residual; simpl.
      repeat split; try reflexivity; try lra.
      exists (frags ++ ph). rewrite app_assoc. reflexivity.
    + intros [H|H]; [|discriminate].
      assert (Hc : c' = residual c ch newId frags) by congruence.
      rewrite Hc. unfold pd_frame, residual; simpl.
      repeat split; try reflexivity; try lra.
      exists frags. reflexivity.
  - intros [H|H]; [discriminate|].
    assert (Hc : c' = set_created (current c)
                        (set_secondaries (secondaries c ++ frags) c))
      by congruence.
    rewrite Hc. unfold pd_frame, set_created, set_secondaries; simpl.
    repeat split; try reflexivity; try lra.
    exists frags. reflexivity.
Qed.

(** X5.  Whether a call of [PhotoDisintegration::process] returns or
    throws, and whatever the number of interactions in the step, it
    leaves [previous], the redshift, the current step, weight and tag and
    the position and direction of the primary as they were, never raises
    the next step, and keeps all earlier secondaries in place in front of
    the ones it appends. *)
Theorem process_only_appends_and_limits (pd : t) :
  forall (fuel : nat) (step : R) (c : Candidate) (g : Random) c' g',
    processLoop nuclearMass pd fuel step c g = Returns c' g'
    \/ processLoop nuclearMass pd fuel step c g = Throws c' g' ->
    pd_frame c c'.
Proof.
  induction fuel as [|fuel IH]; intros step c g c' g' H.
  - simpl in H. destruct H; discriminate.
  - destruct (pd_applicable_dec pd c) as [Happ|Hin].
    + rewrite (processLoop_applicable_head nuclearMass pd fuel step c g Happ)
        in H.
      cbv zeta in H.
      destruct (Rlt_dec _ _).
      * destruct H as [H|H]; [|discriminate].
        assert (Hc : c' = limitNextStep (limit pd / pd_rate nuclearMass pd c) c)
          by congruence.
        rewrite Hc. unfold pd_frame, limitNextStep, setNextStep; simpl.
        repeat split; try reflexivity; [apply Rmin_l|].
        exists []. rewrite app_nil_r. reflexivity.
      * destruct (_ <? 0)%Z; [destruct H; discriminate|].
        destruct (nth_error _ _) as [b|]; [|destruct H; discriminate].
        destruct (performInteraction nuclearMass pd c (channel b) _)
          as [c1 g1|c1 g1] eqn:Hpi.
        -- destruct (performInteraction_frame pd c (channel b) _ c1 g1
                       (or_introl Hpi)) as [Hf _].
           destruct (Rgt_dec _ 0).
           ++ apply (pd_frame_trans c c1 c' Hf). eapply IH. exact H.
           ++ destruct H as [H|H]; [|discriminate].
              assert (Hc : c1 = c') by congruence. subst c1. exact Hf.
        -- destruct (performInteraction_frame pd c (channel b) _ c1 g1
                       (or_intror Hpi)) as [Hf _].
           destruct H as [H|H]; [discriminate|].
           assert (Hc : c1 = c') by congruence. subst c1. exact Hf.
    + rewrite (processLoop_skip nuclearMass pd fuel step c g Hin) in H.
      destruct H as [H|H]; [|discriminate].
      assert (Hc : c = c') by congruence. subst c'. apply pd_frame_refl.
Qed.

(** X6.  With photon emission off and non-negative channel codes in
    the branching table, a returning call of
    [PhotoDisintegration::process] conserves mass number, charge number
    and energy over the whole step, whatever the number of interactions:
    the primary after the call and the secondaries the call appended add
    up to the primary before the call (the repository's tests
    "carbon" and "iron" check these sums on the data files). *)
Theorem process_conserves_nucleons (pd : t) :
  havePhotons pd = false ->
  (forall row b, In row (pdBranch pd) -> In b row -> (0 <= channel b)%Z) ->
  forall (fuel : nat) (step : R) (c : Candidate) (g : Random) c' g',
    processLoop nuclearMass pd fuel step c g = Returns c' g' ->
    exists new,
      secondaries c' = secondaries c ++ new
      /\ (massNumber (ps_id (current c')) + sumA new
          = massNumber (ps_id (current c)))%Z
      /\ (chargeNumber (ps_id (current c')) + sumZ new
          = chargeNumber (ps_id (current c)))%Z
      /\ ps_energy (current c') + sumE new = ps_energy (current c).
Proof.
  intros Hph Hch.
  induction fuel as [|fuel IH]; intros step c g c' g' H.
  - discriminate.
  - destruct (pd_applicable_dec pd c) as [Happ|Hin].
    + rewrite (processLoop_applicable_head nuclearMass pd fuel step c g Happ)
        in H.
      cbv zeta in H.
      destruct (Rlt_dec _ _).
      * assert (Hc : c' = limitNextStep (limit pd / pd_rate nuclearMass pd c) c)
          by congruence.
        rewrite Hc. exists []. simpl. rewrite app_nil_r.
        repeat split; try lia; lra.
      * destruct (_ <? 0)%Z; [discriminate|].
        destruct (nth_error _ _) as [b|] eqn:Hb; [|discriminate].
        assert (Hb0 : (0 <= channel b)%Z).
        { apply nth_error_In in Hb.
          destruct (nth_in_or_default (pd_index c) (pdBranch pd) [])
            as [Hrow|Hdef].
          - exact (Hch _ b Hrow Hb).
          - rewrite Hdef in Hb. destruct Hb. }
        destruct (performInteraction nuclearMass pd c (channel b) _)
          as [c1 g1|c1 g1] eqn:Hpi; [|discriminate].
        destruct (performInteraction_accounts nuclearMass pd c (channel b) _
                    c1 g1 Hb0 Hpi)
          as [frags [photons [Hsec [HA [HZ [HE [_ [Hnone _]]]]]]]].
        rewrite (Hnone Hph), app_nil_r in Hsec.
        assert (Hrest : exists new1,
                   secondaries c' = secondaries c1 ++ new1
                   /\ (massNumber (ps_id (current c')) + sumA new1
                       = massNumber (ps_id (current c1)))%Z
                   /\ (chargeNumber (ps_id (current c')) + sumZ new1
                       = chargeNumber (ps_id (current c1)))%Z
                   /\ ps_energy (current c') + sumE new1
                      = ps_energy (current c1)).
        { destruct (Rgt_dec _ 0).
          - eapply IH. exact H.
          - assert (Hc : c1 = c') by congruence. subst c1.
            exists []. simpl. rewrite app_nil_r. repeat split; try lia; lra. }
        destruct Hrest as [new1 [Hs1 [HA1 [HZ1 HE1]]]].
        exists (frags ++ new1).
        rewrite Hs1, Hsec, app_assoc, sumA_app, sumZ_app, sumE_app.
        repeat split; try lia; lra.
    + rewrite (processLoop_skip nuclearMass pd fuel step c g Hin) in H.
      assert (Hc : c = c') by congruence. subst c'.
      exists []. simpl. rewrite app_nil_r. repeat split; try lia; lra.
Qed.

(** X7.  When an interaction fires (positive rate, positive first
    draw, free path not above the step) on a nuclide whose branch list is
    empty (the rate table lists it, the branching table does not), or
    when the channel draw is 0, the selection loop is left with i = 0 and
    [branches[i-1]] is read outside the vector: the behaviour of the call
    is undefined. *)
Theorem interaction_without_channel_reads_out_of_range (pd : t) (fuel : nat)
        (step : R) (c : Candidate) (g : Random) :
  pd_applicable nuclearMass pd c ->
  0 < pd_rate nuclearMass pd c ->
  0 < g O ->
  ~ step < pd_freePath nuclearMass pd c g ->
  nth (pd_index c) (pdBranch pd) [] = [] \/ g 1%nat <= 0 ->
  processLoop nuclearMass pd (S fuel) step c g = Undefined.
Proof.
  intros Happ Hrate Hu Hstep Hcase.
  rewrite (processLoop_applicable_head nuclearMass pd fuel step c g Happ).
  cbv zeta. destruct (Rlt_dec _ _) as [H|_]; [contradiction|].
  assert (Hk : selectIndex (pd_ratios nuclearMass pd c) (g 1%nat) = (-1)%Z).
  { unfold selectIndex. destruct Hcase as [Hnil|Hdraw].
    - unfold pd_ratios. cbv zeta. rewrite Hnil. reflexivity.
    - destruct (pd_ratios nuclearMass pd c) as [|r rest]; [reflexivity|].
      cbn [selectLoop]. destruct (Rgt_dec _ 0) as [Hgt|_]; [lra|reflexivity]. }
  rewrite Hk. reflexivity.
Qed.

Lemma performInteraction_massNumber (pd : t) (c : Candidate) (ch : Z)
      (g : Random) c' g' :
  (0 <= ch)%Z ->
  performInteraction nuclearMass pd c ch g = Ok c' g' ->
  massNumber (ps_id (current c'))
  = (massNumber (ps_id (current c)) + channel_dA ch)%Z
  /\ (1 <= massNumber (ps_id (current c')))%Z.
Proof.
  intros Hch H.
  pose proof (performInteraction_shape nuclearMass pd c ch g c' g' Hch H)
    as Hshape.
  cbv zeta in Hshape.
  destruct Hshape as [frags [newId [_ [HmA [_ [HA1 [_ [_ [_ Hrest]]]]]]]]].
  assert (Hid : ps_id (current c') = newId).
  { destruct (havePhotons pd).
    - apply emitPhotons_appends in Hrest.
      destruct Hrest as [ph [Hext _]]. unfold extends in Hext.
      rewrite Hext. reflexivity.
    - rewrite Hrest. reflexivity. }
  rewrite Hid, HmA. split; [reflexivity|exact HA1].
Qed.

(** X8.  When every tabulated channel removes at least one nucleon,
    the do-while loop of [PhotoDisintegration::process] ends within
    A + 1 passes, A being the mass number of the primary: each pass
    either leaves the loop or lowers the mass number, and a residual
    without nucleons is rejected.  In the model, fuel above the mass
    number is never used up. *)
Theorem process_ends_within_mass_number_passes (pd : t) :
  (forall row b, In row (pdBranch pd) -> In b row ->
                 (0 <= channel b)%Z /\ (channel_dA (channel b) < 0)%Z) ->
  forall (fuel : nat) (step : R) (c : Candidate) (g : Random),
    (0 < fuel)%nat ->
    (massNumber (ps_id (current c)) < Z.of_nat fuel)%Z ->
    processLoop nuclearMass pd fuel step c g <> OutOfFuel.
Proof.
  intros Hch. induction fuel as [|fuel IH]; intros step c g Hpos Hmass; [lia|].
  destruct (pd_applicable_dec pd c) as [Happ|Hin].
  2:{ rewrite (processLoop_skip nuclearMass pd fuel step c g Hin).
      discriminate. }
  rewrite (processLoop_applicable_head nuclearMass pd fuel step c g Happ).
  cbv zeta.
  destruct (Rlt_dec _ _); [discriminate|].
  destruct (_ <? 0)%Z; [discriminate|].
  destruct (nth_error _ _) as [b|] eqn:Hb; [|discriminate].
  assert (Hb0 : (0 <= channel b)%Z /\ (channel_dA (channel b) < 0)%Z).
  { apply nth_error_In in Hb.
    destruct (nth_in_or_default (pd_index c) (pdBranch pd) [])
      as [Hrow|Hdef].
    - exact (Hch _ b Hrow Hb).
    - rewrite Hdef in Hb. destruct Hb. }
  destruct (performInteraction nuclearMass pd c (channel b) _)
    as [c1 g1|c1 g1] eqn:Hpi; [|discriminate].
  destruct (performInteraction_massNumber pd c (channel b) _ c1 g1
              (proj1 Hb0) Hpi) as [Hm1 Hm2].
  destruct (Rgt_dec _ 0); [|discriminate].
  apply IH; lia.
Qed.

Lemma helium4_overdrawn : ~ residual_valid helium4 2.
Proof.
  unfold residual_valid. cbv zeta.
  change (massNumber (ps_id (current helium4)) + channel_dA 2)%Z with (-4)%Z.
  lia.
Qed.

End PD1.

Lemma invalid_residual_raises_witness :
  exists c',
    PhotoDisintegration.processLoop sample_mass pd_overdrawn 1 10 helium4
                                    tape_fire
    = PhotoDisintegration.Throws c' (fun n => tape_fire (S (S (S n))))
    /\ current c' = current helium4.
Proof.
  eexists. split.
  - apply (proj2 (proj2 (invalid_residual_raises sample_mass pd_overdrawn
                           helium4 2 (fun n => tape_fire (S (S n)))
                           ltac:(lia) helium4_overdrawn))
             0%nat 10 tape_fire 0%nat
             (PhotoDisintegration.mkBranch 2 (repeat 1 251))).
    + exact helium4_applicable.
    + change (pd_rate sample_mass pd_overdrawn helium4)
        with (pd_rate sample_mass pd_sample helium4).
      rewrite helium4_rate. lra.
    + change (tape_fire 0%nat) with (exp (- 5)). apply exp_pos.
    + change (pd_freePath sample_mass pd_overdrawn helium4 tape_fire)
        with (pd_freePath sample_mass pd_sample helium4 tape_fire).
      rewrite helium4_freePath. lra.
    + change (pd_ratios sample_mass pd_overdrawn helium4)
        with (pd_ratios sample_mass pd_sample helium4).
      rewrite helium4_ratios. change (tape_fire 1%nat) with (/ 2).
      exact select_single.
    + reflexivity.
    + reflexivity.
    + reflexivity.
  - reflexivity.
Defined.


Lemma helium4_event :
  exists c' g',
    PhotoDisintegration.processLoop sample_mass pd_sample 2 10 helium4
                                    tape_fire
    = PhotoDisintegration.Returns c' g'.
Proof.
  rewrite (processLoop_applicable_head sample_mass pd_sample 1 _ helium4
             tape_fire helium4_applicable).
  cbv zeta. rewrite helium4_freePath, helium4_ratios.
  destruct (Rlt_dec 10 5) as [H|_]; [lra|].
  change (tape_fire 1%nat) with (/ 2). rewrite select_single.
  change (0 <? 0)%Z with false. cbv iota.
  change (nth_error (nth (pd_index helium4)
                         (PhotoDisintegration.pdBranch pd_sample) [])
                    (Z.to_nat 0))
    with (Some (PhotoDisintegration.mkBranch 100000 (repeat 1 251))).
  cbv iota.
  change (PhotoDisintegration.channel
            (PhotoDisintegration.mkBranch 100000 (repeat 1 251)))
    with 100000%Z.
  destruct (performInteraction_returns sample_mass pd_sample helium4 100000
              (fun n => tape_fire (S (S n))) helium4_residual_valid)
    as [c' [g' H]].
  rewrite H.
  destruct (performInteraction_shape sample_mass pd_sample helium4 100000
              _ c' g' ltac:(lia) H)
    as [frags [newId [Hid [_ [_ [_ [_ [_ [_ Hc']]]]]]]]].
  change (PhotoDisintegration.havePhotons pd_sample) with false in Hc'.
  cbv iota in Hc'.
  assert (HnewId : newId = 1000020030%Z).
  { vm_compute in Hid. congruence. }
  subst newId.
  destruct (Rgt_dec (10 - 5) 0) as [_|Hn]; [|lra].
  exists c', g'.
  apply processLoop_skip. unfold pd_inapplicable. cbv zeta.
  right. right. right. left.
  rewrite Hc'. reflexivity.
Qed.

Lemma pd_sample_channels :
  forall row b,
    In row (PhotoDisintegration.pdBranch pd_sample) -> In b row ->
    (0 <= PhotoDisintegration.channel b)%Z.
Proof.
  intros row b Hrow Hb. unfold pd_sample in Hrow.
  cbn [PhotoDisintegration.pdBranch] in Hrow.
  apply in_app_or in Hrow. destruct Hrow as [Hrow|[Hrow|[]]].
  - apply repeat_spec in Hrow. subst row. destruct Hb.
  - subst row. destruct Hb as [Hb|[]]. subst b. simpl. lia.
Qed.

Lemma products_share_energy_per_nucleon_witness :
  exists c' g' frags photons,
    PhotoDisintegration.performInteraction sample_mass pd_quiet helium4 100000
                                           tape_half
    = PhotoDisintegration.Ok c' g'
    /\ secondaries c' = secondaries helium4 ++ frags ++ photons
    /\ Z.of_nat (length frags) = 1%Z.
Proof.
  destruct (performInteraction_returns sample_mass pd_quiet helium4 100000
              tape_half helium4_residual_valid) as [c' [g' H]].
  destruct (products_share_energy_per_nucleon sample_mass pd_quiet helium4
              100000 tape_half c' g' ltac:(lia) H)
    as [frags [photons [Hsec [Hlen _]]]].
  exists c', g', frags, photons.
  split; [exact H|]. split; [exact Hsec|exact Hlen].
Defined.

Lemma photon_loop_bounds_witness :
  exists photons,
    extends helium4
      (fst (PhotoDisintegration.emitPhotons [gamma_line] 125 1 origin "PD"
              helium4 tape_half)) photons
    /\ (length photons <= 1)%nat.
Proof.
  destruct (photon_loop_bounds [gamma_line] 125 1 origin "PD" helium4
              tape_half _ _ (surjective_pairing _))
    as [ph [H1 [H2 _]]].
  - intros n. unfold tape_half. lra.
  - lra.
  - constructor; [|constructor]. unfold gamma_line, Units.eV. simpl. lra.
  - exists ph. split; [exact H1|exact H2].
Defined.

Lemma untabulated_transition_emits_nothing_witness :
  PhotoDisintegration.performInteraction sample_mass pd_lines helium4 10000
                                         tape_half
  = PhotoDisintegration.performInteraction sample_mass
      (PhotoDisintegration.setHavePhotons false pd_lines) helium4 10000
      tape_half.
Proof.
  apply (untabulated_transition_emits_nothing sample_mass pd_lines helium4
           10000 tape_half).
  reflexivity.
Defined.

Lemma process_only_appends_and_limits_witness :
  exists c' g',
    PhotoDisintegration.processLoop sample_mass pd_sample 2 10 helium4
                                    tape_fire
    = PhotoDisintegration.Returns c' g'
    /\ pd_frame helium4 c'.
Proof.
  destruct helium4_event as [c' [g' H]].
  exists c', g'. split; [exact H|].
  apply (process_only_appends_and_limits sample_mass pd_sample 2 10 helium4
           tape_fire c' g').
  left. exact H.
Defined.

Lemma process_conserves_nucleons_witness :
  exists c' g' new,
    PhotoDisintegration.processLoop sample_mass pd_sample 2 10 helium4
                                    tape_fire
    = PhotoDisintegration.Returns c' g'
    /\ secondaries c' = secondaries helium4 ++ new
    /\ (ParticleID.massNumber (ps_id (current c')) + sumA new
        = ParticleID.massNumber (ps_id (current helium4)))%Z.
Proof.
  destruct helium4_event as [c' [g' H]].
  destruct (process_conserves_nucleons sample_mass pd_sample eq_refl
              pd_sample_channels 2 10 helium4 tape_fire c' g' H)
    as [new [H1 [H2 _]]].
  exists c', g', new. split; [exact H|]. split; [exact H1|exact H2].
Defined.

Lemma interaction_without_channel_reads_out_of_range_witness :
  PhotoDisintegration.processLoop sample_mass pd_branchless 1 10 helium4
                                  tape_fire
  = PhotoDisintegration.Undefined.
Proof.
  apply (interaction_without_channel_reads_out_of_range sample_mass
           pd_branchless 0 10 helium4 tape_fire).
  - exact helium4_applicable.
  - change (pd_rate sample_mass pd_branchless helium4)
      with (pd_rate sample_mass pd_sample helium4).
    rewrite helium4_rate. lra.
  - change (tape_fire 0%nat) with (exp (- 5)). apply exp_pos.
  - change (pd_freePath sample_mass pd_branchless helium4 tape_fire)
      with (pd_freePath sample_mass pd_sample helium4 tape_fire).
    rewrite helium4_freePath. lra.
  - left. unfold pd_branchless. cbn [PhotoDisintegration.pdBranch].
    destruct (pd_index helium4); reflexivity.
Defined.

Lemma pd_sample_channels_remove :
  forall row b,
    In row (PhotoDisintegration.pdBranch pd_sample) -> In b row ->
    (0 <= PhotoDisintegration.channel b)%Z
    /\ (channel_dA (PhotoDisintegration.channel b) < 0)%Z.
Proof.
  intros row b Hrow Hb. unfold pd_sample in Hrow.
  cbn [PhotoDisintegration.pdBranch] in Hrow.
  apply in_app_or in Hrow. destruct Hrow as [Hrow|[Hrow|[]]].
  - apply repeat_spec in Hrow. subst row. destruct Hb.
  - subst row. destruct Hb as [Hb|[]]. subst b.
    cbn [PhotoDisintegration.channel]. split; [lia|reflexivity].
Qed.

Lemma process_ends_within_mass_number_passes_witness :
  PhotoDisintegration.processLoop sample_mass pd_sample 5 10 helium4 tape_fire
  <> PhotoDisintegration.OutOfFuel.
Proof.
  apply (process_ends_within_mass_number_passes sample_mass pd_sample
           pd_sample_channels_remove 5 10 helium4 tape_fire).
  - lia.
  - reflexivity.
Defined.

(** ** The tables of PhotoDisintegration *)

Section PDTables.
Import PhotoDisintegration ParticleID CandidateOps RandomOps.

Lemma pushAtNat_some {A : Type} (xs : list A) :
  forall (tab : list (list A)) (i : nat),
    (i < length tab)%nat ->
    exists tab',
      pushAtNat i xs tab = Some tab'
      /\ length tab' = length tab
      /\ forall k, nth k tab' []
                   = if Nat.eqb k i then nth k tab [] ++ xs else nth k tab [].
Proof.
  induction tab as [|row rest IH]; intros i Hi; simpl in Hi; [lia|].
  destruct i as [|i].
  - eexists. split; [reflexivity|]. split; [reflexivity|].
    intros [|k]; reflexivity.
  - destruct (IH i ltac:(lia)) as [tab' [H1 [H2 H3]]].
    exists (row :: tab'). simpl. rewrite H1. split; [reflexivity|].
    split; [simpl; lia|].
    intros [|k]; [reflexivity|]. simpl. apply H3.
Qed.

Lemma pushAtNat_none {A : Type} (xs : list A) :
  forall (tab : list (list A)) (i : nat),
    (length tab <= i)%nat -> pushAtNat i xs tab = None.
Proof.
  induction tab as [|row rest IH]; intros i Hi; [destruct i; reflexivity|].
  simpl in Hi. destruct i as [|i]; [lia|].
  simpl. rewrite IH by lia. reflexivity.
Qed.

Lemma pushAt_some {A : Type} (xs : list A) (tab : list (list A)) (idx : Z) :
  (0 <= idx < Z.of_nat (length tab))%Z ->
  exists tab',
    pushAt idx xs tab = Some tab'
    /\ length tab' = length tab
    /\ forall k, nth k tab' []
                 = if (idx =? Z.of_nat k)%Z then nth k tab [] ++ xs
                   else nth k tab [].
Proof.
  intros Hi. unfold pushAt.
  destruct (idx <? 0)%Z eqn:H0; [apply Z.ltb_lt in H0; lia|].
  destruct (pushAtNat_some xs tab (Z.to_nat idx) ltac:(lia))
    as [tab' [H1 [H2 H3]]].
  exists tab'. split; [exact H1|]. split; [exact H2|].
  intros k. rewrite H3.
  destruct (Nat.eqb k (Z.to_nat idx)) eqn:Hk.
  - apply Nat.eqb_eq in Hk.
    assert (He : (idx =? Z.of_nat k)%Z = true) by (apply Z.eqb_eq; lia).
    rewrite He. reflexivity.
  - apply Nat.eqb_neq in Hk.
    assert (He : (idx =? Z.of_nat k)%Z = false) by (apply Z.eqb_neq; lia).
    rewrite He. reflexivity.
Qed.

Lemma pushAt_none {A : Type} (xs : list A) (tab : list (list A)) (idx : Z) :
  ~ (0 <= idx < Z.of_nat (length tab))%Z -> pushAt idx xs tab = None.
Proof.
  intros Hi. unfold pushAt.
  destruct (idx <? 0)%Z eqn:H0; [reflexivity|].
  apply Z.ltb_ge in H0. apply pushAtNat_none. lia.
Qed.

Lemma readRates_spec (lines : list RateLine) :
  forall tab,
    (forall rZ rN r, In (RateRow rZ rN r) lines ->
                     (0 <= rZ * 31 + rN < Z.of_nat (length tab))%Z) ->
    exists tab',
      readRates lines tab = Some tab'
      /\ length tab' = length tab
      /\ forall k, nth k tab' [] = nth k tab [] ++ ratesAt k lines.
Proof.
  induction lines as [|line rest IH]; intros tab Hin.
  - exists tab. split; [reflexivity|]. split; [reflexivity|].
    intros k. simpl. rewrite app_nil_r. reflexivity.
  - destruct line as [|rZ rN r].
    + destruct (IH tab) as [tab' [H1 [H2 H3]]].
      { intros rZ rN r H. apply (Hin rZ rN r). right. exact H. }
      exists tab'. split; [exact H1|]. split; [exact H2|exact H3].
    + destruct (pushAt_some (map (fun x => x / Units.Mpc) (samples r)) tab
                  (rZ * 31 + rN)) as [tab1 [P1 [P2 P3]]].
      { apply (Hin rZ rN r). left. reflexivity. }
      destruct (IH tab1) as [tab' [H1 [H2 H3]]].
      { intros rZ' rN' r' H. rewrite P2. apply (Hin rZ' rN' r').
        right. exact H. }
      exists tab'. cbn [readRates]. rewrite P1.
      split; [exact H1|]. split; [congruence|].
      intros k. rewrite H3, P3. cbn [ratesAt flat_map].
      destruct (rZ * 31 + rN =? Z.of_nat k)%Z.
      * rewrite <- app_assoc. reflexivity.
      * reflexivity.
Qed.

Lemma readRates_length (lines : list RateLine) :
  forall tab tab', readRates lines tab = Some tab' -> length tab' = length tab.
Proof.
  induction lines as [|line rest IH]; intros tab tab' H.
  - simpl in H. congruence.
  - destruct line as [|rZ rN r]; [exact (IH _ _ H)|].
    cbn [readRates] in H.
    destruct (pushAt _ _ tab) as [tab1|] eqn:P; [|discriminate].
    rewrite (IH _ _ H).
    destruct (Z_lt_dec (rZ * 31 + rN) 0) as [Hn|Hn].
    { rewrite pushAt_none in P by lia. discriminate. }
    destruct (Z_lt_dec (rZ * 31 + rN) (Z.of_nat (length tab))) as [Hl|Hl].
    2:{ rewrite pushAt_none in P by lia. discriminate. }
    destruct (pushAt_some (map (fun x => x / Units.Mpc) (samples r)) tab
                (rZ * 31 + rN) ltac:(lia)) as [t1 [Q1 [Q2 _]]].
    congruence.
Qed.

Lemma readRates_overrun (lines : list RateLine) :
  forall tab rZ rN r,
    In (RateRow rZ rN r) lines ->
    ~ (0 <= rZ * 31 + rN < Z.of_nat (length tab))%Z ->
    readRates lines tab = None.
Proof.
  induction lines as [|line rest IH]; intros tab rZ rN r Hin Hout;
    [destruct Hin|].
  destruct Hin as [He|Hin].
  - subst line. cbn [readRates]. rewrite pushAt_none by exact Hout. reflexivity.
  - destruct line as [|rZ' rN' r']; [exact (IH tab rZ rN r Hin Hout)|].
    cbn [readRates].
    destruct (pushAt _ _ tab) as [tab1|] eqn:P; [|reflexivity].
    apply (IH tab1 rZ rN r Hin).
    assert (Hl : length tab1 = length tab).
    { destruct (Z_lt_dec (rZ' * 31 + rN') 0) as [Hn|Hn].
      { rewrite pushAt_none in P by lia. discriminate. }
      destruct (Z_lt_dec (rZ' * 31 + rN') (Z.of_nat (length tab))) as [Hl|Hl].
      2:{ rewrite pushAt_none in P by lia. discriminate. }
      destruct (pushAt_some (map (fun x => x / Units.Mpc) (samples r')) tab
                  (rZ' * 31 + rN') ltac:(lia)) as [t1 [Q1 [Q2 _]]].
      congruence. }
    rewrite Hl. exact Hout.
Qed.

(** What [initRate] leaves in the module, by the three ways the read can
    end. *)
Lemma initRate_spec (filename : string)
        (lines : list RateLine) (pd : t) :
  (rates_in_table lines ->
   exists tab,
     initRate filename (Some lines) pd = Loaded (set_pdRate tab pd)
     /\ length tab = 837%nat
     /\ forall k, nth k tab [] = ratesAt k lines)
  /\ (~ rates_in_table lines ->
      initRate filename (Some lines) pd = OutOfBounds)
  /\ exists msg, initRate filename None pd = CannotOpen msg pd.
Proof.
  split; [|split].
  - intros Hin.
    destruct (readRates_spec lines (repeat [] (27 * 31))) as [tab [H1 [H2 H3]]].
    { intros rZ rN r H. rewrite repeat_length. apply (Hin rZ rN r H). }
    exists tab. unfold initRate. rewrite H1.
    split; [reflexivity|]. split; [rewrite H2; apply repeat_length|].
    intros k. rewrite H3.
    replace (nth k (repeat [] (27 * 31)) ([] : list R)) with ([] : list R);
      [reflexivity|].
    symmetry. apply nth_repeat.
  - intros Hout. unfold initRate.
    destruct (readRates lines (repeat [] (27 * 31))) as [tab|] eqn:Hr;
      [|reflexivity].
    exfalso. apply Hout. intros rZ rN r Hin.
    destruct (Z_lt_dec (rZ * 31 + rN) 0) as [Hn|Hn].
    { rewrite (readRates_overrun lines _ rZ rN r Hin) in Hr;
        [discriminate|lia]. }
    destruct (Z_lt_dec (rZ * 31 + rN) 837) as [Hl|Hl]; [lia|].
    rewrite (readRates_overrun lines _ rZ rN r Hin) in Hr; [discriminate|].
    rewrite repeat_length. lia.
  - eexists. reflexivity.
Qed.

(** X9.  [initRate] builds a table of 27 x 31 = 837 entries in which
    entry k is the concatenation, in file order, of the 251 samples
    (divided by Mpc) of every data row with Z x 31 + N = k; comment lines
    contribute nothing.  This holds exactly when every row has its index
    inside the table; a row outside makes the loader write past the end
    of the vector.  A file that cannot be opened raises and leaves the
    module as it was. *)
Theorem initRate_groups_rows_by_index (filename : string)
        (lines : list RateLine) (pd : t) :
  (rates_in_table lines ->
   exists tab,
     initRate filename (Some lines) pd = Loaded (set_pdRate tab pd)
     /\ length tab = 837%nat
     /\ forall k, nth k tab [] = ratesAt k lines)
  /\ (~ rates_in_table lines ->
      initRate filename (Some lines) pd = OutOfBounds)
  /\ exists msg, initRate filename None pd = CannotOpen msg pd.
Proof.
  exact (initRate_spec filename lines pd).
Qed.

Lemma ratesAt_nuclide (lines : list RateLine) (Zc Nc : Z) :
  rates_of_nuclides lines -> (0 <= Zc)%Z -> (0 <= Nc <= 30)%Z ->
  ratesAt (Z.to_nat (Zc * 31 + Nc)) lines = nuclideRates Zc Nc lines.
Proof.
  intros Hin HZ HN.
  induction lines as [|line rest IH]; [reflexivity|].
  assert (Hrest : rates_of_nuclides rest).
  { intros rZ rN r H. apply (Hin rZ rN r). right. exact H. }
  destruct line as [|rZ rN r]; cbn [ratesAt nuclideRates flat_map];
    fold (ratesAt (Z.to_nat (Zc * 31 + Nc)) rest);
    fold (nuclideRates Zc Nc rest); rewrite (IH Hrest); [reflexivity|].
  destruct (Hin rZ rN r (or_introl eq_refl)) as [HrZ HrN].
  rewrite Z2Nat.id by lia.
  destruct (rZ * 31 + rN =? Zc * 31 + Nc)%Z eqn:He.
  - apply Z.eqb_eq in He.
    assert (E1 : (rZ =? Zc)%Z = true) by (apply Z.eqb_eq; lia).
    assert (E2 : (rN =? Nc)%Z = true) by (apply Z.eqb_eq; lia).
    rewrite E1, E2. reflexivity.
  - apply Z.eqb_neq in He.
    destruct (rZ =? Zc)%Z eqn:E1; [|reflexivity].
    destruct (rN =? Nc)%Z eqn:E2; [|reflexivity].
    apply Z.eqb_eq in E1, E2. subst. lia.
Qed.

Lemma nuclideRates_unlisted (lines : list RateLine) (Zc Nc : Z) :
  (forall r, ~ In (RateRow Zc Nc r) lines) -> nuclideRates Zc Nc lines = [].
Proof.
  induction lines as [|line rest IH]; intros Hno; [reflexivity|].
  cbn [nuclideRates flat_map]. fold (nuclideRates Zc Nc rest).
  rewrite IH by (intros r H; apply (Hno r); right; exact H).
  destruct line as [|rZ rN r]; [reflexivity|].
  destruct (rZ =? Zc)%Z eqn:E1; [|reflexivity].
  destruct (rN =? Nc)%Z eqn:E2; [|reflexivity].
  apply Z.eqb_eq in E1, E2. subst.
  exfalso. apply (Hno r). left. reflexivity.
Qed.

Lemma nuclideRates_listed_once (l1 l2 : list RateLine) (Zc Nc : Z) r :
  (forall r', ~ In (RateRow Zc Nc r') l1) ->
  (forall r', ~ In (RateRow Zc Nc r') l2) ->
  nuclideRates Zc Nc (l1 ++ RateRow Zc Nc r :: l2)
  = map (fun x => x / Units.Mpc) (samples r).
Proof.
  intros H1 H2. unfold nuclideRates. rewrite flat_map_app.
  cbn [flat_map].
  fold (nuclideRates Zc Nc l1). fold (nuclideRates Zc Nc l2).
  rewrite (nuclideRates_unlisted l1 Zc Nc H1),
          (nuclideRates_unlisted l2 Zc Nc H2), !Z.eqb_refl.
  cbv [andb]. cbn [app]. apply app_nil_r.
Qed.

Lemma readBranches_spec (lines : list BranchLine) :
  forall tab,
    (forall rZ rN ch r, In (BranchRow rZ rN ch r) lines ->
                        (0 <= rZ * 31 + rN < Z.of_nat (length tab))%Z) ->
    exists tab',
      readBranches lines tab = Some tab'
      /\ length tab' = length tab
      /\ forall k, nth k tab' [] = nth k tab [] ++ branchesAt k lines.
Proof.
  induction lines as [|line rest IH]; intros tab Hin.
  - exists tab. split; [reflexivity|]. split; [reflexivity|].
    intros k. simpl. rewrite app_nil_r. reflexivity.
  - destruct line as [|rZ rN ch r].
    + destruct (IH tab) as [tab' [H1 [H2 H3]]].
      { intros rZ rN ch r H. apply (Hin rZ rN ch r). right. exact H. }
      exists tab'. split; [exact H1|]. split; [exact H2|exact H3].
    + destruct (pushAt_some [mkBranch ch (samples r)] tab (rZ * 31 + rN))
        as [tab1 [P1 [P2 P3]]].
      { apply (Hin rZ rN ch r). left. reflexivity. }
      destruct (IH tab1) as [tab' [H1 [H2 H3]]].
      { intros rZ' rN' ch' r' H. rewrite P2.
        apply (Hin rZ' rN' ch' r'). right. exact H. }
      exists tab'. cbn [readBranches]. rewrite P1.
      split; [exact H1|]. split; [congruence|].
      intros k. rewrite H3, P3. cbn [branchesAt flat_map].
      destruct (rZ * 31 + rN =? Z.of_nat k)%Z.
      * rewrite <- app_assoc. reflexivity.
      * reflexivity.
Qed.

Lemma initBranching_spec (filename : string) (lines : list BranchLine)
      (pd : t) :
  branches_in_table lines ->
  exists tab,
    initBranching filename (Some lines) pd = Loaded (set_pdBranch tab pd)
    /\ length tab = 837%nat
    /\ forall k, nth k tab [] = branchesAt k lines.
Proof.
  intros Hin.
  destruct (readBranches_spec lines (repeat [] (27 * 31)))
    as [tab [H1 [H2 H3]]].
  { intros rZ rN ch r H. rewrite repeat_length. apply (Hin rZ rN ch r H). }
  exists tab. unfold initBranching. rewrite H1.
  split; [reflexivity|]. split; [rewrite H2; apply repeat_length|].
  intros k. rewrite H3.
  replace (nth k (repeat [] (27 * 31)) ([] : list Branch))
    with ([] : list Branch); [reflexivity|].
  symmetry. apply nth_repeat.
Qed.

Lemma branchesAt_nuclide (lines : list BranchLine) (Zc Nc : Z) :
  branches_of_nuclides lines -> (0 <= Zc)%Z -> (0 <= Nc <= 30)%Z ->
  branchesAt (Z.to_nat (Zc * 31 + Nc)) lines = nuclideBranches Zc Nc lines.
Proof.
  intros Hin HZ HN.
  induction lines as [|line rest IH]; [reflexivity|].
  assert (Hrest : branches_of_nuclides rest).
  { intros rZ rN ch r H. apply (Hin rZ rN ch r). right. exact H. }
  destruct line as [|rZ rN ch r]; cbn [branchesAt nuclideBranches flat_map];
    fold (branchesAt (Z.to_nat (Zc * 31 + Nc)) rest);
    fold (nuclideBranches Zc Nc rest); rewrite (IH Hrest); [reflexivity|].
  destruct (Hin rZ rN ch r (or_introl eq_refl)) as [HrZ HrN].
  rewrite Z2Nat.id by lia.
  destruct (rZ * 31 + rN =? Zc * 31 + Nc)%Z eqn:He.
  - apply Z.eqb_eq in He.
    assert (E1 : (rZ =? Zc)%Z = true) by (apply Z.eqb_eq; lia).
    assert (E2 : (rN =? Nc)%Z = true) by (apply Z.eqb_eq; lia).
    rewrite E1, E2. reflexivity.
  - apply Z.eqb_neq in He.
    destruct (rZ =? Zc)%Z eqn:E1; [|reflexivity].
    destruct (rN =? Nc)%Z eqn:E2; [|reflexivity].
    apply Z.eqb_eq in E1, E2. subst. lia.
Qed.

Lemma lookupPhoton_push (key k : Z) (em : PhotonEmission) :
  forall m,
    lookupPhoton (pushPhoton k em m) key
    = lookupPhoton m key ++ (if (k =? key)%Z then [em] else []).
Proof.
  induction m as [|[k' v] rest IH].
  - simpl. destruct (k =? key)%Z; reflexivity.
  - cbn [pushPhoton]. destruct (k' =? k)%Z eqn:Hk.
    + apply Z.eqb_eq in Hk. subst k'. cbn [lookupPhoton].
      destruct (k =? key)%Z; [reflexivity|].
      rewrite app_nil_r. reflexivity.
    + cbn [lookupPhoton]. destruct (k' =? key)%Z eqn:Hk'.
      * apply Z.eqb_eq in Hk'. subst k'.
        apply Z.eqb_neq in Hk.
        assert (He : (k =? key)%Z = false) by (apply Z.eqb_neq; lia).
        rewrite He, app_nil_r. reflexivity.
      * exact IH.
Qed.

Lemma readPhotons_spec (lines : list PhotonLine) (key : Z) :
  forall m,
    lookupPhoton (readPhotons lines m) key
    = lookupPhoton m key ++ emissionsAt key lines.
Proof.
  induction lines as [|line rest IH]; intros m.
  - simpl. rewrite app_nil_r. reflexivity.
  - destruct line as [|rZ rN rZd rNd e r].
    + exact (IH m).
    + cbn [readPhotons emissionsAt flat_map]. cbv zeta.
      rewrite IH, lookupPhoton_push, <- app_assoc. reflexivity.
Qed.

Lemma emissionsAt_transition (lines : list PhotonLine) (Zc Nc Zd Nd : Z) :
  photon_rows_two_digit lines ->
  (0 <= Nc < 100)%Z -> (0 <= Zd < 100)%Z -> (0 <= Nd < 100)%Z ->
  emissionsAt (Zc * 1000000 + Nc * 10000 + Zd * 100 + Nd) lines
  = transitionLines Zc Nc Zd Nd lines.
Proof.
  intros Hin HN HZd HNd.
  induction lines as [|line rest IH]; [reflexivity|].
  assert (Hrest : photon_rows_two_digit rest).
  { intros rZ rN rZd rNd e r H. apply (Hin rZ rN rZd rNd e r). right. exact H. }
  destruct line as [|rZ rN rZd rNd e r];
    cbn [emissionsAt transitionLines flat_map];
    fold (emissionsAt (Zc * 1000000 + Nc * 10000 + Zd * 100 + Nd) rest);
    fold (transitionLines Zc Nc Zd Nd rest); rewrite (IH Hrest);
    [reflexivity|].
  destruct (Hin rZ rN rZd rNd e r (or_introl eq_refl)) as [H1 [H2 H3]].
  destruct (rZ * 1000000 + rN * 10000 + rZd * 100 + rNd
            =? Zc * 1000000 + Nc * 10000 + Zd * 100 + Nd)%Z eqn:He.
  - apply Z.eqb_eq in He.
    assert (E1 : (rZ =? Zc)%Z = true) by (apply Z.eqb_eq; lia).
    assert (E2 : (rN =? Nc)%Z = true) by (apply Z.eqb_eq; lia).
    assert (E3 : (rZd =? Zd)%Z = true) by (apply Z.eqb_eq; lia).
    assert (E4 : (rNd =? Nd)%Z = true) by (apply Z.eqb_eq; lia).
    rewrite E1, E2, E3, E4. reflexivity.
  - apply Z.eqb_neq in He.
    destruct (rZ =? Zc)%Z eqn:E1; [|reflexivity].
    destruct (rN =? Nc)%Z eqn:E2; [|reflexivity].
    destruct (rZd =? Zd)%Z eqn:E3; [|reflexivity].
    destruct (rNd =? Nd)%Z eqn:E4; [|reflexivity].
    apply Z.eqb_eq in E1, E2, E3, E4. subst. lia.
Qed.

(** X10.  [initPhotonEmission] files each line under the key
    Z x 10^6 + N x 10^4 + Zd x 10^2 + Nd and keeps the lines of one key in
    file order; rate and branching tables are not touched.  As long as N,
    Zd and Nd have at most two digits the key separates the transitions,
    and the key that [performInteraction] computes from the parent and
    the channel finds exactly the lines listed for the transition
    (Z, A-Z) -> (Z+dZ, A+dA-Z-dZ). *)
Theorem photon_lines_are_found_by_transition (filename : string)
        (lines : list PhotonLine) (pd : t) (c : Candidate) (ch : Z) :
  photon_rows_two_digit lines ->
  let A := massNumber (ps_id (current c)) in
  let Zc := chargeNumber (ps_id (current c)) in
  let Zd := (Zc + channel_dZ ch)%Z in
  let Nd := (A + channel_dA ch - Zd)%Z in
  (0 <= A - Zc < 100)%Z -> (0 <= Zd < 100)%Z -> (0 <= Nd < 100)%Z ->
  exists pd',
    initPhotonEmission filename (Some lines) pd = Loaded pd'
    /\ pdRate pd' = pdRate pd /\ pdBranch pd' = pdBranch pd
    /\ (forall key, lookupPhoton (pdPhoton pd') key = emissionsAt key lines)
    /\ lookupPhoton (pdPhoton pd') (photonKey c ch)
       = transitionLines Zc (A - Zc) Zd Nd lines.
Proof.
  intros Hin A Zc Zd Nd HN HZd HNd.
  eexists. split; [reflexivity|]. split; [reflexivity|].
  split; [reflexivity|]. cbn [pdPhoton set_pdPhoton].
  split.
  - intros key. rewrite readPhotons_spec. reflexivity.
  - rewrite readPhotons_spec. cbn [lookupPhoton app].
    unfold photonKey. cbv zeta. fold A Zc. fold Zd.
    replace (Zc * 1000000 + (A - Zc) * 10000 + Zd * 100
             + (A + channel_dA ch) - Zd)%Z
      with (Zc * 1000000 + (A - Zc) * 10000 + Zd * 100 + Nd)%Z
      by (unfold Nd; lia).
    apply emissionsAt_transition; assumption.
Qed.

Section WithMasses.
Variable nuclearMass : Z -> R.

(** X11.  For a rate file about nuclides with 0 <= Z <= 26 and
    0 <= N <= 30, the index Z x 31 + N separates the nuclides: after
    [initRate] the entry that [process] reads for a nucleus holds the
    samples of exactly the rows of its own (Z, N).  A nucleus that the
    file does not list is returned by [process] unchanged, without a
    draw; a nucleus listed once has an entry of exactly nlg = 251
    samples, the row's values divided by Mpc. *)
Theorem rate_file_decides_which_nuclides_interact (filename : string)
        (lines : list RateLine) (pd : t) :
  rates_of_nuclides lines ->
  exists pd',
    initRate filename (Some lines) pd = Loaded pd'
    /\ forall c : Candidate,
         let Zc := chargeNumber (ps_id (current c)) in
         let Nc := (massNumber (ps_id (current c)) - Zc)%Z in
         (0 <= Zc)%Z -> (0 <= Nc)%Z ->
         ((Nc <= 30)%Z ->
          nth (pd_index c) (pdRate pd') [] = nuclideRates Zc Nc lines)
         /\ ((forall r, ~ In (RateRow Zc Nc r) lines) ->
             forall fuel step g,
               processLoop nuclearMass pd' (S fuel) step c g = Returns c g)
         /\ (forall l1 l2 r,
                (Nc <= 30)%Z ->
                lines = l1 ++ RateRow Zc Nc r :: l2 ->
                (forall r', ~ In (RateRow Zc Nc r') l1) ->
                (forall r', ~ In (RateRow Zc Nc r') l2) ->
                nth (pd_index c) (pdRate pd') []
                = map (fun x => x / Units.Mpc) (samples r)
                /\ length (nth (pd_index c) (pdRate pd') []) = nlg).
Proof.
  intros Hin.
  destruct (proj1 (initRate_spec filename lines pd))
    as [tab [Hload [Hlen Htab]]].
  { intros rZ rN r H. destruct (Hin rZ rN r H). lia. }
  exists (set_pdRate tab pd). split; [exact Hload|].
  intros c Zc Nc HZ HN.
  assert (Hentry : (Nc <= 30)%Z ->
            nth (pd_index c) (pdRate (set_pdRate tab pd)) []
            = nuclideRates Zc Nc lines).
  { intros HN30. cbn [pdRate set_pdRate]. rewrite Htab. unfold pd_index.
    apply ratesAt_nuclide; [exact Hin|exact HZ|]. split; assumption. }
  split; [exact Hentry|]. split.
  - intros Hno fuel step g. apply processLoop_skip.
    unfold pd_inapplicable. cbv zeta. fold Zc.
    destruct (Z_le_gt_dec Nc 30) as [HN30|HN30].
    + right. right. right. left.
      rewrite (Hentry HN30). apply nuclideRates_unlisted. exact Hno.
    + right. right. left. unfold Nc in HN30. lia.
  - intros l1 l2 r HN30 Hl H1 H2.
    rewrite (Hentry HN30), Hl, (nuclideRates_listed_once l1 l2 Zc Nc r H1 H2).
    split; [reflexivity|].
    unfold samples. rewrite !length_map, length_seq. reflexivity.
Qed.

End WithMasses.

Section WithData.

Variable getDataPath : string -> string.
Variable rateFiles : string -> option (list RateLine).
Variable branchingFiles : string -> option (list BranchLine).
Variable photonFiles : string -> option (list PhotonLine).

(** X12.  When the three data files of the new field can be opened and
    their rows are about nuclides of the table, [setPhotonField]
    succeeds, stores the field, leaves [havePhotons], limit and tag
    alone, and replaces all three tables: rate and branching entries of a
    nucleus come from the rows of its (Z, N) in the respective file, in
    file order and at the same index, and the photon lines under a key
    are the rows of the emission file with that key. *)
Theorem setPhotonField_loads_the_tables_of_the_field (pf : PhotonField)
        (pd : t) (rl : list RateLine) (bl : list BranchLine)
        (pl : list PhotonLine) :
  rateFiles (ratePath getDataPath (getFieldName pf)) = Some rl ->
  branchingFiles (branchingPath getDataPath (getFieldName pf)) = Some bl ->
  photonFiles (photonPath getDataPath (getFieldName pf)) = Some pl ->
  rates_of_nuclides rl ->
  branches_of_nuclides bl ->
  exists pd',
    setPhotonField getDataPath rateFiles branchingFiles photonFiles pf pd
    = Loaded pd'
    /\ photonField pd' = pf
    /\ havePhotons pd' = havePhotons pd
    /\ limit pd' = limit pd
    /\ interactionTag pd' = interactionTag pd
    /\ length (pdRate pd') = 837%nat
    /\ length (pdBranch pd') = 837%nat
    /\ (forall c : Candidate,
          let Zc := chargeNumber (ps_id (current c)) in
          let Nc := (massNumber (ps_id (current c)) - Zc)%Z in
          (0 <= Zc)%Z -> (0 <= Nc <= 30)%Z ->
          nth (pd_index c) (pdRate pd') [] = nuclideRates Zc Nc rl
          /\ nth (pd_index c) (pdBranch pd') [] = nuclideBranches Zc Nc bl)
    /\ (forall key, lookupPhoton (pdPhoton pd') key = emissionsAt key pl).
Proof.
  intros Hr Hb Hp Hrl Hbl.
  unfold setPhotonField. cbv zeta.
  rewrite Hr, Hb, Hp.
  destruct (proj1 (initRate_spec
                     (ratePath getDataPath (getFieldName pf)) rl
                     (set_photonField pf pd)))
    as [tab [Hload [Hlen Htab]]].
  { intros rZ rN r H. destruct (Hrl rZ rN r H). lia. }
  rewrite Hload. cbn [andThenLoad].
  destruct (initBranching_spec
              (branchingPath getDataPath (getFieldName pf)) bl
              (set_pdRate tab (set_photonField pf pd)))
    as [tabB [HloadB [HlenB HtabB]]].
  { intros rZ rN ch r H. destruct (Hbl rZ rN ch r H). lia. }
  rewrite HloadB. cbn [andThenLoad].
  eexists. split; [reflexivity|].
  cbn [photonField havePhotons limit interactionTag pdRate pdBranch pdPhoton
       set_pdPhoton set_pdBranch set_pdRate set_photonField].
  repeat (split; [first [reflexivity|assumption]|]).
  split.
  - intros c HZ HN. rewrite Htab, HtabB. unfold pd_index. split.
    + apply ratesAt_nuclide; assumption.
    + apply branchesAt_nuclide; assumption.
  - intros key. rewrite readPhotons_spec. reflexivity.
Qed.

(** X13.  A failing [setPhotonField] is not rolled back.  When the
    rate file cannot be opened the new field is already stored while all
    tables are still those of the old field; when the branching file is
    the one missing, the rate table is already that of the new field
    while branching and photon tables are the old ones; when the emission
    file is missing, rate and branching tables are new and the photon
    table is old. *)
Theorem failed_setPhotonField_is_not_rolled_back (pf : PhotonField) (pd : t) :
  (rateFiles (ratePath getDataPath (getFieldName pf)) = None ->
   exists msg,
     setPhotonField getDataPath rateFiles branchingFiles photonFiles pf pd
     = CannotOpen msg (set_photonField pf pd))
  /\ (forall rl,
        rateFiles (ratePath getDataPath (getFieldName pf)) = Some rl ->
        rates_in_table rl ->
        branchingFiles (branchingPath getDataPath (getFieldName pf)) = None ->
        exists msg pd',
          setPhotonField getDataPath rateFiles branchingFiles photonFiles
                         pf pd
          = CannotOpen msg pd'
          /\ photonField pd' = pf
          /\ (forall k, nth k (pdRate pd') [] = ratesAt k rl)
          /\ pdBranch pd' = pdBranch pd
          /\ pdPhoton pd' = pdPhoton pd)
  /\ (forall rl bl,
        rateFiles (ratePath getDataPath (getFieldName pf)) = Some rl ->
        rates_in_table rl ->
        branchingFiles (branchingPath getDataPath (getFieldName pf))
        = Some bl ->
        branches_in_table bl ->
        photonFiles (photonPath getDataPath (getFieldName pf)) = None ->
        exists msg pd',
          setPhotonField getDataPath rateFiles branchingFiles photonFiles
                         pf pd
          = CannotOpen msg pd'
          /\ photonField pd' = pf
          /\ (forall k, nth k (pdRate pd') [] = ratesAt k rl)
          /\ (forall k, nth k (pdBranch pd') [] = branchesAt k bl)
          /\ pdPhoton pd' = pdPhoton pd).
Proof.
  unfold setPhotonField. cbv zeta.
  split; [|split].
  - intros Hr. rewrite Hr. eexists. reflexivity.
  - intros rl Hr Hrl Hb. rewrite Hr, Hb.
    destruct (proj1 (initRate_spec
                       (ratePath getDataPath (getFieldName pf)) rl
                       (set_photonField pf pd)) Hrl)
      as [tab [Hload [Hlen Htab]]].
    rewrite Hload. cbn [andThenLoad initBranching].
    eexists. eexists. split; [reflexivity|].
    repeat split. exact Htab.
  - intros rl bl Hr Hrl Hb Hbl Hp. rewrite Hr, Hb, Hp.
    destruct (proj1 (initRate_spec
                       (ratePath getDataPath (getFieldName pf)) rl
                       (set_photonField pf pd)) Hrl)
      as [tab [Hload [Hlen Htab]]].
    rewrite Hload. cbn [andThenLoad].
    destruct (initBranching_spec
                (branchingPath getDataPath (getFieldName pf)) bl
                (set_pdRate tab (set_photonField pf pd)) Hbl)
      as [tabB [HloadB [HlenB HtabB]]].
    rewrite HloadB. cbn [andThenLoad initPhotonEmission].
    eexists. eexists. split; [reflexivity|].
    repeat split; assumption.
Qed.

End WithData.

End PDTables.

Lemma sample_rate_file_nuclides : rates_of_nuclides sample_rate_file.
Proof.
  intros rZ rN r [H|[H|[]]]; [discriminate|].
  inversion H; subst. lia.
Qed.

Lemma sample_branching_file_nuclides :
  branches_of_nuclides sample_branching_file.
Proof.
  intros rZ rN ch r [H|[H|[]]]; [discriminate|].
  inversion H; subst. lia.
Qed.

Lemma sample_photon_file_two_digit : photon_rows_two_digit sample_photon_file.
Proof.
  intros rZ rN rZd rNd e r [H|[H|[]]]; [discriminate|].
  inversion H; subst. lia.
Qed.

Lemma initRate_groups_rows_by_index_witness :
  exists tab,
    PhotoDisintegration.initRate "rate_CMB.txt" (Some sample_rate_file) pd_quiet
    = PhotoDisintegration.Loaded (PhotoDisintegration.set_pdRate tab pd_quiet)
    /\ length tab = 837%nat
    /\ forall k, nth k tab [] = ratesAt k sample_rate_file.
Proof.
  apply (proj1 (initRate_groups_rows_by_index "rate_CMB.txt" sample_rate_file
                  pd_quiet)).
  intros rZ rN r H. destruct (sample_rate_file_nuclides rZ rN r H). lia.
Defined.

Lemma rate_file_decides_which_nuclides_interact_witness :
  exists pd',
    PhotoDisintegration.initRate "rate_CMB.txt" (Some sample_rate_file) pd_quiet
    = PhotoDisintegration.Loaded pd'
    /\ forall fuel step g,
         PhotoDisintegration.processLoop sample_mass pd' (S fuel) step
                                         iron56 g
         = PhotoDisintegration.Returns iron56 g.
Proof.
  destruct (rate_file_decides_which_nuclides_interact sample_mass
              "rate_CMB.txt" sample_rate_file pd_quiet
              sample_rate_file_nuclides) as [pd' [Hload Hall]].
  exists pd'. split; [exact Hload|].
  apply (proj1 (proj2 (Hall iron56 ltac:(vm_compute; discriminate)
                                  ltac:(vm_compute; discriminate)))).
  intros r [H|[H|[]]]; discriminate.
Defined.

Lemma setPhotonField_loads_the_tables_of_the_field_witness :
  exists pd',
    PhotoDisintegration.setPhotonField (fun s => s)
      (fun _ => Some sample_rate_file) (fun _ => Some sample_branching_file)
      (fun _ => Some sample_photon_file) flat_field pd_quiet
    = PhotoDisintegration.Loaded pd'
    /\ PhotoDisintegration.photonField pd' = flat_field
    /\ nth (pd_index helium4) (PhotoDisintegration.pdRate pd') []
       = nuclideRates 2 2 sample_rate_file.
Proof.
  destruct (setPhotonField_loads_the_tables_of_the_field (fun s => s)
              (fun _ => Some sample_rate_file)
              (fun _ => Some sample_branching_file)
              (fun _ => Some sample_photon_file) flat_field pd_quiet
              sample_rate_file sample_branching_file sample_photon_file
              eq_refl eq_refl eq_refl sample_rate_file_nuclides
              sample_branching_file_nuclides)
    as [pd' [Hload [Hpf [_ [_ [_ [_ [_ [Hc _]]]]]]]]].
  exists pd'. split; [exact Hload|]. split; [exact Hpf|].
  apply (Hc helium4); vm_compute; [discriminate|split; discriminate].
Defined.

Lemma failed_setPhotonField_is_not_rolled_back_witness :
  exists msg pd',
    PhotoDisintegration.setPhotonField (fun s => s)
      (fun _ => Some sample_rate_file) (fun _ => None)
      (fun _ => Some sample_photon_file) flat_field pd_sample
    = PhotoDisintegration.CannotOpen msg pd'
    /\ (forall k, nth k (PhotoDisintegration.pdRate pd') []
                  = ratesAt k sample_rate_file)
    /\ PhotoDisintegration.pdBranch pd'
       = PhotoDisintegration.pdBranch pd_sample.
Proof.
  destruct (proj1 (proj2 (failed_setPhotonField_is_not_rolled_back
                            (fun s => s) (fun _ => Some sample_rate_file)
                            (fun _ => None) (fun _ => Some sample_photon_file)
                            flat_field pd_sample))
              sample_rate_file eq_refl) as [msg [pd' [H1 [_ [H2 [H3 _]]]]]].
  - intros rZ rN r H. destruct (sample_rate_file_nuclides rZ rN r H). lia.
  - reflexivity.
  - exists msg, pd'. split; [exact H1|]. split; [exact H2|exact H3].
Defined.

Lemma photon_lines_are_found_by_transition_witness :
  exists pd',
    PhotoDisintegration.initPhotonEmission "photon_emission_CMB.txt"
      (Some sample_photon_file) pd_quiet
    = PhotoDisintegration.Loaded pd'
    /\ PhotoDisintegration.lookupPhoton (PhotoDisintegration.pdPhoton pd')
         (photonKey helium4 100000)
       = transitionLines 2 2 2 1 sample_photon_file.
Proof.
  destruct (photon_lines_are_found_by_transition "photon_emission_CMB.txt"
              sample_photon_file pd_quiet helium4 100000
              sample_photon_file_two_digit)
    as [pd' [Hload [_ [_ [_ Hkey]]]]].
  - vm_compute. split; [discriminate|reflexivity].
  - vm_compute. split; [discriminate|reflexivity].
  - vm_compute. split; [discriminate|reflexivity].
  - exists pd'. split; [exact Hload|exact Hkey].
Defined.

(** ** The tables of ElectronPairProduction *)

Section EPPTables.
Import ElectronPairProduction ParticleID CandidateOps RandomOps.

Lemma Loaded_inj (a b : t) : Loaded a = Loaded b -> a = b.
Proof. intros H. congruence. Qed.

Lemma readRate_spec (lines : list RateLine) :
  forall X Y,
    readRate lines X Y
    = (X ++ map (fun p => Dbl.pow 10 (fst p)) (pairsRead lines),
       Y ++ map (fun p => snd p / Units.Mpc) (pairsRead lines)).
Proof.
  induction lines as [|line rest IH]; intros X Y.
  - simpl. rewrite !app_nil_r. reflexivity.
  - destruct line as [|a b|]; cbn [readRate pairsRead].
    + apply IH.
    + rewrite IH. cbn [map fst snd]. rewrite <- !app_assoc. reflexivity.
    + simpl. rewrite !app_nil_r. reflexivity.
Qed.

Lemma pow10_sorted (ps : list (R * R)) :
  StronglySorted Rlt (map fst ps) ->
  StronglySorted Rlt (map (fun p => Dbl.pow 10 (fst p)) ps).
Proof.
  induction ps as [|p rest IH]; intros H; [constructor|].
  cbn [map] in *. inversion H as [|x l Hs Hall]; subst.
  constructor; [apply IH; exact Hs|].
  rewrite Forall_forall in *. intros y Hy.
  apply in_map_iff in Hy. destruct Hy as [q [Hq Hin]]. subst y.
  unfold Dbl.pow. apply Rpower_lt; [lra|].
  apply Hall. apply in_map. exact Hin.
Qed.

Lemma pow10_positive (ps : list (R * R)) :
  Forall (fun x => 0 < x) (map (fun p => Dbl.pow 10 (fst p)) ps).
Proof.
  apply Forall_forall. intros y Hy.
  apply in_map_iff in Hy. destruct Hy as [q [Hq _]]. subst y.
  unfold Dbl.pow, Rpower. apply exp_pos.
Qed.

Lemma nth_map_some {A : Type} (f : A -> R) (l : list A) (d : R) :
  forall i x, nth_error l i = Some x -> nth i (map f l) d = f x.
Proof.
  induction l as [|a rest IH]; intros [|i] x H; simpl in H; try discriminate.
  - simpl. congruence.
  - simpl. apply IH. exact H.
Qed.

Lemma accumulate_nth (f : nat -> R) :
  forall (n s j : nat),
    (j < n)%nat ->
    nth j (accumulate (partialSum f s) (map f (seq (S s) n))) 0
    = partialSum f (S s + j).
Proof.
  induction n as [|n IH]; intros s j Hj; [lia|].
  cbn [seq map accumulate].
  change (f (S s) + partialSum f s) with (partialSum f (S s)).
  destruct j as [|j].
  - cbn [nth]. rewrite Nat.add_0_r. reflexivity.
  - cbn [nth]. rewrite (IH (S s) j) by lia. f_equal. lia.
Qed.

Lemma cumulative_nth (f : nat -> R) (n j : nat) :
  (j < n)%nat ->
  nth j (cumulative (map f (seq 0 n))) 0 = partialSum f j.
Proof.
  intros Hj. destruct n as [|n]; [lia|].
  cbn [seq map cumulative].
  destruct j as [|j]; [reflexivity|].
  cbn [nth]. change (f 0%nat) with (partialSum f 0) at 1.
  rewrite accumulate_nth by lia. reflexivity.
Qed.

Lemma accumulate_length (prev : R) (l : list R) :
  length (accumulate prev l) = length l.
Proof.
  revert prev. induction l as [|x rest IH]; intros prev; [reflexivity|].
  simpl. rewrite IH. reflexivity.
Qed.

Lemma cumulative_length (l : list R) : length (cumulative l) = length l.
Proof.
  destruct l as [|x rest]; [reflexivity|].
  simpl. rewrite accumulate_length. reflexivity.
Qed.

Lemma spectrumRow_length (v : nat -> R) (i : nat) :
  length (spectrumRow v i) = 170%nat.
Proof.
  unfold spectrumRow. rewrite cumulative_length, length_map, length_seq.
  reflexivity.
Qed.

Lemma spectrum_row_at (v : nat -> R) (i : nat) :
  (i < 70)%nat ->
  nth i (map (spectrumRow v) (seq 0 70)) [] = spectrumRow v i.
Proof.
  intros Hi.
  rewrite (nth_indep _ [] (spectrumRow v 0))
    by (rewrite length_map, length_seq; exact Hi).
  rewrite map_nth, seq_nth by exact Hi. reflexivity.
Qed.

Lemma partialSum_nonneg (f : nat -> R) :
  (forall k, 0 <= f k) -> forall j, 0 <= partialSum f j.
Proof.
  intros Hf. induction j as [|j IH]; simpl; [apply Hf|].
  pose proof (Hf (S j)). lra.
Qed.

(** X14.  [initSpectrum] leaves the rate tables alone and builds 70
    rows of 170 entries; entry j of row i is the sum of the weighted
    values dN/dE x 10^(7 + 0.1 k) for k = 0..j of that row.  For a file
    without negative values every row starts at a non-negative value and
    never decreases: it is an unnormalised cumulative distribution. *)
Theorem initSpectrum_builds_cumulative_rows (filename : string)
        (v : nat -> R) (epp : t) :
  exists epp',
    initSpectrum filename (Some v) epp = Loaded epp'
    /\ length (tabSpectrum epp') = 70%nat
    /\ tabLorentzFactor epp' = tabLorentzFactor epp
    /\ tabLossRate epp' = tabLossRate epp
    /\ forall i, (i < 70)%nat ->
         let row := nth i (tabSpectrum epp') [] in
         length row = 170%nat
         /\ (forall j, (j < 170)%nat ->
                nth j row 0 = partialSum (weighted v i) j)
         /\ ((forall k, 0 <= v k) ->
             0 <= nth 0 row 0
             /\ forall j, (S j < 170)%nat -> nth j row 0 <= nth (S j) row 0).
Proof.
  eexists. split; [reflexivity|].
  cbn [tabSpectrum tabLorentzFactor tabLossRate set_tabSpectrum].
  split; [rewrite length_map, length_seq; reflexivity|].
  split; [reflexivity|]. split; [reflexivity|].
  intros i Hi. cbv zeta. rewrite (spectrum_row_at v i Hi).
  assert (Hnth : forall j, (j < 170)%nat ->
            nth j (spectrumRow v i) 0 = partialSum (weighted v i) j).
  { intros j Hj. unfold spectrumRow.
    change (fun j0 : nat =>
              v (i * 170 + j0)%nat * Dbl.pow 10 (7 + 0.1 * INR j0))
      with (weighted v i).
    apply cumulative_nth. exact Hj. }
  split; [apply spectrumRow_length|]. split; [exact Hnth|].
  intros Hv.
  assert (Hw : forall k, 0 <= weighted v i k).
  { intros k. unfold weighted, Dbl.pow, Rpower.
    apply Rmult_le_pos; [apply Hv|]. left. apply exp_pos. }
  split.
  - rewrite Hnth by lia. apply partialSum_nonneg. exact Hw.
  - intros j Hj. rewrite !Hnth by lia. simpl. pose proof (Hw (S j)). lra.
Qed.

Section WithData.

Variable path : string -> string.
Variable rates : string -> option (list RateLine).
Variable spectra : string -> option (nat -> R).

Lemma setPhotonField_in_step (pf : PhotonField) (epp epp' : t) :
  setPhotonField path rates spectra pf epp = Loaded epp' ->
  epp_in_step path rates spectra epp' /\ photonField epp' = pf
  /\ haveElectrons epp' = haveElectrons epp /\ limit epp' = limit epp
  /\ interactionTag epp' = interactionTag epp.
Proof.
  unfold setPhotonField, initRate.
  cbv zeta.
  destruct (rates (ratePath path (getFieldName pf)))
    as [lines|] eqn:Hr; [|discriminate].
  rewrite readRate_spec. cbn [app].
  cbn [haveElectrons set_tabRate set_photonField].
  destruct (haveElectrons epp) eqn:He.
  - unfold initSpectrum.
    destruct (spectra (spectrumPath path (getFieldName pf)))
      as [v|] eqn:Hs; [|discriminate].
    intros H. apply Loaded_inj in H. subst epp'. unfold epp_in_step.
      cbn [photonField haveElectrons tabLorentzFactor tabLossRate tabSpectrum
           set_tabRate set_tabSpectrum set_photonField set_haveElectrons].
      rewrite He.
    repeat split.
    + exists lines. repeat split. exact Hr.
    + intros _. exists v. split; [exact Hs|reflexivity].
  - intros H. apply Loaded_inj in H. subst epp'. unfold epp_in_step.
      cbn [photonField haveElectrons tabLorentzFactor tabLossRate tabSpectrum
           set_tabRate set_tabSpectrum set_photonField set_haveElectrons].
      rewrite He.
    repeat split.
    + exists lines. repeat split. exact Hr.
    + discriminate.
Qed.

(** X15.  Whenever the constructor or a setter returns normally, the
    tables belong to the files of the stored photon field: the rate
    tables always, the spectrum whenever [haveElectrons] is set.  The
    constructor and [setPhotonField] establish this from any state,
    [setHaveElectrons], [setLimit] and [setInteractionTag] preserve it.
    Hence with [haveElectrons] set the row min(max(i, 0), 69) that
    [process] reads always exists and has 170 entries. *)
Theorem tables_stay_in_step_with_the_field :
  (forall tag0 pf b lim epp',
      construct path rates spectra tag0 pf b lim = Loaded epp' ->
      epp_in_step path rates spectra epp'
      /\ photonField epp' = pf /\ haveElectrons epp' = b
      /\ limit epp' = lim /\ interactionTag epp' = tag0)
  /\ (forall pf epp epp',
        setPhotonField path rates spectra pf epp = Loaded epp' ->
        epp_in_step path rates spectra epp' /\ photonField epp' = pf)
  /\ (forall b epp epp',
        epp_in_step path rates spectra epp ->
        setHaveElectrons path spectra b epp = Loaded epp' ->
        epp_in_step path rates spectra epp' /\ haveElectrons epp' = b)
  /\ (forall x tag epp,
        epp_in_step path rates spectra epp ->
        epp_in_step path rates spectra (setLimit x epp)
        /\ epp_in_step path rates spectra (setInteractionTag tag epp))
  /\ (forall epp (i : Z),
        epp_in_step path rates spectra epp -> haveElectrons epp = true ->
        length (nth (Z.to_nat (Z.min (Z.max i 0) 69)) (tabSpectrum epp) [])
        = 170%nat).
Proof.
  split; [|split; [|split; [|split]]].
  - intros tag0 pf b lim epp' H.
    unfold construct in H. cbv zeta in H.
    apply setPhotonField_in_step in H.
    destruct H as [H1 [H2 [H3 [H4 H5]]]].
    split; [exact H1|]. split; [exact H2|]. split; [exact H3|].
    split; [exact H4|exact H5].
  - intros pf epp epp' H. apply setPhotonField_in_step in H.
    destruct H as [H1 [H2 _]]. split; assumption.
  - intros b epp epp' [Hrate Hspec] H.
    unfold setHaveElectrons in H.
    cbv zeta in H. destruct b.
    + unfold initSpectrum in H.
      cbn [photonField set_haveElectrons] in H.
      destruct (spectra _) as [v|] eqn:Hs; [|discriminate].
      apply Loaded_inj in H. subst epp'. unfold epp_in_step.
      cbn [photonField haveElectrons tabLorentzFactor tabLossRate tabSpectrum
           set_tabRate set_tabSpectrum set_photonField set_haveElectrons].
      repeat split; [exact Hrate|].
      intros _. exists v. split; [exact Hs|reflexivity].
    + assert (Hc : epp' = set_haveElectrons false epp) by congruence.
      rewrite Hc. unfold epp_in_step.
      cbn [photonField haveElectrons tabLorentzFactor tabLossRate tabSpectrum
           set_tabRate set_tabSpectrum set_photonField set_haveElectrons].
      repeat split; [exact Hrate|discriminate].
  - intros x tag epp H. split; exact H.
  - intros epp i [_ Hspec] He.
    destruct (Hspec He) as [v [_ Htab]]. rewrite Htab.
    rewrite spectrum_row_at by lia. apply spectrumRow_length.
Qed.

(** X16.  A failing load is not rolled back.  [setPhotonField] on a
    field without rate file raises with the new field stored and the old
    tables; with a rate file but no spectrum file (and [haveElectrons]
    set) it raises with field and rate tables new and the spectrum old.
    [setHaveElectrons(true)] without spectrum file raises with the flag
    already set and the spectrum as it was. *)
Theorem failed_load_leaves_partial_update (pf : PhotonField) (epp : t) :
  (rates (ratePath path (getFieldName pf)) = None ->
   exists msg,
     setPhotonField path rates spectra pf epp
     = CannotOpen msg (set_photonField pf epp))
  /\ (forall lines,
        rates (ratePath path (getFieldName pf)) = Some lines ->
        haveElectrons epp = true ->
        spectra (spectrumPath path (getFieldName pf)) = None ->
        exists msg epp',
          setPhotonField path rates spectra pf epp = CannotOpen msg epp'
          /\ photonField epp' = pf
          /\ tabLorentzFactor epp'
             = map (fun p => Dbl.pow 10 (fst p)) (pairsRead lines)
          /\ tabSpectrum epp' = tabSpectrum epp)
  /\ (spectra
        (spectrumPath path (getFieldName (photonField epp))) = None ->
      exists msg epp',
        setHaveElectrons path spectra true epp = CannotOpen msg epp'
        /\ haveElectrons epp' = true
        /\ tabSpectrum epp' = tabSpectrum epp).
Proof.
  split; [|split].
  - intros Hr.
    unfold setPhotonField, initRate.
    cbv zeta. rewrite Hr. eexists. reflexivity.
  - intros lines Hr He Hs.
    unfold setPhotonField, initRate.
    cbv zeta. rewrite Hr, readRate_spec. cbn [app].
    cbn [haveElectrons set_tabRate set_photonField]. rewrite He.
    unfold initSpectrum. rewrite Hs.
    eexists. eexists. split; [reflexivity|]. repeat split.
  - intros Hs.
    unfold setHaveElectrons, initSpectrum.
    cbv zeta. cbn [photonField set_haveElectrons]. rewrite Hs.
    eexists. eexists. split; [reflexivity|]. split; reflexivity.
Qed.

End WithData.

Section WithMasses.
Variable nuclearMass : Z -> R.

(** X17.  [ElectronPairProduction::initRate] replaces both rate
    tables by one entry per data line read before the first line that
    does not parse: 10^a in [tabLorentzFactor] and b/Mpc in
    [tabLossRate], so the two tables have the same length and the Lorentz
    factors are positive; spectrum and field are not touched.  When the
    first column of the file increases strictly, [tabLorentzFactor] is
    strictly increasing, and a proton at redshift 0 whose Lorentz factor
    is the tabulated 10^a has the loss length 1/(b/Mpc) of that line. *)
Theorem initRate_tabulates_the_file (filename : string)
        (lines : list RateLine) (epp : t) :
  let ps := pairsRead lines in
  exists epp',
    initRate filename (Some lines) epp = Loaded epp'
    /\ tabLorentzFactor epp' = map (fun p => Dbl.pow 10 (fst p)) ps
    /\ tabLossRate epp' = map (fun p => snd p / Units.Mpc) ps
    /\ length (tabLossRate epp') = length (tabLorentzFactor epp')
    /\ Forall (fun x => 0 < x) (tabLorentzFactor epp')
    /\ tabSpectrum epp' = tabSpectrum epp
    /\ photonField epp' = photonField epp
    /\ (StronglySorted Rlt (map fst ps) ->
        StronglySorted Rlt (tabLorentzFactor epp')
        /\ forall (c : Candidate) (i : nat) (a b : R),
             nth_error ps i = Some (a, b) ->
             chargeNumber (ps_id (current c)) = 1%Z ->
             nuclearMass (ps_id (current c)) = Units.mass_proton ->
             redshift c = 0 ->
             getRedshiftScaling (photonField epp) 0 = 1 ->
             ParticleStateOps.getLorentzFactor nuclearMass (current c)
             = Dbl.pow 10 a ->
             epp_lossLength nuclearMass epp' c = 1 / (b / Units.Mpc)).
Proof.
  intros ps. unfold initRate. rewrite readRate_spec. cbn [app]. fold ps.
  eexists. split; [reflexivity|].
  cbn [tabLorentzFactor tabLossRate tabSpectrum photonField set_tabRate].
  split; [reflexivity|]. split; [reflexivity|].
  split; [rewrite !length_map; reflexivity|].
  split; [apply pow10_positive|].
  split; [reflexivity|]. split; [reflexivity|].
  intros Hsort. pose proof (pow10_sorted ps Hsort) as HS.
  split; [exact HS|].
  intros c i a b Hi HZ Hm Hz Hs Hlf.
  assert (Hlen : (i < length ps)%nat).
  { apply nth_error_Some. rewrite Hi. discriminate. }
  rewrite (epp_lossLength_grid nuclearMass _ c i HZ Hm Hz).
  - cbn [tabLossRate set_tabRate]. unfold Interp.at_.
    rewrite (nth_map_some _ ps 0 i (a, b) Hi). reflexivity.
  - exact Hs.
  - exact HS.
  - cbn [tabLorentzFactor set_tabRate]. unfold Interp.front.
    destruct ps as [|p rest]; [simpl in Hlen; lia|].
    simpl. unfold Dbl.pow, Rpower. apply exp_pos.
  - cbn [tabLorentzFactor tabLossRate set_tabRate].
    rewrite !length_map. reflexivity.
  - cbn [tabLorentzFactor set_tabRate]. rewrite length_map. exact Hlen.
  - rewrite Hlf. cbn [tabLorentzFactor set_tabRate]. unfold Interp.at_.
    rewrite (nth_map_some _ ps 0 i (a, b) Hi). reflexivity.
Qed.

Lemma inverse_rate_scaling (r W k : R) :
  W <> 0 -> 1 / (r * (W * k)) * W = / (r * k).
Proof.
  intros HW. destruct (Req_dec (r * k) 0) as [H0|H0].
  - rewrite H0, Rinv_0.
    replace (r * (W * k)) with (W * (r * k)) by ring.
    rewrite H0, Rmult_0_r. unfold Rdiv. rewrite Rinv_0. ring.
  - assert (r <> 0) by (intros E; apply H0; rewrite E; ring).
    assert (k <> 0) by (intros E; apply H0; rewrite E; ring).
    field. repeat split; assumption.
Qed.

(** X18.  At a fixed Lorentz factor and redshift at or above the
    threshold of the table, the loss length of pair production is
    proportional to A/Z^2, with A the mass in proton masses: for any two
    charged species, loss length x Z^2/A is the same. *)
Theorem loss_length_scales_as_mass_over_charge_squared (epp : t)
        (id1 id2 : Z) (lf z : R) :
  chargeNumber id1 <> 0%Z -> chargeNumber id2 <> 0%Z ->
  nuclearMass id1 <> 0 -> nuclearMass id2 <> 0 ->
  Interp.front (tabLorentzFactor epp) <= lf * (1 + z) ->
  lossLength nuclearMass epp id1 lf z
  * (IZR (chargeNumber id1) * IZR (chargeNumber id1)
     / (nuclearMass id1 / Units.mass_proton))
  = lossLength nuclearMass epp id2 lf z
    * (IZR (chargeNumber id2) * IZR (chargeNumber id2)
       / (nuclearMass id2 / Units.mass_proton)).
Proof.
  intros HZ1 HZ2 Hm1 Hm2 Hf.
  assert (Hmp : Units.mass_proton <> 0) by (unfold Units.mass_proton; lra).
  assert (Hscale : forall id,
             chargeNumber id <> 0%Z -> nuclearMass id <> 0 ->
             IZR (chargeNumber id) * IZR (chargeNumber id)
             / (nuclearMass id / Units.mass_proton) <> 0).
  { intros id HZ Hm. apply eq_IZR_contrapositive in HZ.
    replace (IZR (chargeNumber id) * IZR (chargeNumber id)
             / (nuclearMass id / Units.mass_proton))
      with (IZR (chargeNumber id) * IZR (chargeNumber id)
            * Units.mass_proton / nuclearMass id)
      by (field; split; assumption).
    unfold Rdiv.
    apply Rmult_integral_contrapositive_currified;
      [|apply Rinv_neq_0_compat; exact Hm].
    apply Rmult_integral_contrapositive_currified; [|exact Hmp].
    apply Rmult_integral_contrapositive_currified; exact HZ. }
  assert (Hone : forall id,
             chargeNumber id <> 0%Z -> nuclearMass id <> 0 ->
             exists r,
               lossLength nuclearMass epp id lf z
               * (IZR (chargeNumber id) * IZR (chargeNumber id)
                  / (nuclearMass id / Units.mass_proton))
               = / (r * (Dbl.pow_integer3 (1 + z)
                         * getRedshiftScaling (photonField epp) z))
               /\ r = (if Rlt_dec (lf * (1 + z))
                                  (Interp.back (tabLorentzFactor epp))
                       then Interp.interpolate (lf * (1 + z))
                              (tabLorentzFactor epp) (tabLossRate epp)
                       else Interp.back (tabLossRate epp)
                            * Dbl.pow (lf * (1 + z)
                                       / Interp.back (tabLorentzFactor epp))
                                      (- 0.6))).
  { intros id HZ Hm. eexists. split; [|reflexivity].
    unfold lossLength.
    destruct (Req_dec_T _ 0) as [H0|_].
    { apply eq_IZR_R0 in H0. contradiction. }
    destruct (Rlt_dec _ (Interp.front _)) as [H1|_]; [lra|].
    cbv zeta.
    rewrite <- (inverse_rate_scaling _
                  (IZR (chargeNumber id) * IZR (chargeNumber id)
                   / (nuclearMass id / Units.mass_proton)) _
                  (Hscale id HZ Hm)).
    f_equal. f_equal. f_equal. ring. }
  destruct (Hone id1 HZ1 Hm1) as [r1 [E1 R1]].
  destruct (Hone id2 HZ2 Hm2) as [r2 [E2 R2]].
  rewrite E1, E2, R1, R2. reflexivity.
Qed.

End WithMasses.
End EPPTables.

Lemma initRate_tabulates_the_file_witness :
  exists epp',
    ElectronPairProduction.initRate "lossrate_CMB.txt"
      (Some sample_lossrate_file) epp_sample
    = ElectronPairProduction.Loaded epp'
    /\ length (ElectronPairProduction.tabLorentzFactor epp') = 2%nat
    /\ epp_lossLength sample_mass epp' (proton_at (Dbl.pow 10 9))
       = 1 / (Units.Mpc / Units.Mpc).
Proof.
  destruct (initRate_tabulates_the_file sample_mass "lossrate_CMB.txt"
              sample_lossrate_file epp_sample)
    as [epp' [Hload [HX [_ [_ [_ [_ [_ Hsorted]]]]]]]].
  exists epp'. split; [exact Hload|]. split; [rewrite HX; reflexivity|].
  apply (proj2 (Hsorted ltac:(repeat constructor; simpl; lra))
           (proton_at (Dbl.pow 10 9)) 1%nat 9 Units.Mpc).
  - reflexivity.
  - reflexivity.
  - unfold sample_mass.
    change (ParticleID.massNumber (ps_id (current (proton_at (Dbl.pow 10 9)))))
      with 1%Z. lra.
  - reflexivity.
  - reflexivity.
  - apply proton_lf.
Defined.

Lemma initSpectrum_builds_cumulative_rows_witness :
  exists epp',
    ElectronPairProduction.initSpectrum "spectrum_CMB.txt" (Some (fun _ => 1))
                                        epp_sample
    = ElectronPairProduction.Loaded epp'
    /\ length (nth 0 (ElectronPairProduction.tabSpectrum epp') []) = 170%nat
    /\ nth 0 (nth 0 (ElectronPairProduction.tabSpectrum epp') []) 0
       <= nth 1 (nth 0 (ElectronPairProduction.tabSpectrum epp') []) 0.
Proof.
  destruct (initSpectrum_builds_cumulative_rows "spectrum_CMB.txt"
              (fun _ => 1) epp_sample)
    as [epp' [Hload [_ [_ [_ Hrows]]]]].
  exists epp'. split; [exact Hload|].
  destruct (Hrows 0%nat ltac:(lia)) as [Hlen [_ Hmono]].
  split; [exact Hlen|].
  apply (proj2 (Hmono ltac:(intros; lra)) 0%nat). lia.
Defined.

Lemma tables_stay_in_step_with_the_field_witness :
  exists epp',
    ElectronPairProduction.construct (fun s => s)
      (fun _ => Some sample_lossrate_file) (fun _ => Some (fun _ => 1))
      "EPP" flat_field true 0.1
    = ElectronPairProduction.Loaded epp'
    /\ epp_in_step (fun s => s) (fun _ => Some sample_lossrate_file)
                   (fun _ => Some (fun _ => 1)) epp'
    /\ ElectronPairProduction.haveElectrons epp' = true.
Proof.
  eexists. split; [reflexivity|].
  destruct (proj1 (tables_stay_in_step_with_the_field (fun s => s)
                     (fun _ => Some sample_lossrate_file)
                     (fun _ => Some (fun _ => 1)))
              "EPP"%string flat_field true 0.1 _ eq_refl)
    as [H1 [_ [H3 _]]].
  split; [exact H1|exact H3].
Defined.

Lemma failed_load_leaves_partial_update_witness :
  exists msg epp',
    ElectronPairProduction.setHaveElectrons (fun s => s) (fun _ => None)
                                            true epp_sample
    = ElectronPairProduction.CannotOpen msg epp'
    /\ ElectronPairProduction.haveElectrons epp' = true
    /\ ElectronPairProduction.tabSpectrum epp' = [].
Proof.
  apply (proj2 (proj2 (failed_load_leaves_partial_update (fun s => s)
                         (fun _ => Some sample_lossrate_file) (fun _ => None)
                         flat_field epp_sample))).
  reflexivity.
Defined.

Lemma loss_length_scales_as_mass_over_charge_squared_witness :
  ElectronPairProduction.lossLength sample_mass epp_sample 1000010010
                                    1000000000 0
  * (IZR (ParticleID.chargeNumber 1000010010)
     * IZR (ParticleID.chargeNumber 1000010010)
     / (sample_mass 1000010010 / Units.mass_proton))
  = ElectronPairProduction.lossLength sample_mass epp_sample 1000020040
                                      1000000000 0
    * (IZR (ParticleID.chargeNumber 1000020040)
       * IZR (ParticleID.chargeNumber 1000020040)
       / (sample_mass 1000020040 / Units.mass_proton)).
Proof.
  apply (loss_length_scales_as_mass_over_charge_squared sample_mass epp_sample
           1000010010 1000020040 1000000000 0).
  - vm_compute. discriminate.
  - vm_compute. discriminate.
  - unfold sample_mass. change (ParticleID.massNumber 1000010010) with 1%Z.
    unfold Units.mass_proton. lra.
  - unfold sample_mass. change (ParticleID.massNumber 1000020040) with 4%Z.
    unfold Units.mass_proton. lra.
  - change (Interp.front (ElectronPairProduction.tabLorentzFactor epp_sample))
      with 100000000. lra.
Defined.

(** ** Secondaries and energy in a pair-production step *)

Section EPP1.
Import ElectronPairProduction ParticleID CandidateOps RandomOps.
Variable nuclearMass : Z -> R.

Lemma extends_nil c : extends c c [].
Proof. unfold extends. rewrite app_nil_r. destruct c; reflexivity. Qed.

Lemma pairLoop_spec (epp : t) :
  forall (fuel : nat) (dE : R) (i : nat) (c : Candidate) (g : Random) c' g',
    pairLoop epp fuel dE i c g = Some (c', g') ->
    exists pairs,
      extends c c' pairs
      /\ paired (interactionTag epp) pairs
      /\ (pairs = []
          \/ exists front e p, pairs = front ++ [e; p] /\ sumE front < dE)
      /\ (dE <= 0 -> pairs = [] /\ g' = g).
Proof.
  induction fuel as [|fuel IH]; intros dE i c g c' g' H.
  - simpl in H. destruct (Rgt_dec dE 0); [discriminate|].
    assert (Hc : c' = c) by congruence. assert (Hg : g' = g) by congruence.
    subst. exists []. split; [apply extends_nil|]. split; [exact I|].
    split; [left; reflexivity|]. intros _. split; reflexivity.
  - simpl in H. destruct (Rgt_dec dE 0) as [Hpos|Hneg].
    2:{ assert (Hc : c' = c) by congruence. assert (Hg : g' = g) by congruence.
        subst. exists []. split; [apply extends_nil|]. split; [exact I|].
        split; [left; reflexivity|]. intros _. split; reflexivity. }
    set (j := lower_bound _ _) in H.
    set (Ee := Dbl.pow 10 (6.95 + (INR j + g 1%nat) * 0.1) * Units.eV) in H.
    assert (Hcont : forall pos g4,
      pairLoop epp fuel (dE - 2 * Ee) i
        (addSecondary (-11) Ee pos 1 (interactionTag epp)
           (addSecondary 11 Ee pos 1 (interactionTag epp) c)) g4
      = Some (c', g') ->
      exists pairs,
        extends c c' pairs
        /\ paired (interactionTag epp) pairs
        /\ (pairs = []
            \/ exists front e p, pairs = front ++ [e; p] /\ sumE front < dE)
        /\ (dE <= 0 -> pairs = [] /\ g' = g)).
    { intros pos g4 Hrun.
      destruct (IH _ _ _ _ _ _ Hrun) as [rest [Hext [Hp [Hb _]]]].
      exists (secOf c 11 Ee pos 1 (interactionTag epp)
              :: secOf c (-11) Ee pos 1 (interactionTag epp) :: rest).
      split.
      { unfold extends in *. rewrite Hext.
        unfold addSecondary, set_secondaries, secOf; simpl.
        rewrite <- !app_assoc. reflexivity. }
      split.
      { cbn [paired]. repeat split; try reflexivity. exact Hp. }
      split; [|intros Hle; lra].
      right. destruct Hb as [Hnil|[front [e [p [Hrest Hsum]]]]].
      - subst rest. exists [], (secOf c 11 Ee pos 1 (interactionTag epp)),
          (secOf c (-11) Ee pos 1 (interactionTag epp)).
        split; [reflexivity|]. simpl. lra.
      - exists (secOf c 11 Ee pos 1 (interactionTag epp)
                :: secOf c (-11) Ee pos 1 (interactionTag epp) :: front), e, p.
        split; [rewrite Hrest; reflexivity|].
        simpl. simpl in Hsum. lra. }
    destruct (Rgt_dec (2 * Ee) dE) as [Hbig|Hsmall].
    + destruct (Rgt_dec _ _).
      * assert (Hc : c' = c) by congruence. subst c'.
        exists []. split; [apply extends_nil|]. split; [exact I|].
        split; [left; reflexivity|]. intros Hle; lra.
      * exact (Hcont _ _ H).
    + exact (Hcont _ _ H).
Qed.

Lemma epp_process_inv (epp : t) (fuel : nat) (c : Candidate) (g : Random)
      c' g' :
  process nuclearMass epp fuel c g = Some (c', g') ->
  (c' = c /\ g' = g
   /\ (isNucleus (ps_id (current c)) = false
       \/ Dbl.DBL_MAX <= epp_lossLength nuclearMass epp c))
  \/ (isNucleus (ps_id (current c)) = true
      /\ epp_lossLength nuclearMass epp c < Dbl.DBL_MAX
      /\ exists pairs,
           paired (interactionTag epp) pairs
           /\ (pairs = []
               \/ exists front e p,
                    pairs = front ++ [e; p]
                    /\ sumE front
                       < ps_energy (current c) * epp_loss nuclearMass epp c)
           /\ (haveElectrons epp = false -> pairs = [] /\ g' = g)
           /\ c' = limitNextStep
                     (limit epp * epp_lossLength nuclearMass epp c)
                     (set_current
                        (ParticleStateOps.setLorentzFactor nuclearMass
                           (ParticleStateOps.getLorentzFactor nuclearMass
                              (current c)
                            * (1 - epp_loss nuclearMass epp c))
                           (current c))
                        (set_secondaries (secondaries c ++ pairs) c))).
Proof.
  rewrite process_drops_block. unfold process_without_radial_block.
  destruct (isNucleus (ps_id (current c))) eqn:Hn; cbn [negb].
  2:{ intros H. left. assert (c' = c) by congruence.
      assert (g' = g) by congruence. subst. repeat split. left. reflexivity. }
  cbv zeta. unfold getRedshift, getCurrentStep.
  fold (epp_lossLength nuclearMass epp c).
  replace (epp_lossLength nuclearMass epp c / 1)
    with (epp_lossLength nuclearMass epp c) by field.
  fold (epp_loss nuclearMass epp c).
  destruct (Rge_dec _ _) as [Hge|Hlt].
  { intros H. left. assert (c' = c) by congruence.
    assert (g' = g) by congruence. subst. repeat split. right. lra. }
  intros H. right. split; [reflexivity|]. split; [lra|].
  destruct (haveElectrons epp).
  - destruct (pairLoop _ _ _ _ _ _) as [[c1 g1]|] eqn:Hloop; [|discriminate].
    destruct (pairLoop_spec epp _ _ _ _ _ _ _ Hloop)
      as [pairs [Hext [Hp [Hb _]]]].
    exists pairs. split; [exact Hp|]. split; [exact Hb|].
    split; [discriminate|].
    cbn [option_map] in H.
    assert (Hc : c' = limitNextStep
                        (limit epp * epp_lossLength nuclearMass epp c)
                        (set_current
                           (ParticleStateOps.setLorentzFactor nuclearMass
                              (ParticleStateOps.getLorentzFactor nuclearMass
                                 (current c)
                               * (1 - epp_loss nuclearMass epp c))
                              (current c1)) c1)) by congruence.
    rewrite Hc. unfold extends in Hext. rewrite Hext. reflexivity.
  - exists []. split; [exact I|]. split; [left; reflexivity|].
    assert (Hg : g' = g) by congruence.
    split; [intros _; split; [reflexivity|exact Hg]|].
    rewrite app_nil_r.
    replace (set_secondaries (secondaries c) c) with c
      by (destruct c; reflexivity).
    congruence.
Qed.

(** X19.  The secondaries that a call of
    [ElectronPairProduction::process] appends come in pairs: an electron
    (11) followed by a positron (-11) with the same energy, position and
    tag.  All pairs but the last one fit into the energy loss
    dE = E x loss of the step: only the last pair may overshoot it.
    Without [haveElectrons] nothing is appended and no draw is
    consumed. *)
Theorem secondary_pairs_stay_within_the_loss (epp : t) (fuel : nat)
        (c : Candidate) (g : Random) c' g' :
  process nuclearMass epp fuel c g = Some (c', g') ->
  exists pairs,
    secondaries c' = secondaries c ++ pairs
    /\ paired (interactionTag epp) pairs
    /\ (pairs = []
        \/ exists front e p,
             pairs = front ++ [e; p]
             /\ sumE front
                < ps_energy (current c) * epp_loss nuclearMass epp c)
    /\ (haveElectrons epp = false -> pairs = [] /\ g' = g).
Proof.
  intros H. destruct (epp_process_inv epp fuel c g c' g' H)
    as [[Hc [Hg _]]|[_ [_ [pairs [Hp [Hb [Hoff Hc]]]]]]].
  - subst. exists []. rewrite app_nil_r. split; [reflexivity|].
    split; [exact I|]. split; [left; reflexivity|].
    intros _. split; reflexivity.
  - exists pairs. rewrite Hc. split; [reflexivity|].
    split; [exact Hp|]. split; [exact Hb|exact Hoff].
Qed.

(** X20.  A call of [ElectronPairProduction::process] leaves
    [previous], [created], redshift, current step, weight, tag and the
    id, position and direction of the primary alone and never raises the
    next step.  For a non-negative energy and step, a redshift above -1
    and a positive loss length the energy of the primary does not
    increase (the repository's test "energyDecreasing").  The state of
    the primary and the next step after the call do not depend on
    [haveElectrons]: the pairs are not charged to it a second time. *)
Theorem pair_production_only_lowers_energy_and_step (epp : t) (fuel : nat)
        (c : Candidate) (g : Random) c' g' :
  process nuclearMass epp fuel c g = Some (c', g') ->
  epp_frame c c'
  /\ (0 <= ps_energy (current c) ->
      0 <= currentStep c ->
      -1 < redshift c ->
      0 < epp_lossLength nuclearMass epp c ->
      nuclearMass (ps_id (current c)) * Units.c_squared <> 0 ->
      ps_energy (current c') <= ps_energy (current c))
  /\ (forall b fuel2 c2 g2,
        process nuclearMass (set_haveElectrons b epp) fuel2 c g
        = Some (c2, g2) ->
        current c2 = current c' /\ nextStep c2 = nextStep c').
Proof.
  intros H. destruct (epp_process_inv epp fuel c g c' g' H)
    as [[Hc [Hg Hskip]]|[Hn [Hlt [pairs [Hp [Hb [Hoff Hc]]]]]]].
  - subst c' g'. split; [|split].
    + unfold epp_frame. repeat split; try reflexivity; try lra.
    + intros; lra.
    + intros b fuel2 c2 g2 H2.
      rewrite (epp_process_skip nuclearMass (set_haveElectrons b epp) fuel2 c g)
        in H2 by exact Hskip.
      assert (c2 = c) by congruence. subst. split; reflexivity.
  - split; [|split].
    + rewrite Hc. unfold epp_frame, limitNextStep, setNextStep, set_current,
        set_secondaries, ParticleStateOps.setLorentzFactor,
        ParticleStateOps.setEnergy; simpl.
      repeat split; try reflexivity. apply Rmin_l.
    + intros HE Hstep Hz HL Hm.
      rewrite Hc.
      cbn [current limitNextStep setNextStep set_current].
      rewrite (proj1 (setLorentzFactor_energy nuclearMass
                        (1 - epp_loss nuclearMass epp c) (current c) Hm)).
      assert (Hloss : 0 <= epp_loss nuclearMass epp c).
      { unfold epp_loss.
        apply Rmult_le_pos; [apply Rmult_le_pos; [exact Hstep|]|].
        - left. apply Rinv_0_lt_compat. lra.
        - left. apply Rinv_0_lt_compat. exact HL. }
      nra.
    + intros b fuel2 c2 g2 H2.
      destruct (epp_process_inv (set_haveElectrons b epp) fuel2 c g c2 g2 H2)
        as [[Hc2 [Hg2 Hskip]]|[_ [_ [pairs2 [_ [_ [_ Hc2]]]]]]].
      * exfalso. destruct Hskip as [Hs|Hs]; [congruence|].
        change (epp_lossLength nuclearMass (set_haveElectrons b epp) c)
          with (epp_lossLength nuclearMass epp c) in Hs. lra.
      * rewrite Hc2, Hc. split; reflexivity.
Qed.

End EPP1.

Lemma proton9_with_pairs :
  exists N c' g',
    ElectronPairProduction.process sample_mass epp_cascade N
                                   (proton_at 1000000000) tape_half
    = Some (c', g').
Proof.
  destruct (epp_process_applies sample_mass epp_cascade (proton_at 1000000000)
              tape_half) as [N HN].
  - reflexivity.
  - change (epp_lossLength sample_mass epp_cascade (proton_at 1000000000))
      with (epp_lossLength sample_mass epp_sample (proton_at 1000000000)).
    rewrite proton9_lossLength. pose proof DBL_MAX_large. lra.
  - intros n. unfold tape_half. lra.
  - destruct (HN N (le_n N)) as [c' [g' [H _]]].
    exists N, c', g'. exact H.
Qed.

Lemma secondary_pairs_stay_within_the_loss_witness :
  exists N c' g' pairs,
    ElectronPairProduction.process sample_mass epp_cascade N
                                   (proton_at 1000000000) tape_half
    = Some (c', g')
    /\ secondaries c' = secondaries (proton_at 1000000000) ++ pairs
    /\ paired "EPP" pairs.
Proof.
  destruct proton9_with_pairs as [N [c' [g' H]]].
  destruct (secondary_pairs_stay_within_the_loss sample_mass epp_cascade N
              (proton_at 1000000000) tape_half c' g' H)
    as [pairs [H1 [H2 _]]].
  exists N, c', g', pairs. split; [exact H|]. split; [exact H1|exact H2].
Defined.

Lemma pair_production_only_lowers_energy_and_step_witness :
  exists N c' g',
    ElectronPairProduction.process sample_mass epp_cascade N
                                   (proton_at 1000000000) tape_half
    = Some (c', g')
    /\ epp_frame (proton_at 1000000000) c'
    /\ ps_energy (current c') <= ps_energy (current (proton_at 1000000000)).
Proof.
  destruct proton9_with_pairs as [N [c' [g' H]]].
  destruct (pair_production_only_lowers_energy_and_step sample_mass epp_cascade
              N (proton_at 1000000000) tape_half c' g' H)
    as [H1 [H2 _]].
  exists N, c', g'. split; [exact H|]. split; [exact H1|].
  apply H2.
  - cbn [proton_at current ps_energy]. pose proof mass_energy_pos. nra.
  - cbn [proton_at currentStep]. lra.
  - cbn [proton_at redshift]. lra.
  - change (epp_lossLength sample_mass epp_cascade (proton_at 1000000000))
      with (epp_lossLength sample_mass epp_sample (proton_at 1000000000)).
    rewrite proton9_lossLength. lra.
  - change (ps_id (current (proton_at 1000000000))) with 1000010010%Z.
    unfold sample_mass. change (ParticleID.massNumber 1000010010) with 1%Z.
    pose proof mass_energy_pos. lra.
Defined.

(** ** The radial block and the position of the particle *)

Section PairPlacement.
Import ElectronPairProduction ParticleID CandidateOps RandomOps.
Variable nuclearMass : Z -> R.

Lemma nth_repeat_lt {A : Type} (a d : A) (n : nat) :
  forall i, (i < n)%nat -> nth i (repeat a n) d = a.
Proof.
  induction n as [|n IH]; intros i Hi; [lia|].
  destruct i as [|i]; [reflexivity|]. simpl. apply IH. lia.
Qed.

Lemma last_repeat {A : Type} (a d : A) (n : nat) :
  last (repeat a (S n)) d = a.
Proof.
  induction n as [|n IH]; [reflexivity|].
  change (repeat a (S (S n))) with (a :: repeat a (S n)).
  change (last (a :: repeat a (S n)) d) with (last (repeat a (S n)) d).
  exact IH.
Qed.

(** Every secondary of the pair loop lies at a drawn fraction of the way
    from the previous to the current position. *)
Lemma pairLoop_positions (epp : t) :
  forall (fuel : nat) (dE : R) (i : nat) (c : Candidate) (g : Random) c' g',
    pairLoop epp fuel dE i c g = Some (c', g') ->
    exists pairs,
      extends c c' pairs
      /\ Forall (fun s => exists k,
                   ps_position (current s) = interpolated c (g k)) pairs.
Proof.
  induction fuel as [|fuel IH]; intros dE i c g c' g' H.
  - simpl in H. destruct (Rgt_dec dE 0); [discriminate|].
    assert (Hc : c' = c) by congruence. subst c'.
    exists []. split; [apply extends_nil|constructor].
  - simpl in H. destruct (Rgt_dec dE 0) as [Hpos|Hneg].
    2:{ assert (Hc : c' = c) by congruence. subst c'.
        exists []. split; [apply extends_nil|constructor]. }
    set (j := lower_bound _ _) in H.
    set (Ee := Dbl.pow 10 (6.95 + (INR j + g 1%nat) * 0.1) * Units.eV) in H.
    assert (Hcont : forall m,
      pairLoop epp fuel (dE - 2 * Ee) i
        (addSecondary (-11) Ee (interpolated c (g m)) 1 (interactionTag epp)
           (addSecondary 11 Ee (interpolated c (g m)) 1 (interactionTag epp)
                         c))
        (fun n => g (S m + n)%nat)
      = Some (c', g') ->
      exists pairs,
        extends c c' pairs
        /\ Forall (fun s => exists k,
                     ps_position (current s) = interpolated c (g k)) pairs).
    { intros m Hrun.
      destruct (IH _ _ _ _ _ _ Hrun) as [rest [Hext Hall]].
      exists (secOf c 11 Ee (interpolated c (g m)) 1 (interactionTag epp)
              :: secOf c (-11) Ee (interpolated c (g m)) 1 (interactionTag epp)
              :: rest).
      split.
      { unfold extends in *. rewrite Hext.
        unfold addSecondary, set_secondaries, secOf; simpl.
        rewrite <- !app_assoc. reflexivity. }
      constructor; [exists m; reflexivity|].
      constructor; [exists m; reflexivity|].
      eapply Forall_impl; [|exact Hall]. cbv beta.
      intros s [k Hk]. exists (S m + k)%nat. exact Hk. }
    destruct (Rgt_dec (2 * Ee) dE) as [Hbig|Hsmall].
    + destruct (Rgt_dec _ _).
      * assert (Hc : c' = c) by congruence. subst c'.
        exists []. split; [apply extends_nil|constructor].
      * exact (Hcont 3%nat H).
    + exact (Hcont 2%nat H).
Qed.

(** A first pair that fits into the loss is created, at the fraction
    given by the third draw of the pass. *)
Lemma pairLoop_first (epp : t) (fuel : nat) (dE : R) (i : nat)
      (c : Candidate) (g : Random) c' g' :
  0 < dE ->
  let j := fst (randBin (nth i (tabSpectrum epp) []) g) in
  let Ee := Dbl.pow 10 (6.95 + (INR j + g 1%nat) * 0.1) * Units.eV in
  2 * Ee <= dE ->
  pairLoop epp fuel dE i c g = Some (c', g') ->
  exists rest,
    secondaries c'
    = secondaries c
      ++ secOf c 11 Ee (interpolated c (g 2%nat)) 1 (interactionTag epp)
      :: rest.
Proof.
  intros HdE j Ee Hfit H.
  destruct fuel as [|fuel]; simpl in H;
    (destruct (Rgt_dec dE 0) as [_|Hn]; [|lra]); [discriminate|].
  change (lower_bound (g 0%nat * last (nth i (tabSpectrum epp) []) 0)
                      (nth i (tabSpectrum epp) [])) with j in H.
  fold Ee in H.
  destruct (Rgt_dec (2 * Ee) dE) as [Hbig|_]; [lra|].
  destruct (pairLoop_spec epp _ _ _ _ _ _ _ H) as [rest [Hext _]].
  exists (secOf c (-11) Ee (interpolated c (g 2%nat)) 1 (interactionTag epp)
          :: rest).
  unfold extends in Hext. rewrite Hext.
  unfold addSecondary, set_secondaries, secOf; simpl.
  rewrite <- !app_assoc. reflexivity.
Qed.

(** What [process] hands to the pair loop, and what it keeps of it. *)
Lemma process_runs_pairLoop (epp : t) (fuel : nat) (c : Candidate) (g : Random)
      c' g' :
  isNucleus (ps_id (current c)) = true ->
  epp_lossLength nuclearMass epp c < Dbl.DBL_MAX ->
  haveElectrons epp = true ->
  process nuclearMass epp fuel c g = Some (c', g') ->
  exists i c1,
    (i <= 69)%nat
    /\ pairLoop epp fuel
         (ps_energy (current c) * epp_loss nuclearMass epp c) i c g
       = Some (c1, g')
    /\ secondaries c' = secondaries c1.
Proof.
  intros Hn Hlen He.
  rewrite process_drops_block. unfold process_without_radial_block.
  rewrite Hn, He. cbv zeta. unfold negb, getRedshift, getCurrentStep.
  fold (epp_lossLength nuclearMass epp c).
  replace (epp_lossLength nuclearMass epp c / 1)
    with (epp_lossLength nuclearMass epp c) by field.
  fold (epp_loss nuclearMass epp c).
  destruct (Rge_dec _ _) as [Hge|_]; [lra|].
  set (i := Z.to_nat _).
  destruct (pairLoop _ _ _ _ _ _) as [[c1 g1]|] eqn:Hloop; [|discriminate].
  cbn [option_map]. intros H.
  exists i, c1. split; [unfold i; lia|].
  assert (Hg : g1 = g') by congruence. subst g1.
  split; [exact Hloop|].
  assert (Hc : c' = limitNextStep
                      (limit epp * epp_lossLength nuclearMass epp c)
                      (set_current
                         (ParticleStateOps.setLorentzFactor nuclearMass
                            (ParticleStateOps.getLorentzFactor nuclearMass
                               (current c)
                             * (1 - epp_loss nuclearMass epp c))
                            (current c1)) c1)) by congruence.
  rewrite Hc. reflexivity.
Qed.

Lemma process_places_pairs (epp : t) (fuel : nat) (c : Candidate) (g : Random)
      c' g' :
  process nuclearMass epp fuel c g = Some (c', g') ->
  exists pairs,
    secondaries c' = secondaries c ++ pairs
    /\ Forall (fun s => exists k,
                 ps_position (current s) = interpolated c (g k)) pairs.
Proof.
  rewrite process_drops_block. unfold process_without_radial_block.
  destruct (negb _).
  { intros H. assert (Hc : c' = c) by congruence. subst c'.
    exists []. rewrite app_nil_r. split; [reflexivity|constructor]. }
  cbv zeta.
  destruct (Rge_dec _ _).
  { intros H. assert (Hc : c' = c) by congruence. subst c'.
    exists []. rewrite app_nil_r. split; [reflexivity|constructor]. }
  destruct (haveElectrons epp).
  - destruct (pairLoop _ _ _ _ _ _) as [[c1 g1]|] eqn:Hloop; [|discriminate].
    cbn [option_map]. intros H.
    destruct (pairLoop_positions epp _ _ _ _ _ _ _ Hloop) as [pairs [Hext Hall]].
    exists pairs. split; [|exact Hall].
    assert (Hsec : secondaries c' = secondaries c1).
    { injection H as Hc _. rewrite <- Hc. reflexivity. }
    rewrite Hsec. unfold extends in Hext. rewrite Hext. reflexivity.
  - intros H. exists []. rewrite app_nil_r. split; [|constructor].
    injection H as Hc _. rewrite <- Hc. reflexivity.
Qed.

End PairPlacement.

Lemma cascade_first_pair (c : Candidate) :
  c = proton_at 1000000000 \/ c = proton_moved ->
  exists N, forall fuel, (N <= fuel)%nat ->
    exists c' g' s rest,
      ElectronPairProduction.process sample_mass epp_cascade fuel c tape_half
      = Some (c', g')
      /\ secondaries c' = s :: rest
      /\ ps_position (current s) = interpolated c (/ 2).
Proof.
  intros Hc.
  assert (Hlen : epp_lossLength sample_mass epp_cascade c = 1).
  { destruct Hc; subst c;
      change (epp_lossLength sample_mass epp_sample (proton_at 1000000000) = 1);
      exact proton9_lossLength. }
  assert (Hn : ParticleID.isNucleus (ps_id (current c)) = true)
    by (destruct Hc; subst c; reflexivity).
  assert (HE : ps_energy (current c)
               = 1000000000 * (Units.mass_proton * Units.c_squared))
    by (destruct Hc; subst c; reflexivity).
  assert (Hloss : epp_loss sample_mass epp_cascade c = 10).
  { unfold epp_loss. rewrite Hlen.
    replace (currentStep c) with 10 by (destruct Hc; subst c; reflexivity).
    replace (redshift c) with 0 by (destruct Hc; subst c; reflexivity).
    field. }
  assert (Hsec0 : secondaries c = [])
    by (destruct Hc; subst c; reflexivity).
  destruct (epp_process_applies sample_mass epp_cascade c tape_half) as [N HN].
  - exact Hn.
  - rewrite Hlen. pose proof DBL_MAX_large. lra.
  - intros n. unfold tape_half. lra.
  - exists N. intros fuel Hfuel.
    destruct (HN fuel Hfuel) as [c' [g' [Hp _]]].
    destruct (process_runs_pairLoop sample_mass epp_cascade fuel c tape_half
                c' g' Hn) as [i [c1 [Hi [Hloop Hsec]]]].
    + rewrite Hlen. pose proof DBL_MAX_large. lra.
    + reflexivity.
    + exact Hp.
    + assert (Hrow : nth i (ElectronPairProduction.tabSpectrum epp_cascade) []
                     = repeat 1 170).
      { change (ElectronPairProduction.tabSpectrum epp_cascade)
          with (repeat (repeat 1 170) 70).
        apply nth_repeat_lt. lia. }
      assert (Hj : fst (RandomOps.randBin
                          (nth i (ElectronPairProduction.tabSpectrum
                                    epp_cascade) []) tape_half) = 0%nat).
      { rewrite Hrow. unfold RandomOps.randBin, RandomOps.rand.
        cbn [fst]. change 170%nat with (S 169). rewrite last_repeat.
        change (repeat 1 (S 169)) with (1 :: repeat 1 169).
        cbn [RandomOps.lower_bound]. unfold tape_half.
        destruct (Rlt_dec 1 (/ 2 * 1)) as [H|_]; [lra|reflexivity]. }
      assert (Hpow : Dbl.pow 10 (6.95 + (INR 0 + tape_half 1%nat) * 0.1)
                     = 10 ^ 7).
      { unfold Dbl.pow, tape_half.
        replace (6.95 + (INR 0 + / 2) * 0.1) with (INR 7) by (simpl; lra).
        apply Rpower_pow. lra. }
      apply pairLoop_first in Hloop.
      * destruct Hloop as [rest Hrest].
        rewrite Hsec0 in Hrest. cbn [app] in Hrest.
        eexists c', g', _, rest. split; [exact Hp|].
        split; [rewrite Hsec; exact Hrest|]. reflexivity.
      * rewrite HE, Hloss. pose proof mass_energy_pos. lra.
      * cbv zeta. rewrite Hj, Hpow, HE, Hloss.
        unfold Units.eV, Units.mass_proton, Units.c_squared, Units.c_light.
        lra.
Qed.

(** C10, as stated, fails for the secondaries: they are not independent
    of the position of the particle.  The same proton, once at the origin
    (radius 0) and once moved to (2, 0, 0) (radius 2) with [previous] at
    the origin in both cases, loses the same energy on the same draws,
    but its first electron is created at the origin in the first case and
    at (1, 0, 0), halfway between previous and current position, in the
    second. *)
Lemma secondaries_follow_the_position :
  Vector3.getR (ps_position (current (proton_at 1000000000))) = 0
  /\ Vector3.getR (ps_position (current proton_moved)) = 2
  /\ exists N c1 g1 c2 g2 s1 rest1 s2 rest2,
       ElectronPairProduction.process sample_mass epp_cascade N
                                      (proton_at 1000000000) tape_half
       = Some (c1, g1)
       /\ ElectronPairProduction.process sample_mass epp_cascade N
                                         proton_moved tape_half
          = Some (c2, g2)
       /\ secondaries c1 = s1 :: rest1
       /\ secondaries c2 = s2 :: rest2
       /\ ps_position (current s1) = origin
       /\ ps_position (current s2) = mkVector3d 1 0 0
       /\ ps_energy (current c1) = ps_energy (current c2).
Proof.
  split; [|split].
  - unfold Vector3.getR. cbn [proton_at current ps_position origin vx vy vz].
    replace (0 * 0 + 0 * 0 + 0 * 0) with 0 by ring. apply sqrt_0.
  - unfold Vector3.getR, proton_moved.
    cbn [CandidateOps.set_current ParticleStateOps.setPosition current
         ps_position vx vy vz].
    replace (2 * 2 + 0 * 0 + 0 * 0) with (2 * 2) by ring.
    apply sqrt_square. lra.
  - destruct (cascade_first_pair (proton_at 1000000000) (or_introl eq_refl))
      as [N1 H1].
    destruct (cascade_first_pair proton_moved (or_intror eq_refl)) as [N2 H2].
    destruct (H1 (Nat.max N1 N2) (Nat.le_max_l N1 N2))
      as [c1 [g1 [s1 [rest1 [Hp1 [Hs1 Hpos1]]]]]].
    destruct (H2 (Nat.max N1 N2) (Nat.le_max_r N1 N2))
      as [c2 [g2 [s2 [rest2 [Hp2 [Hs2 Hpos2]]]]]].
    exists (Nat.max N1 N2), c1, g1, c2, g2, s1, rest1, s2, rest2.
    split; [exact Hp1|]. split; [exact Hp2|].
    split; [exact Hs1|]. split; [exact Hs2|].
    split; [|split].
    + rewrite Hpos1. unfold interpolated, Vector3.add, Vector3.scale,
        Vector3.sub, origin.
      cbn [proton_at current previous ps_position origin vx vy vz].
      f_equal; lra.
    + rewrite Hpos2. unfold interpolated, Vector3.add, Vector3.scale,
        Vector3.sub, proton_moved.
      cbn [CandidateOps.set_current ParticleStateOps.setPosition proton_at
           current previous ps_position origin vx vy vz].
      f_equal; lra.
    + pose proof (process_position_blind sample_mass epp_cascade
                    (Nat.max N1 N2) (proton_at 1000000000) tape_half
                    (mkVector3d 2 0 0)) as Hag.
      fold proton_moved in Hag. rewrite Hp1, Hp2 in Hag.
      destruct Hag as [Hobs _]. unfold observed in Hobs. congruence.
Qed.

(** C10, amended.  The block "radial dependence of the photon field"
    declares a [pos_scale] of its own: run on any local variables, it
    leaves those of the enclosing scopes as they were, so that the outer
    [pos_scale], by which the loss length is divided, is still 1 behind
    it.  Hence [ElectronPairProduction::process] equals the function
    obtained by striking the block out, and replacing [hasScaleRadius],
    the scale radius and the outer radius of the photon field changes
    nothing in the result.  Moving the particle changes neither the
    resulting energy, nor the step limit, nor the ids and energies of the
    secondaries, nor the random draws consumed.  The positions of the
    secondaries do depend on the position of the particle: each one lies
    at a drawn fraction of the way from the previous to the current
    position. *)
Theorem radial_block_is_dead :
  forall (nuclearMass : Z -> R) (epp : ElectronPairProduction.t)
         (fuel : nat) (c : Candidate) (g : Random),
    (forall locals,
        ElectronPairProduction.radialBlock epp c locals = locals)
    /\ ElectronPairProduction.lookup "pos_scale"
         (ElectronPairProduction.radialBlock epp c
            (ElectronPairProduction.declare "pos_scale" 1 [[]])) = 1
    /\ ElectronPairProduction.process nuclearMass epp fuel c g
       = ElectronPairProduction.process_without_radial_block
           nuclearMass epp fuel c g
    /\ (forall has scaleRadius outerRadius,
           ElectronPairProduction.process
             nuclearMass (with_radial has scaleRadius outerRadius epp) fuel c g
           = ElectronPairProduction.process nuclearMass epp fuel c g)
    /\ (forall x : Vector3d,
           agree (ElectronPairProduction.process nuclearMass epp fuel c g)
                 (ElectronPairProduction.process nuclearMass epp fuel
                    (CandidateOps.set_current
                       (ParticleStateOps.setPosition x (current c)) c) g))
    /\ (forall c' g',
           ElectronPairProduction.process nuclearMass epp fuel c g
           = Some (c', g') ->
           exists pairs,
             secondaries c' = secondaries c ++ pairs
             /\ Forall (fun s => exists k,
                          ps_position (current s) = interpolated c (g k))
                       pairs).
Proof.
  intros mass epp fuel c g.
  split; [|split; [|split; [|split; [|split]]]].
  - intros locals. apply radialBlock_scoped.
  - reflexivity.
  - apply process_drops_block.
  - intros has sr orad. apply process_with_radial.
  - intros x. apply process_position_blind.
  - intros c' g' H. exact (process_places_pairs mass epp fuel c g c' g' H).
Qed.

(** ** The Boris push and the accepted step *)

Section Boris.
Import PropagationBP CandidateOps.

Lemma dY_direction (bp : t) (pos dir : Vector3d) (step z q m : R) :
  y_u (dY bp pos dir step z q m)
  = borisPush dir
      (borisT (getFieldAtPosition bp (halfStepPosition bp pos dir step) z)
              step q m).
Proof. reflexivity. Qed.

Lemma dY_position (bp : t) (pos dir : Vector3d) (step z q m : R) :
  y_x (dY bp pos dir step z q m)
  = Vector3.add (halfStepPosition bp pos dir step)
      (Vector3.divide
         (Vector3.scale
            (Vector3.getUnitVector
               (Vector3.add (y_u (dY bp pos dir step z q m))
                  (Vector3.scale
                     (Vector3.getUnitVector (getAdvFieldAtPosition bp pos))
                     (Vector3.getR (getAdvFieldAtPosition bp pos)
                      / Units.c_light))))
            step) 2).
Proof. reflexivity. Qed.

Lemma borisPush_norm (dir t : Vector3d) :
  Vector3.dot (borisPush dir t) (borisPush dir t) = Vector3.dot dir dir.
Proof.
  destruct dir as [a b c]. destruct t as [x y z].
  unfold borisPush, Vector3.dot, Vector3.add, Vector3.cross, Vector3.divide,
    Vector3.scale; cbn [vx vy vz].
  assert (H : 1 + (x * x + y * y + z * z) <> 0) by nra.
  field. exact H.
Qed.

Lemma borisPush_axis (dir t : Vector3d) :
  Vector3.dot (borisPush dir t) t = Vector3.dot dir t.
Proof.
  destruct dir as [a b c]. destruct t as [x y z].
  unfold borisPush, Vector3.dot, Vector3.add, Vector3.cross, Vector3.divide,
    Vector3.scale; cbn [vx vy vz].
  assert (H : 1 + (x * x + y * y + z * z) <> 0) by nra.
  field. exact H.
Qed.

Lemma borisT_scale (B : Vector3d) (step q m : R) :
  borisT B step q m
  = Vector3.scale B (q / 2 / m * step / Units.c_light).
Proof.
  unfold borisT, Vector3.divide, Vector3.scale; cbn [vx vy vz].
  f_equal; unfold Rdiv; ring.
Qed.

Lemma borisPush_field_axis (dir B : Vector3d) (k : R) :
  Vector3.dot (borisPush dir (Vector3.scale B k)) B = Vector3.dot dir B.
Proof.
  destruct dir as [a b c]. destruct B as [x y z].
  unfold borisPush, Vector3.dot, Vector3.add, Vector3.cross, Vector3.divide,
    Vector3.scale; cbn [vx vy vz].
  assert (H : 1 + (x * k * (x * k) + y * k * (y * k) + z * k * (z * k)) <> 0)
    by nra.
  field. exact H.
Qed.

Lemma borisPush_zero (dir : Vector3d) : borisPush dir Vector3.zero = dir.
Proof.
  destruct dir as [a b c].
  unfold borisPush, Vector3.dot, Vector3.add, Vector3.cross, Vector3.divide,
    Vector3.scale, Vector3.zero; cbn [vx vy vz].
  f_equal; field; lra.
Qed.

Lemma getR_dot (a : Vector3d) : Vector3.getR a = sqrt (Vector3.dot a a).
Proof. reflexivity. Qed.

Lemma dot_nonneg (a : Vector3d) : 0 <= Vector3.dot a a.
Proof. unfold Vector3.dot. nra. Qed.

Lemma getR_nonneg (a : Vector3d) : 0 <= Vector3.getR a.
Proof. rewrite getR_dot. apply sqrt_pos. Qed.

Lemma getR_sqr (a : Vector3d) :
  Vector3.getR a * Vector3.getR a = Vector3.dot a a.
Proof. rewrite getR_dot. apply sqrt_sqrt. apply dot_nonneg. Qed.

Lemma getR_unit (a : Vector3d) :
  Vector3.getR a <> 0 -> Vector3.getR (Vector3.getUnitVector a) = 1.
Proof.
  intros Hr. pose proof (getR_sqr a) as Hsq. pose proof (getR_nonneg a) as H0.
  unfold Vector3.getUnitVector. set (r := Vector3.getR a) in *.
  rewrite getR_dot.
  replace (Vector3.dot (Vector3.divide a r) (Vector3.divide a r))
    with (Vector3.dot a a / (r * r)).
  - rewrite <- Hsq. replace (r * r / (r * r)) with 1 by (field; exact Hr).
    apply sqrt_1.
  - unfold Vector3.dot, Vector3.divide; cbn [vx vy vz]. field. exact Hr.
Qed.

Lemma getR_half_step (e : Vector3d) (h : R) :
  0 <= h ->
  Vector3.getR (Vector3.divide (Vector3.scale e h) 2)
  = Vector3.getR e * (h / 2).
Proof.
  intros Hh. rewrite !getR_dot.
  replace (Vector3.dot (Vector3.divide (Vector3.scale e h) 2)
                       (Vector3.divide (Vector3.scale e h) 2))
    with (Vector3.dot e e * (h / 2 * (h / 2)))
    by (unfold Vector3.dot, Vector3.divide, Vector3.scale; cbn [vx vy vz];
        field).
  rewrite sqrt_mult_alt by apply dot_nonneg.
  rewrite sqrt_square by lra. reflexivity.
Qed.

Lemma cauchy_schwarz (a b : Vector3d) :
  Vector3.dot a b <= Vector3.getR a * Vector3.getR b.
Proof.
  pose proof (getR_sqr a) as Ha. pose proof (getR_sqr b) as Hb.
  pose proof (getR_nonneg a) as Pa. pose proof (getR_nonneg b) as Pb.
  assert (Hcs : Vector3.dot a b * Vector3.dot a b
                <= Vector3.dot a a * Vector3.dot b b).
  { destruct a as [a1 a2 a3]. destruct b as [b1 b2 b3].
    unfold Vector3.dot; cbn [vx vy vz].
    pose proof (Rle_0_sqr (a1 * b2 - a2 * b1)) as S1.
    pose proof (Rle_0_sqr (a1 * b3 - a3 * b1)) as S2.
    pose proof (Rle_0_sqr (a2 * b3 - a3 * b2)) as S3.
    unfold Rsqr in *. nra. }
  set (ga := Vector3.getR a) in *. set (gb := Vector3.getR b) in *.
  set (d := Vector3.dot a b) in *.
  rewrite <- Ha, <- Hb in Hcs.
  destruct (Rle_dec d (ga * gb)) as [H|H]; [exact H|].
  exfalso. assert (Hgt : ga * gb < d) by lra.
  assert (0 <= ga * gb) by (apply Rmult_le_pos; assumption).
  assert (ga * gb * (ga * gb) < d * d) by nra.
  nra.
Qed.

Lemma triangle (a b : Vector3d) :
  Vector3.getR (Vector3.add a b) <= Vector3.getR a + Vector3.getR b.
Proof.
  pose proof (getR_sqr a) as Ha. pose proof (getR_sqr b) as Hb.
  pose proof (getR_sqr (Vector3.add a b)) as Hab.
  pose proof (getR_nonneg a) as Pa. pose proof (getR_nonneg b) as Pb.
  pose proof (getR_nonneg (Vector3.add a b)) as Pab.
  pose proof (cauchy_schwarz a b) as Hcs.
  assert (Hexp : Vector3.dot (Vector3.add a b) (Vector3.add a b)
                 = Vector3.dot a a + 2 * Vector3.dot a b + Vector3.dot b b).
  { unfold Vector3.dot, Vector3.add; cbn [vx vy vz]. ring. }
  rewrite Hexp in Hab.
  set (ga := Vector3.getR a) in *. set (gb := Vector3.getR b) in *.
  set (gab := Vector3.getR (Vector3.add a b)) in *.
  destruct (Rle_dec gab (ga + gb)) as [H|H]; [exact H|].
  exfalso. assert (Hgt : ga + gb < gab) by lra.
  assert ((ga + gb) * (ga + gb) < gab * gab) by nra.
  nra.
Qed.

Lemma sub_add_add (p a b : Vector3d) :
  Vector3.sub (Vector3.add (Vector3.add p a) b) p = Vector3.add a b.
Proof.
  unfold Vector3.sub, Vector3.add; cbn [vx vy vz]. f_equal; ring.
Qed.

Lemma sub_add (p a : Vector3d) : Vector3.sub (Vector3.add p a) p = a.
Proof.
  destruct a as [x y z].
  unfold Vector3.sub, Vector3.add; cbn [vx vy vz]. f_equal; ring.
Qed.

(** X21.  Where [dY] divides by neither a zero mass, a zero length nor
    a zero radius, the Boris push is a rotation about the magnetic field at the
    half-step position: the direction it returns has the length of the
    direction it was given and the same component along that field, and
    is the given direction itself where the field vanishes. *)
Theorem boris_push_rotates_the_direction (bp : t) (pos dir : Vector3d)
        (step z q m : R) :
  push_defined bp pos dir step m ->
  let B := getFieldAtPosition bp (halfStepPosition bp pos dir step) z in
  let dir' := y_u (dY bp pos dir step z q m) in
  Vector3.getR dir' = Vector3.getR dir
  /\ Vector3.dot dir' B = Vector3.dot dir B
  /\ (B = Vector3.zero -> dir' = dir).
Proof.
  intros _ B dir'. unfold dir'. rewrite dY_direction. fold B.
  split; [|split].
  - rewrite !getR_dot, borisPush_norm. reflexivity.
  - rewrite borisT_scale. apply borisPush_field_axis.
  - intros HB. rewrite HB, borisT_scale, scale_zero. apply borisPush_zero.
Qed.

(** X22.  Where [dY] divides by neither a zero mass, a zero length nor
    a zero radius, each of the two half steps of a non-negative step moves the
    position by exactly step/2, so the end point lies within one step
    length of the start. *)
Theorem a_step_never_moves_farther_than_its_length (bp : t)
        (pos dir : Vector3d) (step z q m : R) :
  0 <= step ->
  push_defined bp pos dir step m ->
  Vector3.getR (drift bp pos (y_u (dY bp pos dir step z q m))) <> 0 ->
  let mid := halfStepPosition bp pos dir step in
  let out := y_x (dY bp pos dir step z q m) in
  Vector3.getR (Vector3.sub mid pos) = step / 2
  /\ Vector3.getR (Vector3.sub out mid) = step / 2
  /\ Vector3.getR (Vector3.sub out pos) <= step.
Proof.
  intros Hstep [_ [[_ Hd1] _]] Hd2 mid out.
  unfold out. rewrite dY_position. fold mid.
  fold (drift bp pos (y_u (dY bp pos dir step z q m))).
  set (h1 := Vector3.divide
               (Vector3.scale (Vector3.getUnitVector (drift bp pos dir)) step)
               2).
  set (h2 := Vector3.divide
               (Vector3.scale
                  (Vector3.getUnitVector
                     (drift bp pos (y_u (dY bp pos dir step z q m)))) step)
               2).
  assert (H1 : Vector3.getR h1 = step / 2).
  { unfold h1. rewrite getR_half_step by exact Hstep.
    rewrite getR_unit by exact Hd1. lra. }
  assert (H2 : Vector3.getR h2 = step / 2).
  { unfold h2. rewrite getR_half_step by exact Hstep.
    rewrite getR_unit by exact Hd2. lra. }
  change mid with (Vector3.add pos h1).
  rewrite sub_add, sub_add, sub_add_add.
  split; [exact H1|]. split; [exact H2|].
  pose proof (triangle h1 h2). lra.
Qed.

End Boris.

Section Acceptance.
Import PropagationBP CandidateOps.

Variable particleCharge : Z -> R.
Variable Y_of_double : R -> Y.

Lemma shrunk_le (bp : t) (step r : R) :
  minStep bp <= step -> 0 <= step -> 1 < r ->
  minStep bp <= shrunk bp step r <= step.
Proof.
  intros Hs H0 Hr. pose proof (pow_shrinks r Hr) as [Hp0 Hp1].
  unfold shrunk.
  set (a := step * 0.95 * Dbl.pow r (- 0.2)).
  assert (Ha : a <= step) by (unfold a; nra).
  unfold Rmax. repeat destruct (Rle_dec _ _); split; lra.
Qed.

Lemma adaptLoop_result (bp : t) (yIn : Y) (z q m : R) :
  0 <= minStep bp <= maxStep bp ->
  forall (fuel : nat) (step newStep : R) yOut s ns,
    minStep bp <= step <= maxStep bp ->
    newStep <= maxStep bp ->
    adaptLoop Y_of_double bp fuel yIn z q m step newStep = Some (yOut, s, ns) ->
    yOut = dY bp (y_x yIn) (y_u yIn) s z q m
    /\ minStep bp <= s <= step
    /\ ns <= maxStep bp.
Proof.
  intros [H0 Hle]. induction fuel as [|fuel IH];
    intros step newStep yOut s ns Hstep Hns H; [discriminate|].
  rewrite adaptLoop_pass in H. cbv zeta in H.
  destruct (Rgt_dec _ 1) as [Hr|Hr].
  - destruct (Req_dec_T step (minStep bp)) as [He|Hne].
    + assert (E1 : yOut = fst (tryStep Y_of_double bp yIn step z q m))
        by congruence.
      assert (E2 : s = step) by congruence.
      assert (E3 : ns = newStep) by congruence.
      subst. split; [reflexivity|]. split; lra.
    + destruct (shrunk_le bp step _ ltac:(lra) ltac:(lra) Hr) as [Hlo Hhi].
      apply IH in H; [|lra|lra].
      destruct H as [E1 [E2 E3]].
      split; [exact E1|]. split; [lra|exact E3].
  - destruct (Req_dec_T step (maxStep bp)) as [He|Hne].
    + assert (E1 : yOut = fst (tryStep Y_of_double bp yIn step z q m))
        by congruence.
      assert (E2 : s = step) by congruence.
      assert (E3 : ns = newStep) by congruence.
      subst. split; [reflexivity|]. split; lra.
    + assert (E1 : yOut = fst (tryStep Y_of_double bp yIn step z q m))
        by congruence.
      assert (E2 : s = step) by congruence.
      assert (E3 : ns = grown bp step
                         (errorRatio Y_of_double bp yIn z q m step))
        by congruence.
      subst. split; [reflexivity|]. split; [lra|].
      unfold grown. apply Rmin_r.
Qed.

(** X23.  For 0 <= minStep <= maxStep, whatever the number of trial
    steps, the state that [process] stores is one step of exactly the
    length it reports in [currentStep]: for a charged particle position
    and (normalised) direction are those of one [dY] of that length from
    the input state, for a neutral one the position is advanced by
    currentStep along the unchanged direction.  The step taken is at
    least minStep and never longer than the requested next step clipped
    to [minStep, maxStep], and the next step suggested to the caller
    never exceeds maxStep. *)
Theorem accepted_state_is_one_step_of_currentStep (bp : t) (fuel : nat)
        (c c' : Candidate) :
  0 <= minStep bp <= maxStep bp ->
  process particleCharge Y_of_double bp fuel c = Some c' ->
  let q := ParticleStateOps.getCharge particleCharge (current c) in
  let m := ps_energy (current c) / (Units.c_light * Units.c_light) in
  let pos := ps_position (current c) in
  let dir := ps_direction (current c) in
  minStep bp <= currentStep c'
  /\ currentStep c' <= Dbl.clip (nextStep c) (minStep bp) (maxStep bp)
  /\ nextStep c' <= maxStep bp
  /\ (q = 0 ->
      ps_position (current c')
      = Vector3.add pos (Vector3.scale dir (currentStep c'))
      /\ currentStep c' = Dbl.clip (nextStep c) (minStep bp) (maxStep bp)
      /\ ps_direction (current c') = dir)
  /\ (q <> 0 ->
      let out := dY bp pos dir (currentStep c') (redshift c) q m in
      ps_position (current c') = y_x out
      /\ ps_direction (current c') = Vector3.getUnitVector (y_u out)).
Proof.
  intros Hcfg H q m pos dir.
  pose proof (clip_bounds (nextStep c) (minStep bp) (maxStep bp)
                          (proj2 Hcfg)) as Hclip.
  unfold process in H. fold q in H.
  destruct (Req_dec_T q 0) as [Hq|Hq].
  - injection H as Hc. rewrite <- Hc.
    cbn [currentStep nextStep current ps_position ps_direction setNextStep
         setCurrentStep set_current set_previous getNextStep y_x y_u
         ParticleStateOps.setPosition].
    split; [lra|]. split; [lra|]. split; [lra|].
    split; [intros _; repeat split|intros Hn; contradiction].
  - cbv zeta in H.
    destruct (Req_dec_T (minStep bp) (maxStep bp)) as [He|He].
    + injection H as Hc. rewrite <- Hc.
      cbn [currentStep nextStep current ps_position ps_direction setNextStep
           setCurrentStep set_current set_previous getNextStep y_x y_u
           ParticleStateOps.setPosition ParticleStateOps.setDirection
           getRedshift redshift].
      split; [lra|]. split; [lra|]. split; [lra|].
      split; [intros Hn; contradiction|intros _; split; reflexivity].
    + unfold getNextStep, getRedshift in H.
      cbn [nextStep redshift set_previous y_x y_u] in H.
      destruct (adaptLoop _ _ _ _ _ _ _ _ _) as [[[yOut s] ns]|] eqn:Hloop;
        [|discriminate].
      destruct (adaptLoop_result bp _ _ _ _ Hcfg _ _ _ _ _ _ Hclip
                  (proj2 Hclip) Hloop) as [E1 [E2 E3]].
      cbn [option_map] in H.
      injection H as Hc. rewrite <- Hc.
      cbn [currentStep nextStep current ps_position ps_direction setNextStep
           setCurrentStep set_current set_previous getNextStep y_x y_u
           ParticleStateOps.setPosition ParticleStateOps.setDirection
           getRedshift redshift].
      split; [lra|]. split; [lra|]. split; [exact E3|].
      split; [intros Hn; contradiction|].
      intros _. rewrite E1. split; reflexivity.
Qed.

Lemma adaptLoop_state (bp : t) (yIn : Y) (z q m : R) :
  forall (fuel : nat) (step newStep : R) yOut s ns,
    adaptLoop Y_of_double bp fuel yIn z q m step newStep = Some (yOut, s, ns) ->
    yOut = dY bp (y_x yIn) (y_u yIn) s z q m.
Proof.
  induction fuel as [|fuel IH]; intros step newStep yOut s ns H;
    [discriminate|].
  rewrite adaptLoop_pass in H. cbv zeta in H.
  destruct (Rgt_dec _ 1).
  - destruct (Req_dec_T step (minStep bp)).
    + assert (E1 : yOut = fst (tryStep Y_of_double bp yIn step z q m))
        by congruence.
      assert (E2 : s = step) by congruence. subst. reflexivity.
    + exact (IH _ _ _ _ _ H).
  - destruct (Req_dec_T step (maxStep bp)).
    + assert (E1 : yOut = fst (tryStep Y_of_double bp yIn step z q m))
        by congruence.
      assert (E2 : s = step) by congruence. subst. reflexivity.
    + assert (E1 : yOut = fst (tryStep Y_of_double bp yIn step z q m))
        by congruence.
      assert (E2 : s = step) by congruence. subst. reflexivity.
Qed.

Lemma process_direction (bp : t) (fuel : nat) (c c' : Candidate) :
  process particleCharge Y_of_double bp fuel c = Some c' ->
  let q := ParticleStateOps.getCharge particleCharge (current c) in
  let m := ps_energy (current c) / (Units.c_light * Units.c_light) in
  (q = 0 /\ ps_direction (current c') = ps_direction (current c))
  \/ (q <> 0
      /\ ps_direction (current c')
         = Vector3.getUnitVector
             (y_u (dY bp (ps_position (current c)) (ps_direction (current c))
                      (currentStep c') (redshift c) q m))).
Proof.
  intros H q m. unfold process in H. fold q in H.
  destruct (Req_dec_T q 0) as [Hq|Hq].
  - left. split; [exact Hq|]. injection H as Hc. rewrite <- Hc. reflexivity.
  - right. split; [exact Hq|]. cbv zeta in H.
    destruct (Req_dec_T (minStep bp) (maxStep bp)) as [He|He].
    + injection H as Hc. rewrite <- Hc. reflexivity.
    + unfold getNextStep, getRedshift in H.
      cbn [nextStep redshift set_previous y_x y_u] in H.
      destruct (adaptLoop _ _ _ _ _ _ _ _ _) as [[[yOut s] ns]|] eqn:Hloop;
        [|discriminate].
      pose proof (adaptLoop_state bp _ _ _ _ _ _ _ _ _ _ Hloop) as E1.
      cbn [option_map] in H. injection H as Hc. rewrite <- Hc.
      cbn [currentStep current ps_direction setNextStep setCurrentStep
           set_current set_previous ParticleStateOps.setDirection y_x y_u].
      rewrite E1. reflexivity.
Qed.

(** X24.  [process] hands back a unit direction whenever it was given
    one: a neutral particle keeps its direction, and the direction of a
    charged particle (where the push divides by no zero) is rotated by
    the Boris push and then normalised. *)
Theorem process_keeps_the_direction_normalised (bp : t) (fuel : nat)
        (c c' : Candidate) :
  process particleCharge Y_of_double bp fuel c = Some c' ->
  Vector3.getR (ps_direction (current c)) = 1 ->
  (ParticleStateOps.getCharge particleCharge (current c) <> 0 ->
   forall step,
     push_defined bp (ps_position (current c)) (ps_direction (current c))
                  step (ps_energy (current c)
                        / (Units.c_light * Units.c_light))) ->
  Vector3.getR (ps_direction (current c')) = 1.
Proof.
  intros H Hunit _.
  destruct (process_direction bp fuel c c' H) as [[_ Hd]|[_ Hd]];
    rewrite Hd; [exact Hunit|].
  apply getR_unit. rewrite dY_direction, getR_dot, borisPush_norm.
  rewrite <- getR_dot, Hunit. lra.
Qed.

(** X25.  An integrator built by the fixed-step constructor returns
    from every call of [process], for neutral and charged particles
    alike and without running the error estimation, with both
    [currentStep] and [nextStep] equal to the fixed step, whatever next
    step the candidate asked for. *)
Theorem fixed_step_integrator_takes_the_fixed_step
        (f : option (Vector3d -> R -> Vector3d)) (advF : Vector3d -> Vector3d)
        (h radius : R) (bp : t) (fuel : nat) (c : Candidate) :
  constructFixed f advF h radius = Stored bp ->
  exists c',
    process particleCharge Y_of_double bp fuel c = Some c'
    /\ currentStep c' = h /\ nextStep c' = h.
Proof.
  intros Hcons.
  destruct (constructFixed_spec f advF h radius) as [Hok Hbad].
  destruct (Rlt_dec h 0) as [Hneg|Hpos].
  { destruct (Hbad Hneg) as [msg Hmsg]. congruence. }
  rewrite Hok in Hcons by lra.
  assert (Hbp : bp = mkBP f advF 0.42 h h radius) by congruence.
  subst bp. unfold process.
  destruct (Req_dec_T _ 0) as [Hq|Hq].
  - eexists. split; [reflexivity|].
    cbn [currentStep nextStep setNextStep setCurrentStep set_current
         set_previous getNextStep minStep maxStep].
    split; [|reflexivity].
    pose proof (clip_bounds (nextStep c) h h ltac:(lra)). lra.
  - cbv zeta. cbn [minStep maxStep].
    destruct (Req_dec_T h h) as [_|Hn]; [|contradiction].
    eexists. split; [reflexivity|]. split; reflexivity.
Qed.

End Acceptance.

Section Configuration.
Import PropagationBP.

(** X26.  Both constructors leave the integrator with
    0 <= tolerance <= 1 and 0 <= minStep <= maxStep (the fixed-step one
    with minStep = maxStep), and every setter that returns normally keeps
    these ranges, also for the members it does not write. *)
Theorem configuration_stays_within_ranges :
  (forall f advF tol min max radius bp,
      construct f advF tol min max radius = Stored bp -> bp_configured bp)
  /\ (forall f advF h radius bp,
        constructFixed f advF h radius = Stored bp ->
        bp_configured bp /\ minStep bp = maxStep bp)
  /\ (forall bp x bp',
        bp_configured bp ->
        setTolerance x bp = Stored bp' \/ setMinimumStep x bp = Stored bp'
        \/ setMaximumStep x bp = Stored bp' \/ bp' = setShockRadius x bp ->
        bp_configured bp').
Proof.
  split; [|split].
  - intros f advF tol min max radius bp H.
    destruct (construct_spec f advF tol min max radius) as [Hok Hbad].
    destruct (Rle_dec 0 tol) as [H1|H1].
    2:{ destruct Hbad as [msg Hmsg]; [lra|congruence]. }
    destruct (Rle_dec tol 1) as [H2|H2].
    2:{ destruct Hbad as [msg Hmsg]; [lra|congruence]. }
    destruct (Rle_dec 0 min) as [H3|H3].
    2:{ destruct Hbad as [msg Hmsg]; [lra|congruence]. }
    destruct (Rle_dec min max) as [H4|H4].
    2:{ destruct Hbad as [msg Hmsg]; [lra|congruence]. }
    rewrite Hok in H by lra.
    assert (Hbp : bp = mkBP f advF tol min max radius) by congruence.
    subst bp. unfold bp_configured; simpl. lra.
  - intros f advF h radius bp H.
    destruct (constructFixed_spec f advF h radius) as [Hok Hbad].
    destruct (Rlt_dec h 0) as [Hneg|Hpos].
    { destruct (Hbad Hneg) as [msg Hmsg]. congruence. }
    rewrite Hok in H by lra.
    assert (Hbp : bp = mkBP f advF 0.42 h h radius) by congruence.
    subst bp. unfold bp_configured; simpl. split; [lra|reflexivity].
  - intros bp x bp' [Htol Hstep] [H|[H|[H|H]]].
    + destruct (setTolerance_spec bp x) as [Hbad Hok].
      destruct (Rle_dec 0 x) as [H1|H1].
      2:{ destruct Hbad as [msg Hmsg]; [lra|congruence]. }
      destruct (Rle_dec x 1) as [H2|H2].
      2:{ destruct Hbad as [msg Hmsg]; [lra|congruence]. }
      rewrite Hok in H by lra.
      assert (Hbp : bp' = set_tolerance x bp) by congruence.
      subst bp'. unfold bp_configured; simpl. lra.
    + destruct (setMinimumStep_spec bp x) as [Hbad Hok].
      destruct (Rle_dec 0 x) as [H1|H1].
      2:{ destruct Hbad as [msg Hmsg]; [lra|congruence]. }
      destruct (Rle_dec x (maxStep bp)) as [H2|H2].
      2:{ destruct Hbad as [msg Hmsg]; [lra|congruence]. }
      rewrite Hok in H by lra.
      assert (Hbp : bp' = set_minStep x bp) by congruence.
      subst bp'. unfold bp_configured; simpl. lra.
    + destruct (setMaximumStep_spec bp x) as [Hbad Hok].
      destruct (Rle_dec (minStep bp) x) as [H1|H1].
      2:{ destruct Hbad as [msg Hmsg]; [lra|congruence]. }
      rewrite Hok in H by lra.
      assert (Hbp : bp' = set_maxStep x bp) by congruence.
      subst bp'. unfold bp_configured; simpl. lra.
    + subst bp'. unfold bp_configured; simpl. lra.
Qed.

End Configuration.

Section ShockDrift.
Import PropagationBP CandidateOps.

Lemma getR_axis (x : R) : 0 <= x -> Vector3.getR (mkVector3d x 0 0) = x.
Proof.
  intros Hx. unfold Vector3.getR; cbn [vx vy vz].
  replace (x * x + 0 * 0 + 0 * 0) with (x * x) by ring.
  apply sqrt_square. exact Hx.
Qed.

Lemma shock_wind_origin :
  getAdvFieldAtPosition bp_shock origin = mkVector3d Units.c_light 0 0.
Proof.
  unfold getAdvFieldAtPosition. cbn [field bp_shock advField].
  unfold shock_wind. cbn [origin vx].
  destruct (Rlt_dec 0 1) as [_|H]; [reflexivity|lra].
Qed.

Lemma shock_drift_origin : drift bp_shock origin e_x = mkVector3d 2 0 0.
Proof.
  pose proof c_light_pos as Hc.
  unfold drift. cbv zeta. rewrite shock_wind_origin.
  unfold Vector3.getUnitVector. rewrite getR_axis by lra.
  unfold Vector3.divide, Vector3.scale, Vector3.add, e_x; cbn [vx vy vz].
  f_equal; field; lra.
Qed.

Lemma shock_drift_defined : drift_defined bp_shock origin e_x.
Proof.
  pose proof c_light_pos as Hc. unfold drift_defined.
  rewrite shock_wind_origin, shock_drift_origin, !getR_axis by lra.
  split; lra.
Qed.

Lemma shock_push_defined step m :
  m <> 0 -> push_defined bp_shock origin e_x step m.
Proof.
  intros Hm. split; [exact Hm|]. split; [exact shock_drift_defined|].
  cbn [shockRadius bp_shock]. intros H.
  pose proof (getR_nonneg (halfStepPosition bp_shock origin e_x step)). lra.
Qed.

Lemma shock_direction_kept h z q m :
  y_u (dY bp_shock origin e_x h z q m) = e_x.
Proof.
  rewrite (dY_shock origin e_x h z q m e_x)
    by (apply drift_upstream; simpl; lra).
  reflexivity.
Qed.

End ShockDrift.

Lemma boris_push_rotates_the_direction_witness :
  Vector3.getR (PropagationBP.y_u (PropagationBP.dY bp_gyro origin e_x
                                                     4 0 1 1))
  = Vector3.getR e_x.
Proof.
  apply (boris_push_rotates_the_direction bp_gyro origin e_x 4 0 1 1).
  exact (shock_push_defined 4 1 ltac:(lra)).
Defined.

Lemma a_step_never_moves_farther_than_its_length_witness :
  Vector3.getR
    (Vector3.sub (PropagationBP.y_x (PropagationBP.dY bp_shock origin e_x
                                                       4 0 1 1)) origin)
  <= 4.
Proof.
  apply (a_step_never_moves_farther_than_its_length bp_shock origin e_x
           4 0 1 1).
  - lra.
  - apply shock_push_defined. lra.
  - rewrite shock_direction_kept, shock_drift_origin, getR_axis; lra.
Defined.

Lemma accepted_state_is_one_step_of_currentStep_witness :
  exists N c',
    PropagationBP.process charge_of_nuclei Y_broadcast bp_shock N
                          (proton_at 10) = Some c'
    /\ currentStep c'
       <= Dbl.clip (nextStep (proton_at 10)) (PropagationBP.minStep bp_shock)
                   (PropagationBP.maxStep bp_shock)
    /\ nextStep c' <= PropagationBP.maxStep bp_shock.
Proof.
  destruct (process_terminates charge_of_nuclei Y_broadcast bp_shock
              (proton_at 10)) as [N HN].
  { simpl. lra. }
  destruct (HN N (le_n N)) as [c' [H _]].
  exists N, c'. split; [exact H|].
  destruct (accepted_state_is_one_step_of_currentStep charge_of_nuclei
              Y_broadcast bp_shock N (proton_at 10) c'
              ltac:(simpl; lra) H) as [_ [H2 [H3 _]]].
  split; [exact H2|exact H3].
Defined.

Lemma process_keeps_the_direction_normalised_witness :
  exists N c',
    PropagationBP.process charge_of_nuclei Y_broadcast bp_shock N
                          (proton_at 10) = Some c'
    /\ Vector3.getR (ps_direction (current c')) = 1.
Proof.
  destruct (process_terminates charge_of_nuclei Y_broadcast bp_shock
              (proton_at 10)) as [N HN].
  { simpl. lra. }
  destruct (HN N (le_n N)) as [c' [H _]].
  exists N, c'. split; [exact H|].
  apply (process_keeps_the_direction_normalised charge_of_nuclei Y_broadcast
           bp_shock N (proton_at 10) c' H).
  - change (ps_direction (current (proton_at 10))) with e_x.
    unfold e_x. apply getR_axis. lra.
  - intros _ step. apply shock_push_defined.
    cbn [proton_at current ps_energy].
    pose proof mass_energy_pos as Hm. pose proof c_light_pos as Hc.
    apply Rgt_not_eq. apply Rdiv_lt_0_compat; nra.
Defined.

Lemma fixed_step_integrator_takes_the_fixed_step_witness :
  exists c',
    PropagationBP.process charge_of_nuclei Y_broadcast
      (PropagationBP.mkBP None (fun _ => Vector3.zero) 0.42 3 3 0) 0
      photon_candidate = Some c'
    /\ currentStep c' = 3 /\ nextStep c' = 3.
Proof.
  apply (fixed_step_integrator_takes_the_fixed_step charge_of_nuclei
           Y_broadcast None (fun _ => Vector3.zero) 3 0).
  apply constructFixed_spec. lra.
Defined.

Lemma configuration_stays_within_ranges_witness :
  bp_configured (PropagationBP.set_maxStep 20 bp_plain).
Proof.
  apply (proj2 (proj2 configuration_stays_within_ranges) bp_plain 20).
  - unfold bp_configured, bp_plain; simpl. lra.
  - right. right. left. apply setMaximumStep_spec. simpl. lra.
Defined.

(** ** The retry loop of the adaptive step *)









